(** * node-hl7-client: delimiter codec, segment splitter, outbound channel
      and MSH validation, embedded from the TypeScript sources

    Sources covered:
    - [src/builder/modules/rootBase.ts]  : class [RootBase], and class
                                           [HL7Outbound] behind it
    - [src/specification/2.7.ts]         : class [HL7_2_7]
    - [src/specification/generic.ts]     : interface [HL7_MSH_MESSAGE_TYPE]

    JavaScript strings are modelled by [string]; a code unit is a character
    of [ascii] (the code only compares code units for equality).  JavaScript
    integers (indexes, lengths, counters) are modelled by [Z]; [undefined]
    is [None] of an option type. *)

From Stdlib Require Import String Ascii List ZArith Lia Bool Arith.
From Stdlib Require Import DecimalString DecimalPos DecimalZ.
From Stdlib Require Import Sorted Permutation.
Import ListNotations.

Local Open Scope string_scope.
Local Open Scope Z_scope.

(* ================================================================== *)
(** * Completions: a call returns or throws                            *)
(* ================================================================== *)

(** The exceptions the sources raise.  [HL7FatalError] is the library's own
    error (numeric code and message), [Error] the plain JavaScript one used
    by the specification checks, [TypeError] what the runtime raises when a
    property of [undefined] is read. *)
Inductive Exception : Type :=
| HL7FatalError (code : Z) (message : string)
| TypeError (message : string)
| Error (message : string).

Inductive Completion (A : Type) : Type :=
| Return (a : A)
| Throw (e : Exception).

Arguments Return {A} a.
Arguments Throw {A} e.

Definition bind {A B : Type} (c : Completion A) (k : A -> Completion B)
  : Completion B :=
  match c with
  | Return a => k a
  | Throw e => Throw e
  end.

Declare Scope completion_scope.
Delimit Scope completion_scope with completion.
Notation "x <- c ;; k" := (bind c (fun x => k))
  (at level 61, c at next level, right associativity) : completion_scope.
Local Open Scope completion_scope.

(** A value that is a string, [null] or [undefined]: what a JavaScript
    caller can hand to a parameter declared [text: string]. *)
Inductive JsText : Type :=
| null
| undefined
| str (s : string).

(* ================================================================== *)
(** * The JavaScript string and array primitives the sources call       *)
(* ================================================================== *)

Module JS.

(** [s.length] *)
Definition length (s : string) : Z := Z.of_nat (String.length s).

Fixpoint take (n : nat) (s : string) : string :=
  match n, s with
  | O, _ => EmptyString
  | S _, EmptyString => EmptyString
  | S n', String c s' => String c (take n' s')
  end.

Fixpoint drop (n : nat) (s : string) : string :=
  match n, s with
  | O, _ => s
  | S _, EmptyString => EmptyString
  | S n', String _ s' => drop n' s'
  end.

(** The code units of [s] from position [from] up to (not including)
    position [to], both already inside [0 .. length]. *)
Definition range (s : string) (from to : Z) : string :=
  take (Z.to_nat (to - from)) (drop (Z.to_nat from) s).

(** Relative index of [slice]: a negative index counts from the end. *)
Definition relative (len i : Z) : Z :=
  if i <? 0 then Z.max (len + i) 0 else Z.min i len.

(** [s.slice(start, end)] *)
Definition slice (s : string) (start end_ : Z) : string :=
  let len := length s in
  range s (relative len start) (relative len end_).

(** Index clamping of [substring]: into [0 .. length]. *)
Definition clamp (len i : Z) : Z := Z.min (Z.max i 0) len.

(** [s.substring(start, end)]: both indexes clamped, swapped when
    [start > end]. *)
Definition substring (s : string) (start end_ : Z) : string :=
  let len := length s in
  let a := clamp len start in
  let b := clamp len end_ in
  range s (Z.min a b) (Z.max a b).

(** [s.indexOf(pat)]: the first position where [pat] occurs, [-1] when
    there is none. *)
Fixpoint indexOf (s pat : string) : Z :=
  if String.prefix pat s then 0
  else match s with
       | EmptyString => -1
       | String _ s' =>
           let r := indexOf s' pat in
           if r <? 0 then -1 else r + 1
       end.

(** [s.includes(pat)] *)
Definition includes (s pat : string) : bool := 0 <=? indexOf s pat.

(** [s.replace(pat, rep)] with a string pattern: the first occurrence
    only.  The replacement is taken as it is (the sources pass the empty
    string). *)
Fixpoint replace (s pat rep : string) : string :=
  if String.prefix pat s then rep ++ drop (String.length pat) s
  else match s with
       | EmptyString => EmptyString
       | String c s' => String c (replace s' pat rep)
       end.

(** [s[i]]: a one-code-unit string, or [undefined]. *)
Definition at_ (s : string) (i : nat) : option string :=
  match String.get i s with
  | Some c => Some (String c EmptyString)
  | None => None
  end.

(** ToString of a value that is a string or [undefined], as performed by
    a template literal, by a [replace] callback's result and by the
    argument of [includes]. *)
Definition ToString (v : option string) : string :=
  match v with
  | Some s => s
  | None => "undefined"
  end.

(** [a === b] for a string [a] and a value [b] that is a string or
    [undefined]. *)
Definition strict_eq (a : string) (b : option string) : bool :=
  match b with
  | Some s => String.eqb a s
  | None => false
  end.

(** [n.toString()] for an integer [n]. *)
Definition toString (n : Z) : string :=
  NilZero.string_of_int (Z.to_int n).

(** [parseInt(s)] on a decimal numeral with an optional minus sign; [None]
    is NaN.  The sources apply it only to results of [toString]; any
    other string (JavaScript would still read a number off a prefix, skip
    white space, accept a plus sign or a hexadecimal prefix) is NaN
    here. *)
Definition parseInt (s : string) : option Z :=
  match NilZero.int_of_string s with
  | Some d => Some (Z.of_int d)
  | None => None
  end.

(** The sign test of a comparator result [a - b]; NaN counts as [+0]. *)
Definition positive (d : option Z) : bool :=
  match d with
  | Some z => 0 <? z
  | None => false
  end.

(** [a - b] on numbers that may be NaN or [undefined]. *)
Definition minus (a b : option Z) : option Z :=
  match a, b with
  | Some x, Some y => Some (x - y)
  | _, _ => None
  end.

Section Sort.
Context {A : Type} (cmp : A -> A -> option Z).

(** Insert [x] behind every element that does not compare greater. *)
Fixpoint insert (x : A) (l : list A) : list A :=
  match l with
  | [] => [x]
  | y :: l' =>
      if positive (cmp y x) then x :: y :: l'
      else y :: insert x l'
  end.

(** [l.sort(cmp)]: the stable sort of [l] under the comparator (an
    insertion sort from the left; for a consistent comparator every
    stable sort gives this result). *)
Definition sort (l : list A) : list A :=
  fold_left (fun acc x => insert x acc) l [].
End Sort.

End JS.

(* ================================================================== *)
(** * RootBase: the delimiter codec and the segment splitter            *)
(* ================================================================== *)

(** Modelled from the spec: the enum [Delimiters] of [utils/enum.js], which
    is not among the sources.  The spec fixes the order of a delimiter set:
    segment terminator, field separator, component separator, repetition
    separator, escape character, subcomponent separator. *)
Module Delimiters.
Definition Segment : nat := 0.
Definition Field : nat := 1.
Definition Component : nat := 2.
Definition Repetition : nat := 3.
Definition Escape : nat := 4.
Definition SubComponent : nat := 5.
End Delimiters.

(** The delimiter options of [ClientBuilderOptions] read by the
    constructor. *)
Record ClientBuilderOptions : Type := {
  newLine : string;
  separatorField : string;
  separatorComponent : string;
  separatorRepetition : string;
  separatorEscape : string;
  separatorSubComponent : string
}.

Definition CR : ascii := ascii_of_nat 13.
Definition LF : ascii := ascii_of_nat 10.

Module RootBase.

(** [/a|b|c|d|e/g]: an alternation of literal code units. *)
Record MatchEscape : Type := { alternatives : list ascii }.

(** [/e[^e]*e/g]: an opening [e], any code units other than [e], a
    closing [e]. *)
Record MatchUnescape : Type := { bracket : ascii }.

Record t : Type := {
  _delimiters : string;
  _matchEscape : MatchEscape;
  _matchUnescape : MatchUnescape
}.

(** [escapeForRegExp(delimiters[i])]: the code unit at position [i] as a
    literal of a pattern.  The helper is not among the sources; a
    position that is absent yields no pattern. *)
Definition literal (delimiters : string) (i : nat) : option ascii :=
  String.get i delimiters.

Definition _makeMatchEscape (delimiters : string) : option MatchEscape :=
  match literal delimiters Delimiters.Escape,
        literal delimiters Delimiters.Field,
        literal delimiters Delimiters.Repetition,
        literal delimiters Delimiters.Component,
        literal delimiters Delimiters.SubComponent with
  | Some e, Some f, Some r, Some c, Some s =>
      Some {| alternatives := [e; f; r; c; s] |}
  | _, _, _, _, _ => None
  end.

Definition _makeMatchUnescape (delimiters : string) : option MatchUnescape :=
  match literal delimiters Delimiters.Escape with
  | Some e => Some {| bracket := e |}
  | None => None
  end.

Definition _defaultDelimiters : string :=
  String CR "|^~\&".
Definition _defaultMatchUnescape : option MatchUnescape :=
  _makeMatchUnescape _defaultDelimiters.
Definition _defaultMatchEscape : option MatchEscape :=
  _makeMatchEscape _defaultDelimiters.

(** The constructor: the delimiter string is the concatenation of the six
    options; the patterns are the cached default ones when it equals the
    default delimiters, and are made from it otherwise. *)
Definition new (opt : ClientBuilderOptions) : option t :=
  let delimiters :=
    newLine opt ++ separatorField opt ++ separatorComponent opt
      ++ separatorRepetition opt ++ separatorEscape opt
      ++ separatorSubComponent opt in
  let patterns :=
    if String.eqb delimiters _defaultDelimiters
    then (_defaultMatchUnescape, _defaultMatchEscape)
    else (_makeMatchUnescape delimiters, _makeMatchEscape delimiters) in
  match patterns with
  | (Some mu, Some me) =>
      Some {| _delimiters := delimiters;
              _matchEscape := me;
              _matchUnescape := mu |}
  | _ => None
  end.

(** [get delimiters] *)
Definition delimiters (this : t) : string := _delimiters this.

(** [this._delimiters[i]] *)
Definition delimiter (this : t) (i : nat) : option string :=
  JS.at_ (_delimiters this) i.

(** [text.replace(this._matchEscape, f)]: every code unit that is one of
    the alternatives is replaced by the result of [f] on it, from left to
    right. *)
Fixpoint replace_matchEscape (re : MatchEscape)
    (f : string -> Completion string) (text : string)
  : Completion string :=
  match text with
  | EmptyString => Return EmptyString
  | String c text' =>
      if existsb (Ascii.eqb c) (alternatives re)
      then r <- f (String c EmptyString) ;;
           rest <- replace_matchEscape re f text' ;;
           Return (r ++ rest)
      else rest <- replace_matchEscape re f text' ;;
           Return (String c rest)
  end.

(** The callback of [escape]: the [switch] over the matched delimiter. *)
Definition escape_callback (this : t) (match_ : string)
  : Completion string :=
  let ch : option string :=
    Some (if JS.strict_eq match_ (delimiter this Delimiters.Escape)
          then "E"
          else if JS.strict_eq match_ (delimiter this Delimiters.Field)
          then "F"
          else if JS.strict_eq match_ (delimiter this Delimiters.Repetition)
          then "R"
          else if JS.strict_eq match_ (delimiter this Delimiters.Component)
          then "S"
          else if JS.strict_eq match_ (delimiter this Delimiters.SubComponent)
          then "T"
          else "") in
  match ch with
  | Some ch =>
      let escape := JS.ToString (delimiter this Delimiters.Escape) in
      Return (escape ++ ch ++ escape)
  | None =>
      Throw (HL7FatalError 500
               ("Escape sequence for " ++ match_ ++ " is not known."))
  end.

(** [escape(text)] *)
Definition escape (this : t) (text : JsText) : Completion string :=
  match text with
  | null =>
      Throw (HL7FatalError 500 "text must be passed in escape function.")
  | undefined =>
      Throw (TypeError
               "Cannot read properties of undefined (reading 'replace')")
  | str s => replace_matchEscape (_matchEscape this) (escape_callback this) s
  end.

(** [text.replace(this._matchUnescape, f)], scanning from left to right.
    [open] is [None] outside a candidate match and [Some body] after an
    opening bracket followed by the code units [body]; the closing
    bracket completes a match, which [f] replaces.  An opening bracket
    that meets no closing one is no match and stays as it is. *)
Fixpoint replace_matchUnescape_from (re : MatchUnescape)
    (f : string -> Completion string) (open : option string)
    (text : string) : Completion string :=
  match text with
  | EmptyString =>
      Return (match open with
              | None => EmptyString
              | Some body => String (bracket re) body
              end)
  | String c text' =>
      match open with
      | None =>
          if Ascii.eqb c (bracket re)
          then replace_matchUnescape_from re f (Some EmptyString) text'
          else rest <- replace_matchUnescape_from re f None text' ;;
               Return (String c rest)
      | Some body =>
          if Ascii.eqb c (bracket re)
          then r <- f (String (bracket re)
                         (body ++ String (bracket re) EmptyString)) ;;
               rest <- replace_matchUnescape_from re f None text' ;;
               Return (r ++ rest)
          else replace_matchUnescape_from re f
                 (Some (body ++ String c EmptyString)) text'
      end
  end.

Definition replace_matchUnescape (re : MatchUnescape)
    (f : string -> Completion string) (text : string)
  : Completion string :=
  replace_matchUnescape_from re f None text.

Section Unescape.

(** [decodeHexString] of [utils/utils.js] is not among the sources: it
    is a parameter, free to return any string or to throw. *)
Variable decodeHexString : string -> Completion string.

(** The callback of [unescape]: the [switch] over the code unit behind
    the opening bracket. *)
Definition unescape_callback (this : t) (match_ : string)
  : Completion string :=
  let code := JS.slice match_ 1 2 in
  if String.eqb code "E"
  then Return (JS.ToString (delimiter this Delimiters.Escape))
  else if String.eqb code "F"
  then Return (JS.ToString (delimiter this Delimiters.Field))
  else if String.eqb code "R"
  then Return (JS.ToString (delimiter this Delimiters.Repetition))
  else if String.eqb code "S"
  then Return (JS.ToString (delimiter this Delimiters.Component))
  else if String.eqb code "T"
  then Return (JS.ToString (delimiter this Delimiters.SubComponent))
  else if String.eqb code "X"
  then decodeHexString (JS.slice match_ 2 (JS.length match_ - 1))
  else if (String.eqb code "C" || String.eqb code "H"
           || String.eqb code "M" || String.eqb code "N"
           || String.eqb code "Z")%bool
  then Return EmptyString
  else Return match_.

(** [unescape(text)] *)
Definition unescape (this : t) (text : JsText) : Completion string :=
  match text with
  | null =>
      Throw (HL7FatalError 500 "text must be passed in unescape function.")
  | undefined =>
      Throw (TypeError
               "Cannot read properties of undefined (reading 'includes')")
  | str s =>
      if negb (JS.includes s
                 (JS.ToString (delimiter this Delimiters.Escape)))
      then Return s
      else replace_matchUnescape (_matchUnescape this)
             (unescape_callback this) s
  end.

End Unescape.

(** ** The segment splitter *)

(** A code unit that a pattern takes as it is: a letter or a digit. *)
Definition word_character (c : ascii) : bool :=
  let n := nat_of_ascii c in
  ((48 <=? n) && (n <=? 57) || (65 <=? n) && (n <=? 90)
   || (97 <=? n) && (n <=? 122))%nat%bool.

(** [new RegExp(`(\\n|\\r|)(${names[i]})\\|`, 'g')] splices the name
    into the pattern as it is.  A name of letters and digits stands for
    itself there, and [match_here] is its pattern; the model has no
    pattern for a name with any other code unit, which the pattern
    language may read as an operator. *)
Definition literal_name (name : string) : bool :=
  forallb word_character (list_ascii_of_string name).

(** One attempt of [/(\n|\r|)(NAME)\|/] at the head of [s], for a name
    of letters and digits: the alternatives of the first group are tried
    in their order, line feed, carriage return, nothing.  The result is
    the matched text, [m[0]]. *)
Definition match_here (name s : string) : option string :=
  let body := name ++ "|" in
  if String.prefix (String LF body) s then Some (String LF body)
  else if String.prefix (String CR body) s then Some (String CR body)
  else if String.prefix body s then Some body
  else None.

(** The leftmost match in [s], the rest of the data from position [pos]
    on: its position and its text. *)
Fixpoint search (name s : string) (pos : Z) : option (Z * string) :=
  match match_here name s with
  | Some m => Some (pos, m)
  | None =>
      match s with
      | EmptyString => None
      | String _ s' => search name s' (pos + 1)
      end
  end.

(** [regex.exec(data)] with the pattern's [lastIndex]: [m.index] and
    [m[0]] of the next match, or [null]. *)
Definition exec (name data : string) (lastIndex : Z)
  : option (Z * string) :=
  if JS.length data <? lastIndex then None
  else search name (JS.drop (Z.to_nat lastIndex) data) lastIndex.

(** The [while ((m = regex.exec(data)) != null)] loop for one name.  Each
    round moves [lastIndex] behind the match; [None] is a loop the fuel
    did not suffice for. *)
Fixpoint exec_loop (fuel : nat) (name data : string) (lastIndex : Z)
    (list_ : list string) : option (list string) :=
  match fuel with
  | O => None
  | S fuel' =>
      match exec name data lastIndex with
      | None => Some list_
      | Some (m_index, s) =>
          let index :=
            if JS.includes s (String CR (String LF EmptyString))
            then m_index + 2
            else if JS.includes s (String LF EmptyString)
            then m_index + 1
            else if JS.includes s (String CR EmptyString)
            then m_index + 1
            else m_index in
          exec_loop fuel' name data (m_index + JS.length s)
            (list_ ++ [JS.toString index])
      end
  end.

(** [_getSegIndexes(names, data, list)].  [None] is a name the model has
    no pattern for (the names [split] passes are all of letters), or a
    loop the fuel did not suffice for. *)
Fixpoint _getSegIndexes (names : list string) (data : string)
    (list_ : list string) : option (list string) :=
  match names with
  | [] => Some list_
  | name :: names' =>
      if literal_name name then
        match exec_loop (S (String.length data)) name data 0 list_ with
        | Some list' => _getSegIndexes names' data list'
        | None => None
        end
      else None
  end.

(** [parseInt(l[i])]: [parseInt(undefined)] is NaN. *)
Definition parseInt_at (l : list string) (i : nat) : option Z :=
  match nth_error l i with
  | Some s => JS.parseInt s
  | None => None
  end.

(** [data.slice(start, end)] on numbers that may be NaN: NaN counts as
    [0]. *)
Definition slice_num (data : string) (start end_ : option Z) : string :=
  JS.slice data (match start with Some z => z | None => 0 end)
                (match end_ with Some z => z | None => 0 end).

(** The [for] loop of [split], from index [i], with [todo] rounds left. *)
Fixpoint split_for (data : string) (getSegIndex : list string)
    (i todo : nat) (segments : list string) : list string :=
  match todo with
  | O => segments
  | S todo' =>
      let start := parseInt_at getSegIndex i in
      let end_ := parseInt_at getSegIndex (i + 1) in
      let end_ :=
        if Nat.eqb (i + 1) (List.length getSegIndex)
        then Some (JS.length data) else end_ in
      split_for data getSegIndex (S i) todo'
        (segments ++ [slice_num data start end_])
  end.

Definition boundaryNames : list string :=
  ["FHS"; "BHS"; "MSH"; "BTS"; "FTS"].

(** The comparator of [split]: [parseInt(a) - parseInt(b)]. *)
Definition byParseInt (a b : string) : option Z :=
  JS.minus (JS.parseInt a) (JS.parseInt b).

(** [split(data, segments)] *)
Definition split (data : string) (segments : list string)
  : option (list string) :=
  match _getSegIndexes boundaryNames data [] with
  | Some list_ =>
      let getSegIndex := JS.sort byParseInt list_ in
      Some (split_for data getSegIndex 0 (List.length getSegIndex) segments)
  | None => None
  end.

End RootBase.

(* ================================================================== *)
(** * HL7Outbound: the outbound channel                                 *)
(* ================================================================== *)

(** Modelled from the spec: the MLLP markers [PROTOCOL_MLLP_HEADER] and
    [PROTOCOL_MLLP_FOOTER] of [utils/constants.js], which is not among the
    sources.  The start marker is the control byte 0x0B, the end marker the
    two bytes 0x1C 0x0D. *)
Definition PROTOCOL_MLLP_HEADER : string :=
  String (ascii_of_nat 11) EmptyString.
Definition PROTOCOL_MLLP_FOOTER : string :=
  String (ascii_of_nat 28) (String (ascii_of_nat 13) EmptyString).

(** Modelled from the spec: the enum [ReadyState] of [utils/enum.js], which
    is not among the sources. *)
Inductive ReadyState : Type :=
| CONNECTING | OPEN | CONNECTED | CLOSING | CLOSED.

Definition ReadyState_eqb (a b : ReadyState) : bool :=
  match a, b with
  | CONNECTING, CONNECTING | OPEN, OPEN | CONNECTED, CONNECTED
  | CLOSING, CLOSING | CLOSED, CLOSED => true
  | _, _ => false
  end.

(** A socket as the channel reads it: the properties [lastUsed] and
    [destroyed], each a value or [undefined]. *)
Record Socket : Type := {
  lastUsed : option Z;
  destroyed : option bool
}.

(** What the channel does to the outside, in the order it does it. *)
Inductive Effect : Type :=
| Emit (event : string) (arg : option Z)
| Handler (response : string)
| SocketEnd (socket : Socket)
| SocketDestroy (socket : Socket)
| ClearTimeout (timer : Z).

(** The options of the channel ([normalizeClientListenerOptions]) and of
    its parent client that the handlers read. *)
Record ClientListenerOptions : Type := {
  maxAttempts : option Z;
  retryHigh : option Z;
  retryLow : option Z;
  maxConnections : Z;
  waitAck : bool
}.

Record ClientOptions : Type := {
  main_maxAttempts : option Z;
  main_retryHigh : option Z;
  main_retryLow : option Z
}.

Module HL7Outbound.

(** A JavaScript [Map] with string keys: the entries in insertion
    order. *)
Definition Map (V : Type) : Type := list (string * V).

Definition Map_get {V} (m : Map V) (k : string) : option V :=
  match find (fun e => String.eqb (fst e) k) m with
  | Some e => Some (snd e)
  | None => None
  end.

(** [m.set(k, v)]: an existing key keeps its place. *)
Fixpoint Map_set {V} (m : Map V) (k : string) (v : V) : Map V :=
  match m with
  | [] => [(k, v)]
  | e :: m' =>
      if String.eqb (fst e) k then (k, v) :: m'
      else e :: Map_set m' k v
  end.

Definition Map_delete {V} (m : Map V) (k : string) : Map V :=
  filter (fun e => negb (String.eqb (fst e) k)) m.

Definition Map_size {V} (m : Map V) : Z := Z.of_nat (List.length m).

(** [l.slice(start, end)] on an array. *)
Definition Array_slice {A} (l : list A) (start end_ : Z) : list A :=
  let len := Z.of_nat (List.length l) in
  let from := JS.relative len start in
  let to := JS.relative len end_ in
  firstn (Z.to_nat (to - from)) (skipn (Z.to_nat from) l).

(** The fields of the channel.  [_handler] is the caller's handler or
    [undefined]; the handler is asynchronous and is modelled by whether
    the promise it returns for a response (the text that stands for it)
    resolves.  A timer is the delay
    it was armed with.  [effects] records what the channel did. *)
Record state : Type := {
  _awaitingResponse : bool;
  _connectionTimer : option Z;
  _handler : option (string -> bool);
  _nodeId : string;
  _opt : ClientListenerOptions;
  _main_opt : ClientOptions;
  _retryCount : Z;
  _retryTimer : option Z;
  _sockets : Map Socket;
  _readyState : ReadyState;
  _responseBuffer : string;
  _initialConnection : bool;
  stats_acknowledged : Z;
  stats_sent : Z;
  effects : list Effect
}.

Definition set_awaitingResponse (v : bool) (o : state) : state :=
  {| _awaitingResponse := v; _connectionTimer := _connectionTimer o;
     _handler := _handler o; _nodeId := _nodeId o; _opt := _opt o;
     _main_opt := _main_opt o; _retryCount := _retryCount o;
     _retryTimer := _retryTimer o; _sockets := _sockets o;
     _readyState := _readyState o; _responseBuffer := _responseBuffer o;
     _initialConnection := _initialConnection o;
     stats_acknowledged := stats_acknowledged o;
     stats_sent := stats_sent o; effects := effects o |}.

Definition set_connectionTimer (v : option Z) (o : state) : state :=
  {| _awaitingResponse := _awaitingResponse o; _connectionTimer := v;
     _handler := _handler o; _nodeId := _nodeId o; _opt := _opt o;
     _main_opt := _main_opt o; _retryCount := _retryCount o;
     _retryTimer := _retryTimer o; _sockets := _sockets o;
     _readyState := _readyState o; _responseBuffer := _responseBuffer o;
     _initialConnection := _initialConnection o;
     stats_acknowledged := stats_acknowledged o;
     stats_sent := stats_sent o; effects := effects o |}.

Definition set_retryCount (v : Z) (o : state) : state :=
  {| _awaitingResponse := _awaitingResponse o;
     _connectionTimer := _connectionTimer o;
     _handler := _handler o; _nodeId := _nodeId o; _opt := _opt o;
     _main_opt := _main_opt o; _retryCount := v;
     _retryTimer := _retryTimer o; _sockets := _sockets o;
     _readyState := _readyState o; _responseBuffer := _responseBuffer o;
     _initialConnection := _initialConnection o;
     stats_acknowledged := stats_acknowledged o;
     stats_sent := stats_sent o; effects := effects o |}.

Definition set_retryTimer (v : option Z) (o : state) : state :=
  {| _awaitingResponse := _awaitingResponse o;
     _connectionTimer := _connectionTimer o;
     _handler := _handler o; _nodeId := _nodeId o; _opt := _opt o;
     _main_opt := _main_opt o; _retryCount := _retryCount o;
     _retryTimer := v; _sockets := _sockets o;
     _readyState := _readyState o; _responseBuffer := _responseBuffer o;
     _initialConnection := _initialConnection o;
     stats_acknowledged := stats_acknowledged o;
     stats_sent := stats_sent o; effects := effects o |}.

Definition set_sockets (v : Map Socket) (o : state) : state :=
  {| _awaitingResponse := _awaitingResponse o;
     _connectionTimer := _connectionTimer o;
     _handler := _handler o; _nodeId := _nodeId o; _opt := _opt o;
     _main_opt := _main_opt o; _retryCount := _retryCount o;
     _retryTimer := _retryTimer o; _sockets := v;
     _readyState := _readyState o; _responseBuffer := _responseBuffer o;
     _initialConnection := _initialConnection o;
     stats_acknowledged := stats_acknowledged o;
     stats_sent := stats_sent o; effects := effects o |}.

Definition set_readyState (v : ReadyState) (o : state) : state :=
  {| _awaitingResponse := _awaitingResponse o;
     _connectionTimer := _connectionTimer o;
     _handler := _handler o; _nodeId := _nodeId o; _opt := _opt o;
     _main_opt := _main_opt o; _retryCount := _retryCount o;
     _retryTimer := _retryTimer o; _sockets := _sockets o;
     _readyState := v; _responseBuffer := _responseBuffer o;
     _initialConnection := _initialConnection o;
     stats_acknowledged := stats_acknowledged o;
     stats_sent := stats_sent o; effects := effects o |}.

Definition set_responseBuffer (v : string) (o : state) : state :=
  {| _awaitingResponse := _awaitingResponse o;
     _connectionTimer := _connectionTimer o;
     _handler := _handler o; _nodeId := _nodeId o; _opt := _opt o;
     _main_opt := _main_opt o; _retryCount := _retryCount o;
     _retryTimer := _retryTimer o; _sockets := _sockets o;
     _readyState := _readyState o; _responseBuffer := v;
     _initialConnection := _initialConnection o;
     stats_acknowledged := stats_acknowledged o;
     stats_sent := stats_sent o; effects := effects o |}.

Definition set_acknowledged (v : Z) (o : state) : state :=
  {| _awaitingResponse := _awaitingResponse o;
     _connectionTimer := _connectionTimer o;
     _handler := _handler o; _nodeId := _nodeId o; _opt := _opt o;
     _main_opt := _main_opt o; _retryCount := _retryCount o;
     _retryTimer := _retryTimer o; _sockets := _sockets o;
     _readyState := _readyState o; _responseBuffer := _responseBuffer o;
     _initialConnection := _initialConnection o;
     stats_acknowledged := v;
     stats_sent := stats_sent o; effects := effects o |}.

(** One more effect, behind those recorded so far. *)
Definition effect (e : Effect) (o : state) : state :=
  {| _awaitingResponse := _awaitingResponse o;
     _connectionTimer := _connectionTimer o;
     _handler := _handler o; _nodeId := _nodeId o; _opt := _opt o;
     _main_opt := _main_opt o; _retryCount := _retryCount o;
     _retryTimer := _retryTimer o; _sockets := _sockets o;
     _readyState := _readyState o; _responseBuffer := _responseBuffer o;
     _initialConnection := _initialConnection o;
     stats_acknowledged := stats_acknowledged o;
     stats_sent := stats_sent o; effects := effects o ++ [e] |}.

(** The constructor; [nodeId] is the result of [randomString(5)]. *)
Definition construct (main : ClientOptions) (props : ClientListenerOptions)
    (handler : option (string -> bool)) (nodeId : string) : state :=
  {| _awaitingResponse := false;
     _initialConnection := false;
     _connectionTimer := None;
     _handler := handler;
     _main_opt := main;
     _nodeId := nodeId;
     _opt := props;
     _sockets := [];
     _retryCount := 0;
     _retryTimer := None;
     _readyState := CONNECTING;
     _responseBuffer := EmptyString;
     stats_acknowledged := 0;
     stats_sent := 0;
     effects := [] |}.

(** [_close()] *)
Definition _close (this : state) : state :=
  let this := set_readyState CLOSING this in
  let this :=
    fold_left
      (fun this (entry : string * Socket) =>
         let socket := snd entry in
         match destroyed socket with
         | Some _ => effect (SocketDestroy socket)
                       (effect (SocketEnd socket) this)
         | None => this
         end)
      (_sockets this) this in
  let this := set_sockets [] this in
  effect (Emit "client.close" None) this.

(** [_addSocket(nodeId, socket, b)] *)
Definition _addSocket (this : state) (nodeId : string) (socket : Socket)
    (b : bool) : state :=
  let s := Map_get (_sockets this) nodeId in
  if (negb b
      && match s with
         | Some s' => match destroyed s' with Some _ => true | None => false end
         | None => false
         end)%bool
  then this
  else set_sockets (Map_set (_sockets this) nodeId socket) this.

(** [_removeSocket(nodeId)] *)
Definition _removeSocket (this : state) (nodeId : string) : state :=
  let socket := Map_get (_sockets this) nodeId in
  let this :=
    match socket with
    | Some s =>
        match destroyed s with
        | Some _ => effect (SocketDestroy s) this
        | None => this
        end
    | None => this
    end in
  set_sockets (Map_delete (_sockets this) nodeId) this.

(** The comparator of [_manageConnections]: [a.lastUsed - b.lastUsed]. *)
Definition byLastUsed (a b : string * option Z) : option Z :=
  JS.minus (snd a) (snd b).

(** [_manageConnections()].  When some sockets of the pool have a
    [lastUsed] and others have none, the comparator is not consistent
    and the language leaves the order of the sorted list open: the order
    [JS.sort] gives is then one possible outcome only.  With all sockets
    stamped, or none, the comparator is consistent and the order is the
    one every stable sort gives. *)
Definition _manageConnections (this : state) : state :=
  let count := Map_size (_sockets this) - maxConnections (_opt this) in
  if count <=? 0 then this
  else
    let list_ :=
      map (fun entry : string * Socket =>
             (fst entry, lastUsed (snd entry))) (_sockets this) in
    let list_ := JS.sort byLastUsed list_ in
    let count := Z.min count (Z.of_nat (List.length list_) - 1) in
    let removable := Array_slice list_ 0 count in
    fold_left (fun this entry => _removeSocket this (fst entry))
      removable this.

(** [_listener(socket)] *)
Definition _listener (this : state) (socket : Socket) : state :=
  let this := _addSocket this (_nodeId this) socket true in
  let this :=
    if maxConnections (_opt this) <? Map_size (_sockets this)
    then _manageConnections this
    else this in
  set_readyState CONNECTED this.

(** [_reset()] *)
Definition _reset (this : state) : state :=
  let this :=
    match _connectionTimer this with
    | Some timer => effect (ClearTimeout timer) this
    | None => this
    end in
  set_connectionTimer None this.

(** ** The [data] listener *)

(** How an asynchronous listener ends: its promise resolves, or it
    rejects because the awaited handler did. *)
Inductive Settled : Type :=
| Resolved (this : state)
| Rejected (this : state).

Section Data.

(** The class [InboundResponse] is not among the sources: its constructor
    is a parameter, free to return a response or to throw.  A response
    is represented by a text, which is what the handler is called
    with. *)
Variable new_InboundResponse : string -> Completion string.

(** The [while (this._responseBuffer !== '')] loop.  An exception of the
    constructor leaves the loop, and the listener rejects, before
    anything is counted.  [None] is a loop the fuel did not suffice
    for. *)
Fixpoint data_loop (fuel : nat) (this : state) : option Settled :=
  if String.eqb (_responseBuffer this) EmptyString then Some (Resolved this)
  else
    match fuel with
    | O => None
    | S fuel' =>
        let buffer := _responseBuffer this in
        let indexOfVT := JS.indexOf buffer PROTOCOL_MLLP_HEADER in
        let indexOfFSCR := JS.indexOf buffer PROTOCOL_MLLP_FOOTER in
        let loadedMessage :=
          JS.substring buffer indexOfVT (indexOfFSCR + 2) in
        let this :=
          set_responseBuffer
            (JS.slice buffer (indexOfFSCR + 2) (JS.length buffer)) this in
        let loadedMessage :=
          JS.replace loadedMessage PROTOCOL_MLLP_HEADER EmptyString in
        if JS.includes loadedMessage PROTOCOL_MLLP_FOOTER then
          let loadedMessage :=
            JS.replace loadedMessage PROTOCOL_MLLP_FOOTER EmptyString in
          match _handler this with
          | Some handler =>
              match new_InboundResponse loadedMessage with
              | Throw _ => Some (Rejected this)
              | Return response =>
                  let this :=
                    set_acknowledged (stats_acknowledged this + 1) this in
                  let this :=
                    effect (Emit "client.acknowledged"
                              (Some (stats_acknowledged this))) this in
                  let this := effect (Handler response) this in
                  if handler response then data_loop fuel' this
                  else Some (Rejected this)
              end
          | None => data_loop fuel' this
          end
        else data_loop fuel' this
    end.

(** The listener of [data]: [buffer] is the text of the chunk.  The
    listener runs to its end before the next event is looked at. *)
Definition on_data (this : state) (buffer : string) : option Settled :=
  let this := set_awaitingResponse false this in
  let this := set_responseBuffer (_responseBuffer this ++ buffer) this in
  match data_loop (String.length (_responseBuffer this)) this with
  | Some (Resolved this) => Some (Resolved (_close this))
  | other => other
  end.

End Data.

(** The listener of [error]. *)
Definition on_error (this : state) : state :=
  let this := set_readyState CLOSING this in
  let this := effect (Emit "error" None) this in
  _close this.

(** The listener of [ready]. *)
Definition on_ready (this : state) : state :=
  effect (Emit "ready" None) (_reset this).

(** ** The [timeout] listener *)

(** [a < b] and [a >= b] for a number [a] and a value [b] that is a
    number or [undefined]: a comparison with [undefined] is false. *)
Definition lt_num (a : Z) (b : option Z) : bool :=
  match b with Some z => a <? z | None => false end.
Definition ge_num (a : Z) (b : option Z) : bool :=
  match b with Some z => z <=? a | None => false end.

(** [typeof x === 'undefined' ? y : z] *)
Definition ifUndefined {A B} (x : option A) (y z : B) : B :=
  match x with None => y | Some _ => z end.

Section Timeout.

(** [expBackoff] of [utils/utils.js] is not among the sources: it is a
    parameter, called with the low bound, the high bound and the retry
    count. *)
Variable expBackoff : option Z -> option Z -> Z -> Z.

Definition on_timeout (this : state) : state :=
  let maxConnectionAttempts :=
    ifUndefined (maxAttempts (_opt this))
      (main_maxAttempts (_main_opt this)) (maxAttempts (_opt this)) in
  let retryCount := _retryCount this in
  if (lt_num retryCount maxConnectionAttempts
      && (ReadyState_eqb (_readyState this) CONNECTING
          || ReadyState_eqb (_readyState this) OPEN)
      && _initialConnection this)%bool
  then
    let retryHigh :=
      ifUndefined (retryHigh (_opt this))
        (main_retryHigh (_main_opt this)) (retryLow (_opt this)) in
    let retryLow :=
      ifUndefined (retryLow (_opt this))
        (main_retryLow (_main_opt this)) (retryLow (_opt this)) in
    let this := set_retryCount (_retryCount this + 1) this in
    let this := _reset this in
    let delay := expBackoff retryLow retryHigh (_retryCount this) in
    let this := set_readyState OPEN this in
    let this := effect (Emit "timeout" None) this in
    set_retryTimer (Some delay) this
  else if (ge_num retryCount maxConnectionAttempts
           || (ReadyState_eqb (_readyState this) CONNECTING
               && negb (_initialConnection this))
           || negb (_initialConnection this))%bool
  then
    let this := set_readyState CLOSING this in
    let this := _close this in
    effect (Emit "error" None) this
  else this.

End Timeout.

(** ** [sendMessage] around its listeners, [_connect] and [readFile] *)

Definition set_sent (v : Z) (o : state) : state :=
  {| _awaitingResponse := _awaitingResponse o;
     _connectionTimer := _connectionTimer o;
     _handler := _handler o; _nodeId := _nodeId o; _opt := _opt o;
     _main_opt := _main_opt o; _retryCount := _retryCount o;
     _retryTimer := _retryTimer o; _sockets := _sockets o;
     _readyState := _readyState o; _responseBuffer := _responseBuffer o;
     _initialConnection := _initialConnection o;
     stats_acknowledged := stats_acknowledged o;
     stats_sent := v; effects := effects o |}.

(** The text [sendMessage] writes for a message: the template literal
    [`${PROTOCOL_MLLP_HEADER}${theMessage}${PROTOCOL_MLLP_FOOTER}`]. *)
Definition messageToSend (theMessage : string) : string :=
  PROTOCOL_MLLP_HEADER ++ theMessage ++ PROTOCOL_MLLP_FOOTER.

(** The callback handed to [socket.write]. *)
Definition on_write (this : state) : state :=
  let this := set_sent (stats_sent this + 1) this in
  effect (Emit "client.sent" (Some (stats_sent this))) this.

(** The handler [sendMessage] hands to [_connect].  [checkSend] awaits
    promises; whether it returned or threw is the argument [sendable].
    The result is the channel and the text written to the socket, if
    any. *)
Definition sendMessage_handler (this : state) (theMessage : string)
    (sendable : bool) : state * option string :=
  let this := set_readyState CONNECTED this in
  if sendable then
    let this :=
      if waitAck (_opt this) then set_awaitingResponse true this
      else this in
    (this, Some (messageToSend theMessage))
  else (this, None).

(** The callback [_connect] hands to [net.connect] / [tls.connect]:
    [_listener(socket)], then the handler. *)
Definition _connect (this : state) (socket : Socket) (theMessage : string)
    (sendable : bool) : state * option string :=
  sendMessage_handler (_listener this socket) theMessage sendable.

(** What [sendMessage] does before any event: it arms the connection
    timer when the option [connectionTimeout], an argument here, is
    positive, and puts the socket of [_connect] into the pool. *)
Definition sendMessage (this : state) (socket : Socket)
    (connectionTimeout : Z) : state :=
  let this :=
    if 0 <? connectionTimeout
    then set_connectionTimer (Some connectionTimeout) this
    else this in
  _addSocket this (_nodeId this) socket true.

(** The callback of the connection timer [sendMessage] arms.
    [this._socket], the socket of the last [_connect] or [undefined], is
    the argument [socket]. *)
Definition on_connectionTimer (this : state) (socket : option Socket)
  : state :=
  let this :=
    match socket with
    | Some s => effect (SocketDestroy s) (effect (SocketEnd s) this)
    | None => this
    end in
  _removeSocket this (_nodeId this).

(** [text.replace(/\n/mg, '\\r')]: every line feed becomes the two
    characters backslash and r. *)
Fixpoint replace_newlines (text : string) : string :=
  match text with
  | EmptyString => EmptyString
  | String c text' =>
      if Ascii.eqb c LF then "\r" ++ replace_newlines text'
      else String c (replace_newlines text')
  end.

Section ReadFile.

(** [fs.readFileSync(path).toString()] and the constructor of
    [FileBatch] are not among the sources: they are parameters, free to
    throw. *)
Variable FileBatch : Type.
Variable readFileSync : string -> Completion string.
Variable new_FileBatch : string -> Completion FileBatch.

(** [readFile(fullFilePath)] *)
Definition readFile (fullFilePath : string) : Completion FileBatch :=
  let attempt :=
    fileBuffer <- readFileSync fullFilePath ;;
    new_FileBatch (replace_newlines fileBuffer) in
  match attempt with
  | Return batch => Return batch
  | Throw _ =>
      Throw (HL7FatalError 500 ("Unable to read file: " ++ fullFilePath))
  end.

End ReadFile.

End HL7Outbound.

(* ================================================================== *)
(** * HL7_2_7: the MSH check of specification 2.7                       *)
(* ================================================================== *)

(** The declared properties of the interface [HL7_MSH_MESSAGE_TYPE]
    ([generic.ts]) and of [HL7_2_7_MSH] ([2.7.ts]). *)
Definition HL7_MSH_MESSAGE_TYPE : list string := ["msh_9_1"; "msh_9_2"].
Definition HL7_2_7_MSH : list string := ["msh_9"; "msh_10"].

(** The objects [checkMSH] reads: every property it tests with [typeof]
    is a string or [undefined]. *)
Record MessageType : Type := {
  msh_9_1 : option string;
  msh_9_2 : option string;
  msh_9_3 : option string
}.

Record MSH : Type := {
  msh_9 : MessageType;
  msh_10 : option string
}.

Module HL7_2_7.

Definition checkMSH (msh : MSH) : Completion MSH :=
  match msh_9_1 (msh_9 msh), msh_9_2 (msh_9 msh), msh_9_3 (msh_9 msh) with
  | Some m1, Some m2, Some m3 =>
      if negb (JS.length m1 =? 3)
      then Throw (Error "MSH.9.1 must be 3 characters in length.")
      else if negb (JS.length m2 =? 3)
      then Throw (Error "MSH.9.2 must be 3 characters in length.")
      else if negb (JS.length m3 =? 7)
      then Throw (Error "MSH.9.3 must be 7 characters in length.")
      else
        match msh_10 msh with
        | None => Throw (Error "MSH.9.10 must be defined.")
        | Some m10 =>
            if 199 <? JS.length m10
            then Throw (Error "MSH.9.10 must less than 199 characters.")
            else Return msh
        end
  | _, _, _ => Throw (Error "MSH.1 must be one character in length.")
  end.

End HL7_2_7.

(** The channel options of the protocol default, [\r|^~\&]. *)
Definition defaultOptions : ClientBuilderOptions :=
  {| newLine := String CR EmptyString;
     separatorField := "|";
     separatorComponent := "^";
     separatorRepetition := "~";
     separatorEscape := "\";
     separatorSubComponent := "&" |}.

(** A decoder of hexadecimal escapes that returns its argument: used only
    to run the codec on inputs without hexadecimal escapes. *)
Definition noHex (s : string) : Completion string := Return s.

(** The codec of the default delimiters, as the constructor builds it. *)
Definition defaultRootBase : RootBase.t :=
  {| RootBase._delimiters := RootBase._defaultDelimiters;
     RootBase._matchEscape :=
       {| RootBase.alternatives := ["\"; "|"; "~"; "^"; "&"]%char |};
     RootBase._matchUnescape := {| RootBase.bracket := "\"%char |} |}.

(** The single-letter codes of the escape sequences [escape] writes. *)
Definition escapeCodes : list string := ["E"; "F"; "R"; "S"; "T"].

(** A delimiter set whose escape character is the letter E, and the codec
    the constructor builds from it. *)
Definition optionsE : ClientBuilderOptions :=
  {| newLine := String CR EmptyString;
     separatorField := "|";
     separatorComponent := "^";
     separatorRepetition := "~";
     separatorEscape := "E";
     separatorSubComponent := "&" |}.

Definition rootBaseE : RootBase.t :=
  {| RootBase._delimiters := String CR "|^~E&";
     RootBase._matchEscape :=
       {| RootBase.alternatives := ["E"; "|"; "~"; "^"; "&"]%char |};
     RootBase._matchUnescape := {| RootBase.bracket := "E"%char |} |}.

(* ================================================================== *)
(** * Notions the statements use, and the values of the examples        *)
(* ================================================================== *)

(** What the constructor establishes: the five delimiters the codec reads
    are present, and the patterns are made of them. *)
Record constructed (rb : RootBase.t) (e f r c s : ascii) : Prop := {
  c_escape :
    RootBase.delimiter rb Delimiters.Escape = Some (String e EmptyString);
  c_field :
    RootBase.delimiter rb Delimiters.Field = Some (String f EmptyString);
  c_repetition :
    RootBase.delimiter rb Delimiters.Repetition = Some (String r EmptyString);
  c_component :
    RootBase.delimiter rb Delimiters.Component = Some (String c EmptyString);
  c_subcomponent :
    RootBase.delimiter rb Delimiters.SubComponent = Some (String s EmptyString);
  c_matchEscape :
    RootBase._matchEscape rb = {| RootBase.alternatives := [e; f; r; c; s] |};
  c_matchUnescape : RootBase._matchUnescape rb = {| RootBase.bracket := e |}
}.


(** The outcome of a call that can fail only where [dh] does. *)
Definition returns_or_decoder_throws {A}
    (dh : string -> Completion string) (c : Completion A) : Prop :=
  (exists r, c = Return r) \/ (exists h e, dh h = Throw e /\ c = Throw e).


(** A list in ascending order of a numeric key. *)
Definition ascending {A : Type} (key : A -> Z) : list A -> Prop :=
  StronglySorted (fun a b => key a <= key b).

(** The substrings of [data] cut at the offsets: each runs to the next
    offset, the last one to the end of [data]. *)
Fixpoint segments_at (data : string) (offsets : list Z) : list string :=
  match offsets with
  | [] => []
  | o :: rest =>
      JS.slice data o
        (match rest with [] => JS.length data | o' :: _ => o' end)
        :: segments_at data rest
  end.

(** [data] begins with a boundary name followed by [|]. *)
Definition starts_with_boundary (data : string) : bool :=
  existsb (fun name => String.prefix (name ++ "|") data)
    RootBase.boundaryNames.

(** No boundary name followed by [|] occurs in [data]. *)
Definition no_boundary (data : string) : bool :=
  forallb (fun name => negb (JS.includes data (name ++ "|")))
    RootBase.boundaryNames.

(** The decimal numerals of a list of offsets. *)
Definition numerals (offsets : list Z) : list string :=
  map JS.toString offsets.

(** An offset inside the data. *)
Definition in_data (data : string) (o : Z) : Prop :=
  0 <= o <= JS.length data.

(** The comparator of [split], on the numbers the numerals stand for. *)
Definition byDifference (a b : Z) : option Z := Some (a - b).

(** The index [_getSegIndexes] pushes for a match: [m.index] moved behind
    the line terminator the match begins with. *)
Definition name_offset (m_index : Z) (s : string) : Z :=
  if JS.includes s (String CR (String LF EmptyString)) then m_index + 2
  else if JS.includes s (String LF EmptyString) then m_index + 1
  else if JS.includes s (String CR EmptyString) then m_index + 1
  else m_index.

(** The entry [_manageConnections] lists for a pooled socket. *)
Definition pool_entry (e : string * Socket) : string * option Z :=
  (fst e, lastUsed (snd e)).

(** The last-used timestamp as a number ([0] stands for an absent one). *)
Definition stamp (s : Socket) : Z :=
  match lastUsed s with Some z => z | None => 0 end.

Definition entry_stamp (p : string * option Z) : Z :=
  match snd p with Some z => z | None => 0 end.

(** The entries of the pool as [_manageConnections] sorts them. *)
Definition sorted_entries (pool : HL7Outbound.Map Socket)
  : list (string * option Z) :=
  JS.sort HL7Outbound.byLastUsed (map pool_entry pool).

(** How many sockets [_manageConnections] removes: the excess over the
    limit, but at most all but one. *)
Definition excess (pool : HL7Outbound.Map Socket) (limit : Z) : Z :=
  Z.min (HL7Outbound.Map_size pool - limit) (HL7Outbound.Map_size pool - 1).

(** The first [excess] entries in ascending order of [lastUsed]. *)
Definition oldest (pool : HL7Outbound.Map Socket) (limit : Z)
  : list (string * option Z) :=
  firstn (Z.to_nat (excess pool limit)) (sorted_entries pool).

Definition is_oldest (pool : HL7Outbound.Map Socket) (limit : Z)
    (e : string * Socket) : bool :=
  existsb (String.eqb (fst e)) (map fst (oldest pool limit)).

(** Three sockets last used at 1, 2 and 3, and a channel that holds them
    under the keys A, B and C with [maxConnections = 2]. *)
Definition socketA : Socket :=
  {| lastUsed := Some 1; destroyed := Some false |}.
Definition socketB : Socket :=
  {| lastUsed := Some 2; destroyed := Some false |}.
Definition socketC : Socket :=
  {| lastUsed := Some 3; destroyed := Some false |}.

Definition mainOptions : ClientOptions :=
  {| main_maxAttempts := Some 10;
     main_retryHigh := Some 30000;
     main_retryLow := Some 1000 |}.

Definition listenerOptions : ClientListenerOptions :=
  {| maxAttempts := None;
     retryHigh := None;
     retryLow := None;
     maxConnections := 2;
     waitAck := true |}.

Definition poolABC : HL7Outbound.state :=
  let this := HL7Outbound.construct mainOptions listenerOptions None "node1" in
  let this := HL7Outbound._addSocket this "A" socketA true in
  let this := HL7Outbound._addSocket this "B" socketB true in
  HL7Outbound._addSocket this "C" socketC true.

(** A channel with a handler whose promise resolves, before any data. *)
Definition listening : HL7Outbound.state :=
  HL7Outbound.construct mainOptions listenerOptions (Some (fun _ => true))
    "node1".

(** The channel [listening] after a first chunk that holds the start
    marker and the beginning of a message, but no end marker. *)
Definition afterFirstChunk : HL7Outbound.state :=
  HL7Outbound.effect (Emit "client.close" None)
    (HL7Outbound.set_readyState CLOSING listening).

(** What a settled listener did. *)
Definition settled_effects (s : HL7Outbound.Settled) : list Effect :=
  match s with
  | HL7Outbound.Resolved this => HL7Outbound.effects this
  | HL7Outbound.Rejected this => HL7Outbound.effects this
  end.



(** The condition under which [checkMSH] reaches its [return]. *)
Definition valid_msh (msh : MSH) : bool :=
  match msh_9_1 (msh_9 msh), msh_9_2 (msh_9 msh), msh_9_3 (msh_9 msh),
        msh_10 msh with
  | Some m1, Some m2, Some m3, Some m10 =>
      (JS.length m1 =? 3) && (JS.length m2 =? 3) && (JS.length m3 =? 7)
      && (JS.length m10 <=? 199)
  | _, _, _, _ => false
  end.

(** The messages of the errors [checkMSH] throws. *)
Definition checkMSH_messages : list string :=
  ["MSH.1 must be one character in length.";
   "MSH.9.1 must be 3 characters in length.";
   "MSH.9.2 must be 3 characters in length.";
   "MSH.9.3 must be 7 characters in length.";
   "MSH.9.10 must be defined.";
   "MSH.9.10 must less than 199 characters."].

(** A header whose message type passes the checks of MSH.9, with a given
    message control ID. *)
Definition header (m10 : option string) : MSH :=
  {| msh_9 := {| msh_9_1 := Some "ADT";
                 msh_9_2 := Some "A01";
                 msh_9_3 := Some "ADT_A01" |};
     msh_10 := m10 |}.

(** A message control ID of 199 characters. *)
Definition controlId199 : string :=
  string_of_list_ascii (repeat "0"%char 199).

(** A backoff to run the [timeout] listener with: the low bound doubled
    with every retry, capped by the high bound.  It stands in for
    [expBackoff] in examples only. *)
Definition doublingBackoff (low high : option Z) (count : Z) : Z :=
  match low, high with
  | Some l, Some h => Z.min h (l * 2 ^ count)
  | _, _ => 0
  end.

(* ================================================================== *)
(** * Notions of the further properties                                 *)
(* ================================================================== *)

(** The four separators [escape] replaces besides the escape character. *)
Definition separators (rb : RootBase.t) : list (option string) :=
  [RootBase.delimiter rb Delimiters.Field;
   RootBase.delimiter rb Delimiters.Repetition;
   RootBase.delimiter rb Delimiters.Component;
   RootBase.delimiter rb Delimiters.SubComponent].

(** How many code units of [text] the pattern of [escape] matches. *)
Fixpoint delimiter_count (rb : RootBase.t) (text : string) : nat :=
  match text with
  | EmptyString => O
  | String c text' =>
      if existsb (Ascii.eqb c)
           (RootBase.alternatives (RootBase._matchEscape rb))
      then S (delimiter_count rb text')
      else delimiter_count rb text'
  end.

(** The codes of the escape sequences [unescape] drops. *)
Definition displayCodes : list ascii := ["C"; "H"; "M"; "N"; "Z"]%char.

(** The codes [unescape] gives a meaning to. *)
Definition knownCodes : list ascii :=
  ["E"; "F"; "R"; "S"; "T"; "X"; "C"; "H"; "M"; "N"; "Z"]%char.

(** The offsets of [s], counted from [pos], at which the rest of [s]
    passes [test]. *)
Fixpoint positions (test : string -> bool) (s : string) (pos : Z)
  : list Z :=
  match s with
  | EmptyString => []
  | String _ s' =>
      if test s then pos :: positions test s' (pos + 1)
      else positions test s' (pos + 1)
  end.

(** The offsets at which [name] followed by [|] stands. *)
Definition occurrences (name : string) : string -> Z -> list Z :=
  positions (String.prefix (name ++ "|")).

(** The offsets at which a boundary name followed by [|] stands. *)
Definition boundaries : string -> Z -> list Z :=
  positions starts_with_boundary.

(** A name of three letters or digits, the first of which does not come
    back in the name: a pattern takes such a name as it is, and two
    occurrences of it followed by [|] do not overlap. *)
Definition plain_name (name : string) : Prop :=
  exists a b c : ascii,
    name = String a (String b (String c EmptyString)) /\
    a <> b /\ a <> c /\
    Forall (fun x => RootBase.word_character x = true) [a; b; c].

(** A text with one boundary, at its start: what a segment is. *)
Definition single_boundary (segment : string) : Prop :=
  boundaries segment 0 = [0].

(** A constructor of responses to run the [data] listener with: it
    takes a text that begins with a message header as the response and
    throws for any other.  It stands in for [InboundResponse] in examples
    only. *)
Definition headedResponse (text : string) : Completion string :=
  if String.prefix "MSH|" text then Return text
  else Throw (Error "no message header").

(** An acknowledgement with a message header, for a control id. *)
Definition acknowledgement (id : string) : string :=
  "MSH|^~\&|ACK" ++ String CR ("MSA|AA|" ++ id).

(** What the [data] listener does for one response when a handler is
    set: it counts it, emits the count and calls the handler. *)
Definition acknowledge (this : HL7Outbound.state) (response : string)
  : HL7Outbound.state :=
  let this :=
    HL7Outbound.set_acknowledged (HL7Outbound.stats_acknowledged this + 1)
      this in
  let this :=
    HL7Outbound.effect
      (Emit "client.acknowledged"
         (Some (HL7Outbound.stats_acknowledged this))) this in
  HL7Outbound.effect (Handler response) this.

(** The frames of a list of messages, one behind the other. *)
Definition frames (messages : list string) : string :=
  String.concat EmptyString (map HL7Outbound.messageToSend messages).

(** What [_close] does to the sockets of the pool. *)
Definition close_effects (sockets : HL7Outbound.Map Socket) : list Effect :=
  flat_map
    (fun entry : string * Socket =>
       match destroyed (snd entry) with
       | Some _ => [SocketEnd (snd entry); SocketDestroy (snd entry)]
       | None => []
       end) sockets.

(** The arguments of the events named [event] among the effects, and the
    responses handed to the handler, in their order. *)
Definition emitted (event : string) (l : list Effect) : list (option Z) :=
  flat_map
    (fun e => match e with
              | Emit ev arg => if String.eqb ev event then [arg] else []
              | _ => []
              end) l.

Definition handled (l : list Effect) : list string :=
  flat_map (fun e => match e with Handler r => [r] | _ => [] end) l.

(** The numbers from 1 to [n], as arguments of an event. *)
Definition counted (n : Z) : list (option Z) :=
  map (fun i => Some (Z.of_nat i)) (seq 1 (Z.to_nat n)).

Section Reachable.

Variable new_InboundResponse : string -> Completion string.
Variable expBackoff : option Z -> option Z -> Z -> Z.

(** What can happen to a channel: a call of [sendMessage], of [_close],
    or one of the callbacks and listeners [sendMessage] and [_connect]
    install, each run to its end. *)
Inductive step : HL7Outbound.state -> HL7Outbound.state -> Prop :=
| step_sendMessage this socket connectionTimeout :
    step this (HL7Outbound.sendMessage this socket connectionTimeout)
| step_connect this socket theMessage sendable :
    step this (fst (HL7Outbound._connect this socket theMessage sendable))
| step_write this :
    step this (HL7Outbound.on_write this)
| step_connectionTimer this socket :
    step this (HL7Outbound.on_connectionTimer this socket)
| step_ready this :
    step this (HL7Outbound.on_ready this)
| step_data_resolved this buffer this' :
    HL7Outbound.on_data new_InboundResponse this buffer
    = Some (HL7Outbound.Resolved this') ->
    step this this'
| step_data_rejected this buffer this' :
    HL7Outbound.on_data new_InboundResponse this buffer
    = Some (HL7Outbound.Rejected this') ->
    step this this'
| step_error this :
    step this (HL7Outbound.on_error this)
| step_timeout this :
    step this (HL7Outbound.on_timeout expBackoff this)
| step_close this :
    step this (HL7Outbound._close this).

(** The states of a channel from its construction on. *)
Inductive reachable : HL7Outbound.state -> Prop :=
| reachable_construct main props handler nodeId :
    reachable (HL7Outbound.construct main props handler nodeId)
| reachable_step this this' :
    reachable this -> step this this' -> reachable this'.

End Reachable.

(** A pool that is empty or holds one socket, under the node id of the
    channel. *)
Definition own_socket_only (this : HL7Outbound.state) : Prop :=
  HL7Outbound._sockets this = [] \/
  exists socket,
    HL7Outbound._sockets this = [(HL7Outbound._nodeId this, socket)].

(** The counters agree with the events emitted and the handler calls
    made. *)
Definition counters_agree (this : HL7Outbound.state) : Prop :=
  0 <= HL7Outbound.stats_sent this /\
  0 <= HL7Outbound.stats_acknowledged this /\
  emitted "client.sent" (HL7Outbound.effects this)
  = counted (HL7Outbound.stats_sent this) /\
  emitted "client.acknowledged" (HL7Outbound.effects this)
  = counted (HL7Outbound.stats_acknowledged this) /\
  Z.of_nat (List.length (handled (HL7Outbound.effects this)))
  = HL7Outbound.stats_acknowledged this.

(** A channel whose handler resolves for the acknowledgement of message
    1 and rejects every other response. *)
Definition picky : HL7Outbound.state :=
  HL7Outbound.construct mainOptions listenerOptions
    (Some (String.eqb (acknowledgement "1"))) "node1".

(** A channel that has never taken the retry path of the [timeout]
    listener and cannot take it. *)
Definition never_retries (this : HL7Outbound.state) : Prop :=
  HL7Outbound._initialConnection this = false /\
  HL7Outbound._retryCount this = 0 /\
  HL7Outbound._retryTimer this = None.

(** An effect that is neither a handler call nor one of the two counted
    events. *)
Definition quiet (e : Effect) : bool :=
  match e with
  | Emit event _ =>
      negb (String.eqb event "client.sent")
      && negb (String.eqb event "client.acknowledged")
  | Handler _ => false
  | _ => true
  end.

(** What holds of a channel in every state it can reach. *)
Definition invariant (this : HL7Outbound.state) : Prop :=
  never_retries this /\ own_socket_only this /\ counters_agree this.

(** A channel after [sendMessage], the connect callback and the write
    callback for one message. *)
Definition connected : HL7Outbound.state :=
  fst (HL7Outbound._connect
         (HL7Outbound.sendMessage listening socketA 0) socketA
         "MSH|^~\&|X" true).

Definition sentOne : HL7Outbound.state := HL7Outbound.on_write connected.

(** How many line feeds a text holds. *)
Fixpoint count_LF (text : string) : nat :=
  match text with
  | EmptyString => O
  | String c text' =>
      if Ascii.eqb c LF then S (count_LF text') else count_LF text'
  end.

(** A file system with one file, and a [FileBatch] that is its text. *)
Definition oneFile (path : string) : Completion string :=
  if String.eqb path "/tmp/adt.hl7"
  then Return ("MSH|^~\&|X" ++ String LF "PID|1")
  else Throw (Error "ENOENT").

(** A pool of three sockets without a [lastUsed] property, under the keys
    A, B and C, with [maxConnections = 2]. *)
Definition plainSocket : Socket :=
  {| lastUsed := None; destroyed := Some false |}.

Definition poolPlain : HL7Outbound.state :=
  let this := HL7Outbound.construct mainOptions listenerOptions None "node1" in
  let this := HL7Outbound._addSocket this "A" plainSocket true in
  let this := HL7Outbound._addSocket this "B" plainSocket true in
  HL7Outbound._addSocket this "C" plainSocket true.

(* ================================================================== *)
(** * Facts about the string primitives                                 *)
(* ================================================================== *)

Lemma prefix_single (a b : ascii) (s : string) :
  String.prefix (String a EmptyString) (String b s) = Ascii.eqb a b.
Proof.
  simpl. destruct (ascii_dec a b) as [->|n].
  - rewrite Ascii.eqb_refl. now destruct s.
  - symmetry. now apply Ascii.eqb_neq.
Qed.

Lemma indexOf_cons (c : ascii) (s pat : string) :
  JS.indexOf (String c s) pat
  = if String.prefix pat (String c s) then 0
    else if JS.indexOf s pat <? 0 then -1 else JS.indexOf s pat + 1.
Proof. reflexivity. Qed.

Lemma indexOf_lower (s pat : string) : -1 <= JS.indexOf s pat.
Proof.
  induction s as [|c s IH].
  - destruct pat; simpl; lia.
  - rewrite indexOf_cons.
    destruct (String.prefix pat (String c s)); [lia|].
    destruct (JS.indexOf s pat <? 0) eqn:E; [lia|].
    apply Z.ltb_ge in E. lia.
Qed.

Lemma includes_cons_single (e c : ascii) (s : string) :
  JS.includes (String c s) (String e EmptyString)
  = (Ascii.eqb e c || JS.includes s (String e EmptyString))%bool.
Proof.
  unfold JS.includes. rewrite indexOf_cons, prefix_single.
  destruct (Ascii.eqb e c); [reflexivity|]. cbn [orb].
  pose proof (indexOf_lower s (String e EmptyString)) as L.
  destruct (JS.indexOf s (String e EmptyString) <? 0) eqn:E.
  - apply Z.ltb_lt in E.
    replace (JS.indexOf s (String e EmptyString)) with (-1) by lia.
    reflexivity.
  - apply Z.ltb_ge in E.
    destruct (0 <=? JS.indexOf s (String e EmptyString)) eqn:F;
      [apply Z.leb_le; lia | apply Z.leb_gt in F; lia].
Qed.

Lemma append_nil_r (a : string) : a ++ EmptyString = a.
Proof. induction a as [|x a IH]; simpl; [reflexivity | now rewrite IH]. Qed.

Lemma length_append (a b : string) :
  String.length (a ++ b) = (String.length a + String.length b)%nat.
Proof. induction a as [|x a IH]; simpl; [reflexivity | now rewrite IH]. Qed.

(* ================================================================== *)
(** * Facts about [sort]                                                *)
(* ================================================================== *)

Section SortFacts.
Context {A : Type} (cmp : A -> A -> option Z).

Lemma insert_perm (x : A) (l : list A) :
  Permutation (JS.insert cmp x l) (x :: l).
Proof.
  induction l as [|y l IH]; simpl; [reflexivity|].
  destruct (JS.positive (cmp y x)); [reflexivity|].
  rewrite IH. apply perm_swap.
Qed.

Lemma sort_from_perm (l acc : list A) :
  Permutation (fold_left (fun acc x => JS.insert cmp x acc) l acc)
              (acc ++ l).
Proof.
  revert acc. induction l as [|x l IH]; intros acc; simpl.
  - now rewrite app_nil_r.
  - rewrite IH, insert_perm. apply Permutation_middle.
Qed.

Lemma sort_perm (l : list A) : Permutation (JS.sort cmp l) l.
Proof. unfold JS.sort. now rewrite sort_from_perm. Qed.

Lemma sort_length (l : list A) :
  List.length (JS.sort cmp l) = List.length l.
Proof. apply Permutation_length, sort_perm. Qed.

(** The comparator is the difference of a numeric key on the elements
    that satisfy [P]. *)
Variable key : A -> Z.
Variable P : A -> Prop.
Hypothesis cmp_key :
  forall a b, P a -> P b -> cmp a b = Some (key a - key b).

Lemma insert_ascending (x : A) (l : list A) :
  P x -> Forall P l -> ascending key l -> ascending key (JS.insert cmp x l).
Proof.
  intros Px Pl Sl. induction Sl as [|y l Sl IH Hy]; simpl.
  - repeat constructor.
  - inversion Pl as [|? ? Py Pl']; subst.
    rewrite (cmp_key y x Py Px). cbn [JS.positive].
    destruct (0 <? key y - key x) eqn:E.
    + apply Z.ltb_lt in E. constructor; [now constructor|].
      constructor; [lia|].
      eapply Forall_impl; [|exact Hy]. cbn. intros; lia.
    + apply Z.ltb_ge in E. constructor; [now apply IH|].
      eapply Permutation_Forall; [symmetry; apply insert_perm|].
      constructor; [lia | exact Hy].
Qed.

Lemma sort_from_ascending (l acc : list A) :
  Forall P l -> Forall P acc -> ascending key acc ->
  ascending key (fold_left (fun acc x => JS.insert cmp x acc) l acc).
Proof.
  revert acc. induction l as [|x l IH]; intros acc Pl Pacc Sacc; simpl.
  - exact Sacc.
  - inversion Pl as [|? ? Px Pl']; subst. apply IH; [exact Pl'| |].
    + eapply Permutation_Forall; [symmetry; apply insert_perm|].
      now constructor.
    + now apply insert_ascending.
Qed.

Lemma sort_ascending (l : list A) :
  Forall P l -> ascending key (JS.sort cmp l).
Proof.
  intros Pl. apply sort_from_ascending; [exact Pl|constructor|constructor].
Qed.

End SortFacts.

Lemma sort_map {A B : Type} (f : A -> B)
    (cmpA : A -> A -> option Z) (cmpB : B -> B -> option Z) :
  (forall a b, cmpB (f a) (f b) = cmpA a b) ->
  forall l, JS.sort cmpB (map f l) = map f (JS.sort cmpA l).
Proof.
  intros H l. unfold JS.sort.
  change (@nil B) with (map f []). generalize (@nil A) as acc.
  induction l as [|x l IH]; intros acc; [reflexivity|]. simpl.
  replace (JS.insert cmpB (f x) (map f acc))
    with (map f (JS.insert cmpA x acc)); [apply IH|].
  clear IH. induction acc as [|y acc IHa]; [reflexivity|]. simpl.
  rewrite H. destruct (JS.positive (cmpA y x)); simpl; [reflexivity|].
  now rewrite IHa.
Qed.

Lemma take_length (n : nat) (s : string) :
  String.length (JS.take n s) = Nat.min n (String.length s).
Proof.
  revert s. induction n as [|n IH]; intros [|c s]; simpl; auto.
Qed.

Lemma drop_length (n : nat) (s : string) :
  String.length (JS.drop n s) = (String.length s - n)%nat.
Proof.
  revert s. induction n as [|n IH]; intros [|c s]; simpl; auto.
Qed.

Lemma take_all (n : nat) (s : string) :
  (String.length s <= n)%nat -> JS.take n s = s.
Proof.
  revert s. induction n as [|n IH]; intros [|c s] H; simpl in *;
    try reflexivity; [lia|].
  f_equal. apply IH. lia.
Qed.

Lemma drop_drop (n m : nat) (s : string) :
  JS.drop m (JS.drop n s) = JS.drop (n + m) s.
Proof.
  revert s. induction n as [|n IH]; intros s; simpl; [reflexivity|].
  destruct s as [|c s]; [now destruct m|apply IH].
Qed.

Lemma take_take_drop (n m : nat) (s : string) :
  JS.take n s ++ JS.take m (JS.drop n s) = JS.take (n + m) s.
Proof.
  revert s. induction n as [|n IH]; intros s; simpl; [reflexivity|].
  destruct s as [|c s]; simpl; [now destruct m|].
  now rewrite IH.
Qed.

Lemma range_range (s : string) (a b c : Z) :
  0 <= a <= b -> b <= c ->
  JS.range s a b ++ JS.range s b c = JS.range s a c.
Proof.
  intros Hab Hbc. unfold JS.range.
  replace (Z.to_nat b) with (Z.to_nat a + Z.to_nat (b - a))%nat by lia.
  rewrite <- drop_drop, take_take_drop. f_equal. lia.
Qed.

Lemma relative_nonneg (len i : Z) : 0 <= i -> JS.relative len i = Z.min i len.
Proof.
  intros H. unfold JS.relative.
  destruct (i <? 0) eqn:E; [apply Z.ltb_lt in E; lia|reflexivity].
Qed.

Lemma slice_slice (s : string) (a b c : Z) :
  0 <= a <= b -> b <= c ->
  JS.slice s a b ++ JS.slice s b c = JS.slice s a c.
Proof.
  intros Hab Hbc. unfold JS.slice.
  rewrite !relative_nonneg by lia.
  assert (0 <= JS.length s) by (unfold JS.length; lia).
  apply range_range; lia.
Qed.

Lemma slice_all (s : string) : JS.slice s 0 (JS.length s) = s.
Proof.
  unfold JS.slice, JS.range.
  rewrite !relative_nonneg by (unfold JS.length; lia).
  rewrite Z.min_id. unfold JS.length.
  replace (Z.min 0 (Z.of_nat (String.length s))) with 0 by lia.
  simpl. apply take_all. lia.
Qed.

Lemma slice_empty (s : string) (a : Z) : 0 <= a -> JS.slice s a a = EmptyString.
Proof.
  intros H. unfold JS.slice, JS.range. now rewrite Z.sub_diag.
Qed.

Lemma concat_cons (x : string) (l : list string) :
  String.concat EmptyString (x :: l) = x ++ String.concat EmptyString l.
Proof.
  destruct l as [|y l]; simpl; [now rewrite append_nil_r|reflexivity].
Qed.

(** Segments cut at ascending offsets are contiguous: together they are
    the input from the first offset to its end. *)
Lemma concat_segments_at (data : string) (offsets : list Z) :
  StronglySorted Z.le offsets ->
  Forall (fun o => 0 <= o <= JS.length data) offsets ->
  String.concat EmptyString (segments_at data offsets)
  = JS.slice data (hd (JS.length data) offsets) (JS.length data).
Proof.
  intros S. induction S as [|o rest S IH Ho]; intros B.
  - simpl. symmetry. apply slice_empty. unfold JS.length. lia.
  - inversion B as [|? ? Bo Brest]; subst.
    cbn [segments_at hd]. rewrite concat_cons, (IH Brest).
    destruct rest as [|o' rest]; cbn [hd].
    + rewrite slice_empty by lia. apply append_nil_r.
    + inversion Ho; subst. inversion Brest; subst.
      apply slice_slice; lia.
Qed.

(* ================================================================== *)
(** * The delimiter codec                                               *)
(* ================================================================== *)

Lemma new_spec (opt : ClientBuilderOptions) (rb : RootBase.t) :
  RootBase.new opt = Some rb -> exists e f r c s, constructed rb e f r c s.
Proof.
  unfold RootBase.new.
  set (d := newLine opt ++ _).
  assert (P : (if String.eqb d RootBase._defaultDelimiters
               then (RootBase._defaultMatchUnescape,
                     RootBase._defaultMatchEscape)
               else (RootBase._makeMatchUnescape d,
                     RootBase._makeMatchEscape d))
              = (RootBase._makeMatchUnescape d, RootBase._makeMatchEscape d)).
  { destruct (String.eqb_spec d RootBase._defaultDelimiters) as [->|];
      reflexivity. }
  rewrite P. clear P.
  unfold RootBase._makeMatchUnescape, RootBase._makeMatchEscape,
    RootBase.literal.
  destruct (String.get Delimiters.Escape d) as [e|] eqn:Ee; [|discriminate].
  destruct (String.get Delimiters.Field d) as [f|] eqn:Ef; [|discriminate].
  destruct (String.get Delimiters.Repetition d) as [r|] eqn:Er; [|discriminate].
  destruct (String.get Delimiters.Component d) as [c|] eqn:Ec; [|discriminate].
  destruct (String.get Delimiters.SubComponent d) as [s|] eqn:Es;
    [|discriminate].
  intros [= <-]. exists e, f, r, c, s.
  split; unfold RootBase.delimiter, JS.at_; cbn [RootBase._delimiters];
    rewrite ?Ee, ?Ef, ?Er, ?Ec, ?Es; reflexivity.
Qed.

Lemma eqb_single (a b : ascii) :
  String.eqb (String a EmptyString) (String b EmptyString) = Ascii.eqb a b.
Proof. simpl. now destruct (Ascii.eqb a b). Qed.

(** A text without the bracket holds no escape sequence: the scan returns
    it as it is, so the early exit of [unescape] agrees with the scan. *)
Lemma replace_matchUnescape_none (e : ascii) f (text : string) :
  JS.includes text (String e EmptyString) = false ->
  RootBase.replace_matchUnescape_from {| RootBase.bracket := e |} f None text
  = Return text.
Proof.
  induction text as [|c text IH]; intros H; [reflexivity|].
  rewrite includes_cons_single in H. apply orb_false_iff in H as [Hc Hi].
  cbn [RootBase.replace_matchUnescape_from RootBase.bracket].
  rewrite Ascii.eqb_sym, Hc, (IH Hi). reflexivity.
Qed.

Lemma unescape_scan dh (rb : RootBase.t) (e f r c s : ascii) (text : string) :
  constructed rb e f r c s ->
  RootBase.unescape dh rb (str text)
  = RootBase.replace_matchUnescape (RootBase._matchUnescape rb)
      (RootBase.unescape_callback dh rb) text.
Proof.
  intros C. unfold RootBase.unescape.
  rewrite (c_escape _ _ _ _ _ _ C). cbn [JS.ToString].
  destruct (JS.includes text (String e EmptyString)) eqn:I; [reflexivity|].
  cbn [negb]. rewrite (c_matchUnescape _ _ _ _ _ _ C).
  unfold RootBase.replace_matchUnescape.
  now rewrite replace_matchUnescape_none.
Qed.

(** The escape sequence written for one delimiter is read back as that
    delimiter, provided the escape character is not itself a code letter. *)
Lemma roundtrip_delimiter dh (rb : RootBase.t) (e f r c s x : ascii) :
  constructed rb e f r c s ->
  (forall L, In L escapeCodes ->
             RootBase.delimiter rb Delimiters.Escape <> Some L) ->
  existsb (Ascii.eqb x) [e; f; r; c; s] = true ->
  forall rest : string,
    exists seq,
      RootBase.escape_callback rb (String x EmptyString) = Return seq /\
      RootBase.replace_matchUnescape_from {| RootBase.bracket := e |}
        (RootBase.unescape_callback dh rb) None (seq ++ rest)
      = (t <- RootBase.replace_matchUnescape_from
                {| RootBase.bracket := e |}
                (RootBase.unescape_callback dh rb) None rest ;;
         Return (String x t)).
Proof.
  intros C Hne Hx rest.
  assert (NE : forall a, In (String a EmptyString) escapeCodes ->
                         Ascii.eqb a e = false).
  { intros a Ha. apply Ascii.eqb_neq. intros ->.
    apply (Hne _ Ha). apply (c_escape _ _ _ _ _ _ C). }
  unfold RootBase.escape_callback, RootBase.unescape_callback.
  rewrite (c_escape _ _ _ _ _ _ C), (c_field _ _ _ _ _ _ C),
    (c_repetition _ _ _ _ _ _ C), (c_component _ _ _ _ _ _ C),
    (c_subcomponent _ _ _ _ _ _ C).
  cbn [JS.strict_eq JS.ToString]. rewrite !eqb_single.
  cbn [existsb] in Hx. rewrite orb_false_r in Hx.
  destruct (Ascii.eqb_spec x e) as [->|_].
  { eexists; split; [reflexivity|].
    cbn [append RootBase.replace_matchUnescape_from RootBase.bracket].
    rewrite Ascii.eqb_refl, (NE "E"%char) by (simpl; tauto).
    cbn. reflexivity. }
  destruct (Ascii.eqb_spec x f) as [->|_].
  { eexists; split; [reflexivity|].
    cbn [append RootBase.replace_matchUnescape_from RootBase.bracket].
    rewrite Ascii.eqb_refl, (NE "F"%char) by (simpl; tauto).
    cbn. reflexivity. }
  destruct (Ascii.eqb_spec x r) as [->|_].
  { eexists; split; [reflexivity|].
    cbn [append RootBase.replace_matchUnescape_from RootBase.bracket].
    rewrite Ascii.eqb_refl, (NE "R"%char) by (simpl; tauto).
    cbn. reflexivity. }
  destruct (Ascii.eqb_spec x c) as [->|_].
  { eexists; split; [reflexivity|].
    cbn [append RootBase.replace_matchUnescape_from RootBase.bracket].
    rewrite Ascii.eqb_refl, (NE "S"%char) by (simpl; tauto).
    cbn. reflexivity. }
  destruct (Ascii.eqb_spec x s) as [->|_]; [|discriminate].
  eexists; split; [reflexivity|].
  cbn [append RootBase.replace_matchUnescape_from RootBase.bracket].
  rewrite Ascii.eqb_refl, (NE "T"%char) by (simpl; tauto).
  cbn. reflexivity.
Qed.

Lemma roundtrip_scan dh (rb : RootBase.t) (e f r c s : ascii) :
  constructed rb e f r c s ->
  (forall L, In L escapeCodes ->
             RootBase.delimiter rb Delimiters.Escape <> Some L) ->
  forall text, exists escaped,
    RootBase.replace_matchEscape (RootBase._matchEscape rb)
      (RootBase.escape_callback rb) text = Return escaped /\
    RootBase.replace_matchUnescape_from (RootBase._matchUnescape rb)
      (RootBase.unescape_callback dh rb) None escaped = Return text.
Proof.
  intros C Hne text.
  rewrite (c_matchEscape _ _ _ _ _ _ C), (c_matchUnescape _ _ _ _ _ _ C).
  induction text as [|x text (escaped & He & Hu)].
  - exists EmptyString. split; reflexivity.
  - cbn [RootBase.replace_matchEscape RootBase.alternatives].
    destruct (existsb (Ascii.eqb x) [e; f; r; c; s]) eqn:Hx.
    + destruct (roundtrip_delimiter dh rb e f r c s x C Hne Hx escaped)
        as (seq & Hseq & Hscan).
      exists (seq ++ escaped). rewrite Hseq, He. split; [reflexivity|].
      rewrite Hscan, Hu. reflexivity.
    + exists (String x escaped). rewrite He. split; [reflexivity|].
      cbn [RootBase.replace_matchUnescape_from RootBase.bracket].
      cbn [existsb] in Hx. apply orb_false_iff in Hx as [Hx _].
      rewrite Hx, Hu. reflexivity.
Qed.

Lemma escape_callback_returns (rb : RootBase.t) (m : string) :
  exists r, RootBase.escape_callback rb m = Return r.
Proof. unfold RootBase.escape_callback. eexists. reflexivity. Qed.

Lemma escape_returns (rb : RootBase.t) (text : string) :
  exists r, RootBase.escape rb (str text) = Return r.
Proof.
  unfold RootBase.escape.
  induction text as [|x text [r Hr]]; [now exists EmptyString|].
  cbn [RootBase.replace_matchEscape].
  destruct (existsb _ _).
  - destruct (escape_callback_returns rb (String x EmptyString)) as [q Hq].
    rewrite Hq, Hr. eexists. reflexivity.
  - rewrite Hr. eexists. reflexivity.
Qed.

Lemma unescape_callback_outcome dh (rb : RootBase.t) (m : string) :
  returns_or_decoder_throws dh (RootBase.unescape_callback dh rb m).
Proof.
  unfold RootBase.unescape_callback.
  repeat match goal with
         | |- returns_or_decoder_throws _ (if ?b then _ else _) => destruct b
         | |- returns_or_decoder_throws _ (Return _) =>
             left; eexists; reflexivity
         end.
  destruct (dh _) as [r|e] eqn:E.
  - left. now exists r.
  - right. eexists _, e. split; [exact E | reflexivity].
Qed.

Lemma replace_matchUnescape_outcome dh (rb : RootBase.t) re text :
  forall open,
    returns_or_decoder_throws dh
      (RootBase.replace_matchUnescape_from re
         (RootBase.unescape_callback dh rb) open text).
Proof.
  induction text as [|x text IH]; intros open.
  - left. eexists. reflexivity.
  - cbn [RootBase.replace_matchUnescape_from].
    destruct open as [body|]; destruct (Ascii.eqb x (RootBase.bracket re)).
    + destruct (unescape_callback_outcome dh rb
                  (String (RootBase.bracket re)
                     (body ++ String (RootBase.bracket re) EmptyString)))
        as [[q ->]|(h & e & Hh & ->)].
      * destruct (IH None) as [[q' ->]|(h & e & Hh & ->)].
        -- left. eexists. reflexivity.
        -- right. now exists h, e.
      * right. now exists h, e.
    + apply IH.
    + apply IH.
    + destruct (IH None) as [[q' ->]|(h & e & Hh & ->)].
      * left. eexists. reflexivity.
      * right. now exists h, e.
Qed.

(** C1 (as amended): for a codec the constructor built whose escape
    character is none of the code letters E, F, R, S, T (the default
    delimiters among them), [escape] returns and [unescape] of its result
    returns the original string. *)
Theorem C1_unescape_escape
    (decodeHexString : string -> Completion string)
    (opt : ClientBuilderOptions) (rb : RootBase.t) :
  RootBase.new opt = Some rb ->
  (forall L, In L escapeCodes ->
             RootBase.delimiter rb Delimiters.Escape <> Some L) ->
  forall s : string, exists escaped,
    RootBase.escape rb (str s) = Return escaped /\
    RootBase.unescape decodeHexString rb (str escaped) = Return s.
Proof.
  intros Hnew Hne s.
  destruct (new_spec opt rb Hnew) as (e & f & r & c & x & C).
  destruct (roundtrip_scan decodeHexString rb e f r c x C Hne s)
    as (escaped & He & Hu).
  exists escaped. split; [exact He|].
  rewrite (unescape_scan _ rb e f r c x escaped C). exact Hu.
Qed.

Lemma default_escape_not_code :
  forall L, In L escapeCodes ->
            RootBase.delimiter defaultRootBase Delimiters.Escape <> Some L.
Proof.
  intros L HL. cbv in HL.
  repeat (destruct HL as [<-|HL]; [discriminate|]). destruct HL.
Qed.

(** C1 at the default delimiters. *)
Lemma C1_unescape_escape_witness :
  RootBase.new defaultOptions = Some defaultRootBase /\
  exists escaped,
    RootBase.escape defaultRootBase (str "A|B^C~D\E&F") = Return escaped /\
    RootBase.unescape noHex defaultRootBase (str escaped)
    = Return "A|B^C~D\E&F".
Proof.
  split; [reflexivity|].
  apply (C1_unescape_escape noHex defaultOptions defaultRootBase).
  - reflexivity.
  - exact default_escape_not_code.
Defined.

(** C1 as stated fails: with the letter E as escape character the string
    "E" is escaped to "EEE", which is unescaped to "EE". *)
Lemma C1_counterexample :
  RootBase.new optionsE = Some rootBaseE /\
  RootBase.escape rootBaseE (str "E") = Return "EEE" /\
  RootBase.unescape noHex rootBaseE (str "EEE") = Return "EE" /\
  RootBase.unescape noHex rootBaseE (str "EEE") <> Return "E".
Proof. repeat split; try reflexivity. discriminate. Qed.

(** C2 (as amended): [escape] and [unescape] throw the fatal error, code
    500, when the input is [null]; for every string [escape] returns, and
    [unescape] returns or throws what [decodeHexString] threw. *)
Theorem C2_missing_input
    (decodeHexString : string -> Completion string) (rb : RootBase.t) :
  RootBase.escape rb null
  = Throw (HL7FatalError 500 "text must be passed in escape function.") /\
  RootBase.unescape decodeHexString rb null
  = Throw (HL7FatalError 500 "text must be passed in unescape function.") /\
  (forall s : string, exists r, RootBase.escape rb (str s) = Return r) /\
  (forall s : string,
      returns_or_decoder_throws decodeHexString
        (RootBase.unescape decodeHexString rb (str s))).
Proof.
  repeat split.
  - apply escape_returns.
  - intros s. unfold RootBase.unescape.
    destruct (negb _).
    + left. now exists s.
    + apply replace_matchUnescape_outcome.
Qed.

(** C2 as stated fails for [undefined]: the guard tests [text === null]
    only, and the call ends in the runtime's TypeError. *)
Lemma C2_counterexample :
  RootBase.escape defaultRootBase undefined
  = Throw (TypeError "Cannot read properties of undefined (reading 'replace')")
  /\ RootBase.unescape noHex defaultRootBase undefined
  = Throw (TypeError "Cannot read properties of undefined (reading 'includes')")
  /\ ~ (exists code message,
          RootBase.escape defaultRootBase undefined
          = Throw (HL7FatalError code message))
  /\ ~ (exists code message,
          RootBase.unescape noHex defaultRootBase undefined
          = Throw (HL7FatalError code message)).
Proof.
  repeat split; intros (code & message & H); discriminate H.
Qed.

(* ================================================================== *)
(** * The segment splitter                                              *)
(* ================================================================== *)

Lemma prefix_length (p s : string) :
  String.prefix p s = true -> (String.length p <= String.length s)%nat.
Proof.
  revert p. induction s as [|c s IH]; intros [|a p] H; simpl in *;
    try lia; try discriminate.
  destruct (ascii_dec a c); [|discriminate]. apply IH in H. lia.
Qed.

Lemma includes_cons (c : ascii) (s pat : string) :
  JS.includes (String c s) pat
  = (String.prefix pat (String c s) || JS.includes s pat)%bool.
Proof.
  unfold JS.includes. rewrite indexOf_cons.
  destruct (String.prefix pat (String c s)); [reflexivity|]. cbn [orb].
  pose proof (indexOf_lower s pat) as L.
  destruct (JS.indexOf s pat <? 0) eqn:E.
  - apply Z.ltb_lt in E. replace (JS.indexOf s pat) with (-1) by lia.
    reflexivity.
  - apply Z.ltb_ge in E.
    destruct (0 <=? JS.indexOf s pat) eqn:F;
      [apply Z.leb_le; lia | apply Z.leb_gt in F; lia].
Qed.

Lemma includes_nil (pat : string) :
  JS.includes EmptyString pat = String.prefix pat EmptyString.
Proof. unfold JS.includes. destruct pat; reflexivity. Qed.

Lemma includes_prefix (s pat : string) :
  String.prefix pat s = true -> JS.includes s pat = true.
Proof.
  intros H. destruct s.
  - now rewrite includes_nil.
  - now rewrite includes_cons, H.
Qed.

Lemma includes_length (s pat : string) :
  JS.includes s pat = true -> (String.length pat <= String.length s)%nat.
Proof.
  induction s as [|c s IH]; intros H.
  - rewrite includes_nil in H. now apply prefix_length in H.
  - rewrite includes_cons in H. apply orb_true_iff in H as [H|H].
    + now apply prefix_length.
    + apply IH in H. simpl. lia.
Qed.

Lemma match_here_spec (name s m : string) :
  RootBase.match_here name s = Some m ->
  String.prefix m s = true /\ (1 <= String.length m)%nat.
Proof.
  unfold RootBase.match_here.
  assert (L : (1 <= String.length (name ++ "|"))%nat)
    by (rewrite length_append; simpl; lia).
  destruct (String.prefix (String LF (name ++ "|")) s) eqn:P1;
    [intros [= <-]; split; [exact P1 | simpl; lia]|].
  destruct (String.prefix (String CR (name ++ "|")) s) eqn:P2;
    [intros [= <-]; split; [exact P2 | simpl; lia]|].
  destruct (String.prefix (name ++ "|") s) eqn:P3;
    [intros [= <-]; split; [exact P3 | exact L]|discriminate].
Qed.

Lemma search_bounds (name s : string) :
  forall pos p m,
    RootBase.search name s pos = Some (p, m) ->
    pos <= p /\ p + JS.length m <= pos + JS.length s /\ 1 <= JS.length m.
Proof.
  induction s as [|c s IH]; intros pos p m; cbn [RootBase.search].
  - destruct (RootBase.match_here name EmptyString) as [m'|] eqn:M;
      [|discriminate].
    intros [= <- <-]. apply match_here_spec in M as [P L].
    apply prefix_length in P. unfold JS.length. simpl in *. lia.
  - destruct (RootBase.match_here name (String c s)) as [m'|] eqn:M.
    + intros [= <- <-]. apply match_here_spec in M as [P L].
      apply prefix_length in P. unfold JS.length. lia.
    + intros H. apply IH in H. unfold JS.length in *. simpl String.length.
      lia.
Qed.

Lemma exec_bounds (name data : string) (lastIndex p : Z) (m : string) :
  0 <= lastIndex ->
  RootBase.exec name data lastIndex = Some (p, m) ->
  lastIndex <= p /\ p + JS.length m <= JS.length data /\ 1 <= JS.length m.
Proof.
  intros H0. unfold RootBase.exec.
  destruct (JS.length data <? lastIndex) eqn:G; [discriminate|].
  apply Z.ltb_ge in G. intros H. apply search_bounds in H.
  unfold JS.length in *. rewrite drop_length in H. lia.
Qed.

(** One round of the loop: the offset pushed is [name_offset]. *)
Lemma exec_loop_S (fuel : nat) (name data : string) (lastIndex : Z)
    (list_ : list string) :
  RootBase.exec_loop (S fuel) name data lastIndex list_
  = match RootBase.exec name data lastIndex with
    | None => Some list_
    | Some (m_index, s) =>
        RootBase.exec_loop fuel name data (m_index + JS.length s)
          (list_ ++ [JS.toString (name_offset m_index s)])%list
    end.
Proof. reflexivity. Qed.

Lemma name_offset_bounds (m_index : Z) (s : string) :
  1 <= JS.length s ->
  m_index <= name_offset m_index s <= m_index + JS.length s.
Proof.
  intros L. unfold name_offset.
  destruct (JS.includes s (String CR (String LF EmptyString))) eqn:I1.
  { apply includes_length in I1. unfold JS.length in *. simpl in I1. lia. }
  destruct (JS.includes s (String LF EmptyString)); [lia|].
  destruct (JS.includes s (String CR EmptyString)); lia.
Qed.

(** The loop over the matches of one name ends within its fuel, and
    extends the list by the numerals of offsets inside the data. *)
Lemma exec_loop_total (name data : string) :
  forall (fuel : nat) (lastIndex : Z) (list_ : list string),
    0 <= lastIndex ->
    JS.length data - lastIndex <= Z.of_nat fuel ->
    exists offsets,
      RootBase.exec_loop (S fuel) name data lastIndex list_
      = Some (list_ ++ numerals offsets)%list /\
      Forall (in_data data) offsets.
Proof.
  induction fuel as [|fuel IH]; intros lastIndex list_ H0 Hf;
    rewrite exec_loop_S;
    destruct (RootBase.exec name data lastIndex) as [[p m]|] eqn:E;
    try (exists []; split; [now rewrite app_nil_r | constructor]).
  - apply exec_bounds in E; [|exact H0]. simpl in Hf. lia.
  - pose proof (exec_bounds _ _ _ _ _ H0 E) as (B1 & B2 & B3).
    pose proof (name_offset_bounds p m B3) as Bi.
    destruct (IH (p + JS.length m)
                (list_ ++ [JS.toString (name_offset p m)])%list)
      as (offsets & Hl & Ho); [lia|lia|].
    exists (name_offset p m :: offsets). split.
    + rewrite Hl, <- app_assoc. reflexivity.
    + constructor; [unfold in_data; lia | exact Ho].
Qed.

Lemma boundaryNames_literal :
  Forall (fun name => RootBase.literal_name name = true)
    RootBase.boundaryNames.
Proof. repeat constructor. Qed.

Lemma getSegIndexes_total (data : string) (names : list string) :
  Forall (fun name => RootBase.literal_name name = true) names ->
  forall list_ : list string,
    exists offsets,
      RootBase._getSegIndexes names data list_
      = Some (list_ ++ numerals offsets)%list /\
      Forall (in_data data) offsets.
Proof.
  induction 1 as [|name names Ln _ IH]; intros list_;
    cbn [RootBase._getSegIndexes].
  - exists []. split; [now rewrite app_nil_r | constructor].
  - rewrite Ln.
    destruct (exec_loop_total name data (String.length data) 0 list_)
      as (o1 & H1 & B1); [lia | unfold JS.length; lia |].
    rewrite H1.
    destruct (IH (list_ ++ numerals o1)%list) as (o2 & H2 & B2).
    exists (o1 ++ o2)%list. split.
    + rewrite H2. unfold numerals. rewrite map_app, app_assoc. reflexivity.
    + apply Forall_app. now split.
Qed.

Lemma parseInt_toString (z : Z) : JS.parseInt (JS.toString z) = Some z.
Proof.
  unfold JS.parseInt, JS.toString.
  rewrite NilZero.isi, DecimalZ.of_to; [reflexivity | |];
    destruct z; simpl; try discriminate;
    intros [= H]; now apply DecimalPos.Unsigned.to_uint_nonnil in H.
Qed.

Lemma byParseInt_numerals (a b : Z) :
  RootBase.byParseInt (JS.toString a) (JS.toString b) = byDifference a b.
Proof.
  unfold RootBase.byParseInt. now rewrite !parseInt_toString.
Qed.

Lemma parseInt_at_numerals (offsets : list Z) (i : nat) :
  RootBase.parseInt_at (numerals offsets) i = nth_error offsets i.
Proof.
  unfold RootBase.parseInt_at, numerals. rewrite nth_error_map.
  destruct (nth_error offsets i); simpl; [apply parseInt_toString|reflexivity].
Qed.

Lemma skipn_nth_error {A} (l : list A) (i : nat) (x : A) :
  nth_error l i = Some x -> skipn i l = x :: skipn (S i) l.
Proof.
  revert l. induction i as [|i IH]; intros [|y l] H; try discriminate.
  - now injection H as ->.
  - simpl in H. apply IH in H. exact H.
Qed.

(** The [for] loop of [split] pushes the segments cut at the offsets that
    are left. *)
Lemma split_for_segments (data : string) (offsets : list Z) :
  forall (todo i : nat) (segments : list string),
    (i + todo)%nat = List.length offsets ->
    RootBase.split_for data (numerals offsets) i todo segments
    = (segments ++ segments_at data (skipn i offsets))%list.
Proof.
  induction todo as [|todo IH]; intros i segments Hl.
  - rewrite skipn_all2 by lia. simpl. now rewrite app_nil_r.
  - cbn [RootBase.split_for]. rewrite IH by lia.
    rewrite !parseInt_at_numerals. unfold numerals at 1. rewrite length_map.
    destruct (nth_error offsets i) as [o|] eqn:Ei;
      [|apply nth_error_None in Ei; lia].
    rewrite (skipn_nth_error _ _ _ Ei). cbn [segments_at].
    rewrite <- app_assoc. f_equal. cbn [app]. f_equal.
    unfold RootBase.slice_num. f_equal.
    destruct (Nat.eqb_spec (i + 1) (List.length offsets)) as [El|Nl].
    + rewrite skipn_all2 by lia. reflexivity.
    + destruct (nth_error offsets (i + 1)) as [o'|] eqn:Ei';
        [|apply nth_error_None in Ei'; lia].
      replace (S i) with (i + 1)%nat by lia.
      now rewrite (skipn_nth_error _ _ _ Ei').
Qed.

Lemma byDifference_key (a b : Z) :
  True -> True -> byDifference a b = Some (a - b).
Proof. reflexivity. Qed.

(** [split] always returns: it appends the segments cut at the sorted
    offsets of the boundaries, all of which lie inside the data. *)
Lemma split_segments (data : string) (segments : list string) :
  exists found,
    RootBase._getSegIndexes RootBase.boundaryNames data []
    = Some (numerals found) /\
    Forall (in_data data) found /\
    RootBase.split data segments
    = Some (segments ++ segments_at data (JS.sort byDifference found))%list.
Proof.
  destruct (getSegIndexes_total data RootBase.boundaryNames
              boundaryNames_literal [])
    as (found & Hf & Bf).
  cbn [app] in Hf. exists found. split; [exact Hf|]. split; [exact Bf|].
  unfold RootBase.split. rewrite Hf.
  unfold numerals.
  rewrite (sort_map JS.toString byDifference RootBase.byParseInt)
    by (intros; apply byParseInt_numerals).
  fold (numerals (JS.sort byDifference found)).
  rewrite split_for_segments; [reflexivity|].
  unfold numerals. now rewrite length_map.
Qed.

Lemma sort_offsets (data : string) (found : list Z) :
  Forall (in_data data) found ->
  StronglySorted Z.le (JS.sort byDifference found) /\
  Forall (in_data data) (JS.sort byDifference found).
Proof.
  intros B. split.
  - apply (sort_ascending byDifference (fun z => z) (fun _ => True)
             byDifference_key).
    apply Forall_forall. auto.
  - eapply Permutation_Forall; [symmetry; apply sort_perm | exact B].
Qed.

Lemma toString_inj (a b : Z) : JS.toString a = JS.toString b -> a = b.
Proof.
  intros H. apply (f_equal JS.parseInt) in H.
  rewrite !parseInt_toString in H. now injection H.
Qed.

Lemma numerals_inj (l1 l2 : list Z) : numerals l1 = numerals l2 -> l1 = l2.
Proof.
  revert l2. induction l1 as [|a l1 IH]; intros [|b l2] H;
    try discriminate; [reflexivity|].
  injection H as Ha Hl. f_equal; [now apply toString_inj | now apply IH].
Qed.

Lemma prefix_cons (a c : ascii) (p s : string) :
  String.prefix (String a p) (String c s)
  = (Ascii.eqb a c && String.prefix p s)%bool.
Proof.
  simpl. destruct (ascii_dec a c) as [->|n].
  - now rewrite Ascii.eqb_refl.
  - apply Ascii.eqb_neq in n. now rewrite n.
Qed.

Lemma sorted_head_zero (data : string) (offsets : list Z) :
  StronglySorted Z.le offsets ->
  Forall (in_data data) offsets ->
  In 0 offsets ->
  hd (JS.length data) offsets = 0.
Proof.
  intros S B I. destruct S as [|o rest S Ho]; [destruct I|].
  inversion B as [|? ? Bo _]; subst. cbn [hd]. unfold in_data in Bo.
  destruct I as [->|I]; [reflexivity|].
  rewrite Forall_forall in Ho. specialize (Ho 0 I). lia.
Qed.

(** C3 as stated fails: text in front of the first boundary is in no
    segment. *)
Lemma C3_counterexample :
  RootBase.split "XMSH|A" [] = Some ["MSH|A"] /\
  String.concat EmptyString ["MSH|A"] <> "XMSH|A".
Proof. split; [vm_compute; reflexivity | discriminate]. Qed.

Lemma search_none (name s : string) :
  JS.includes s (name ++ "|") = false ->
  forall pos, RootBase.search name s pos = None.
Proof.
  induction s as [|c s IH]; intros H pos; cbn [RootBase.search].
  - rewrite includes_nil in H. unfold RootBase.match_here.
    rewrite H. reflexivity.
  - rewrite includes_cons in H. apply orb_false_iff in H as [P I].
    assert (Q : String.prefix (name ++ "|") s = false).
    { destruct (String.prefix (name ++ "|") s) eqn:Q; [|reflexivity].
      apply includes_prefix in Q. congruence. }
    unfold RootBase.match_here. rewrite P, !prefix_cons, Q, !andb_false_r.
    now apply IH.
Qed.

Lemma getSegIndexes_none (data : string) (names list_ : list string) :
  Forall (fun name => RootBase.literal_name name = true) names ->
  forallb (fun name => negb (JS.includes data (name ++ "|"))) names = true ->
  RootBase._getSegIndexes names data list_ = Some list_.
Proof.
  induction 1 as [|name names Ln _ IH]; intros H; [reflexivity|].
  cbn [forallb] in H. apply andb_true_iff in H as [N H].
  apply negb_true_iff in N.
  cbn [RootBase._getSegIndexes]. rewrite Ln, exec_loop_S.
  unfold RootBase.exec.
  replace (JS.length data <? 0) with false
    by (symmetry; apply Z.ltb_ge; unfold JS.length; lia).
  rewrite (search_none name _ N). now apply IH.
Qed.

(** C9: when no boundary name followed by [|] occurs in the input,
    [split] returns its accumulator as it is, the empty list by default:
    the input is in no segment. *)
Theorem C9_split_no_boundary (data : string) (segments : list string) :
  no_boundary data = true ->
  RootBase.split data segments = Some segments /\
  RootBase.split data [] = Some [].
Proof.
  intros H. unfold RootBase.split.
  rewrite (getSegIndexes_none data RootBase.boundaryNames []
             boundaryNames_literal H).
  split; reflexivity.
Qed.

(** C9 at a PID segment, with and without segments accumulated
    before. *)
Lemma C9_split_no_boundary_witness :
  no_boundary "PID|1||12345" = true /\
  RootBase.split "PID|1||12345" ["kept"] = Some ["kept"] /\
  RootBase.split "PID|1||12345" [] = Some [].
Proof.
  split; [reflexivity|].
  apply (C9_split_no_boundary "PID|1||12345" ["kept"]). reflexivity.
Defined.

(* ================================================================== *)
(** * The socket pool                                                   *)
(* ================================================================== *)

Lemma sockets_removeSocket (this : HL7Outbound.state) (nodeId : string) :
  HL7Outbound._sockets (HL7Outbound._removeSocket this nodeId)
  = HL7Outbound.Map_delete (HL7Outbound._sockets this) nodeId.
Proof.
  unfold HL7Outbound._removeSocket.
  destruct (HL7Outbound.Map_get _ _) as [s|]; [destruct (destroyed s)|];
    reflexivity.
Qed.

Lemma sockets_remove_all {B} (removable : list (string * B)) :
  forall this : HL7Outbound.state,
    HL7Outbound._sockets
      (fold_left (fun this entry => HL7Outbound._removeSocket this (fst entry))
         removable this)
    = filter (fun e => negb (existsb (String.eqb (fst e))
                               (map fst removable)))
        (HL7Outbound._sockets this).
Proof.
  induction removable as [|r removable IH]; intros this; simpl.
  - symmetry. apply forallb_filter_id. apply forallb_forall. reflexivity.
  - rewrite IH, sockets_removeSocket. unfold HL7Outbound.Map_delete.
    induction (HL7Outbound._sockets this) as [|e m IHm]; [reflexivity|].
    simpl. destruct (String.eqb (fst e) (fst r)); simpl; [exact IHm|].
    destruct (existsb _ _); simpl; [exact IHm | now rewrite IHm].
Qed.

Lemma Array_slice_first {A} (l : list A) (count : Z) :
  0 <= count <= Z.of_nat (List.length l) ->
  HL7Outbound.Array_slice l 0 count = firstn (Z.to_nat count) l.
Proof.
  intros H. unfold HL7Outbound.Array_slice.
  rewrite !relative_nonneg by lia.
  replace (Z.min 0 (Z.of_nat (List.length l))) with 0 by lia.
  replace (Z.min count (Z.of_nat (List.length l))) with count by lia.
  now rewrite Z.sub_0_r.
Qed.

Lemma sorted_app_le {A} (R : A -> A -> Prop) (l1 l2 : list A) :
  StronglySorted R (l1 ++ l2) ->
  forall a b, In a l1 -> In b l2 -> R a b.
Proof.
  induction l1 as [|x l1 IH]; intros S a b Ia Ib; [destruct Ia|].
  simpl in S. inversion S as [|? ? S' Hx]; subst.
  destruct Ia as [->|Ia].
  - rewrite Forall_forall in Hx. apply Hx, in_or_app. now right.
  - now apply (IH S').
Qed.

Lemma keys_unique {V} (m : list (string * V)) (a b : string * V) :
  NoDup (map fst m) -> In a m -> In b m -> fst a = fst b -> a = b.
Proof.
  induction m as [|e m IH]; intros N Ia Ib E; [destruct Ia|].
  simpl in N. inversion N as [|? ? Hn N']; subst.
  destruct Ia as [->|Ia], Ib as [->|Ib]; try reflexivity.
  - exfalso. apply Hn. rewrite E. now apply in_map.
  - exfalso. apply Hn. rewrite <- E. now apply in_map.
  - now apply IH.
Qed.

Lemma existsb_eqb_In (k : string) (keys : list string) :
  existsb (String.eqb k) keys = true <-> In k keys.
Proof.
  rewrite existsb_exists. split.
  - intros (x & I & E). apply String.eqb_eq in E. now subst.
  - intros I. exists k. split; [exact I | apply String.eqb_refl].
Qed.

Section Eviction.

Variable pool : HL7Outbound.Map Socket.
Variable limit : Z.

Hypothesis keys_distinct : NoDup (map fst pool).
Hypothesis stamped : Forall (fun e => lastUsed (snd e) <> None) pool.
Hypothesis exceeded : limit < HL7Outbound.Map_size pool.
Hypothesis nonempty : 1 <= HL7Outbound.Map_size pool.

Lemma excess_bounds :
  0 <= excess pool limit <= Z.of_nat (List.length (sorted_entries pool)).
Proof.
  unfold excess, sorted_entries. rewrite sort_length, length_map.
  unfold HL7Outbound.Map_size in *. lia.
Qed.

Lemma sorted_entries_perm :
  Permutation (sorted_entries pool) (map pool_entry pool).
Proof. apply sort_perm. Qed.

Lemma sorted_entries_ascending :
  StronglySorted (fun a b => entry_stamp a <= entry_stamp b)
    (sorted_entries pool).
Proof.
  apply (sort_ascending HL7Outbound.byLastUsed entry_stamp
           (fun p => snd p <> None)).
  - intros [ka [a|]] [kb [b|]] Pa Pb; try (now elim Pa); try (now elim Pb).
    reflexivity.
  - apply Forall_forall. intros p Ip. apply in_map_iff in Ip as (e & <- & Ie).
    rewrite Forall_forall in stamped. now apply stamped.
Qed.

Lemma oldest_sorted (p : string * option Z) :
  In p (oldest pool limit) -> In p (sorted_entries pool).
Proof.
  intros I. unfold oldest in I.
  rewrite <- (firstn_skipn (Z.to_nat (excess pool limit))
                (sorted_entries pool)).
  apply in_or_app. now left.
Qed.

Lemma oldest_entry (e : string * Socket) :
  In e pool -> In (fst e) (map fst (oldest pool limit)) ->
  In (pool_entry e) (oldest pool limit).
Proof.
  intros Ie Ik. apply in_map_iff in Ik as (p & Ep & Ip).
  pose proof (oldest_sorted p Ip) as Is.
  apply (Permutation_in _ sorted_entries_perm) in Is.
  apply in_map_iff in Is as (e' & <- & Ie').
  rewrite (keys_unique pool e e' keys_distinct Ie Ie' (eq_sym Ep)).
  exact Ip.
Qed.

Lemma newer_entry (e : string * Socket) :
  In e pool -> ~ In (fst e) (map fst (oldest pool limit)) ->
  In (pool_entry e)
     (skipn (Z.to_nat (excess pool limit)) (sorted_entries pool)).
Proof.
  intros Ie Nk.
  assert (Is : In (pool_entry e) (sorted_entries pool))
    by (apply (Permutation_in _ (Permutation_sym sorted_entries_perm));
        now apply in_map).
  rewrite <- (firstn_skipn (Z.to_nat (excess pool limit))
                (sorted_entries pool)) in Is.
  apply in_app_or in Is as [Io|Is]; [|exact Is].
  elim Nk. apply (in_map fst) in Io. exact Io.
Qed.

Lemma oldest_keys_distinct : NoDup (map fst (oldest pool limit)).
Proof.
  assert (N : NoDup (map fst (sorted_entries pool))).
  { apply (Permutation_NoDup
             (Permutation_map fst (Permutation_sym sorted_entries_perm))).
    rewrite map_map. exact keys_distinct. }
  rewrite <- (firstn_skipn (Z.to_nat (excess pool limit))
                (sorted_entries pool)), map_app in N.
  now apply NoDup_app_remove_r in N.
Qed.

Lemma evicted_keys :
  Permutation (map fst (filter (is_oldest pool limit) pool))
              (map fst (oldest pool limit)).
Proof.
  apply NoDup_Permutation.
  - clear -keys_distinct. generalize (is_oldest pool limit) as f. intros f.
    induction pool as [|e m IH]; [constructor|].
    simpl in keys_distinct. inversion keys_distinct as [|? ? Hn N]; subst.
    simpl. destruct (f e); [|now apply IH].
    simpl. constructor; [|now apply IH].
    intros I. apply Hn. apply in_map_iff in I as (x & Ex & Ix).
    apply filter_In in Ix as [Ix _]. rewrite <- Ex. now apply in_map.
  - exact oldest_keys_distinct.
  - intros k. split.
    + intros I. apply in_map_iff in I as (e & <- & Ie).
      apply filter_In in Ie as [_ Ie]. now apply existsb_eqb_In.
    + intros I. apply in_map_iff in I as (p & Ep & Ip).
      pose proof (oldest_sorted p Ip) as Is.
      apply (Permutation_in _ sorted_entries_perm) in Is.
      apply in_map_iff in Is as (e & <- & Ie).
      apply in_map_iff. exists e. split; [exact Ep|].
      apply filter_In. split; [exact Ie|].
      apply existsb_eqb_In. apply in_map_iff.
      exists (pool_entry e). now split.
Qed.

Lemma evicted_length :
  Z.of_nat (List.length (filter (is_oldest pool limit) pool))
  = excess pool limit.
Proof.
  rewrite <- (length_map fst), (Permutation_length evicted_keys), length_map.
  unfold oldest. rewrite length_firstn.
  pose proof excess_bounds. lia.
Qed.

Lemma evicted_oldest (e k : string * Socket) :
  In e (filter (is_oldest pool limit) pool) ->
  In k (filter (fun e => negb (is_oldest pool limit e)) pool) ->
  stamp (snd e) <= stamp (snd k).
Proof.
  intros Ie Ik.
  apply filter_In in Ie as [Ie Fe], Ik as [Ik Fk].
  apply existsb_eqb_In in Fe. apply negb_true_iff in Fk.
  assert (Nk : ~ In (fst k) (map fst (oldest pool limit))).
  { intros I. apply existsb_eqb_In in I. unfold is_oldest in Fk.
    congruence. }
  pose proof sorted_entries_ascending as S.
  rewrite <- (firstn_skipn (Z.to_nat (excess pool limit))
                (sorted_entries pool)) in S.
  exact (sorted_app_le _ _ _ S _ _ (oldest_entry e Ie Fe)
           (newer_entry k Ik Nk)).
Qed.

End Eviction.

Lemma filter_partition {A} (f : A -> bool) (l : list A) :
  Permutation l (filter f l ++ filter (fun x => negb (f x)) l).
Proof.
  induction l as [|e m IH]; [constructor|]. simpl.
  destruct (f e); simpl; [now constructor|].
  now apply Permutation_cons_app.
Qed.

(** [_manageConnections] keeps the sockets that are not among the oldest
    excess entries. *)
Lemma manageConnections_sockets (this : HL7Outbound.state) :
  maxConnections (HL7Outbound._opt this)
  < HL7Outbound.Map_size (HL7Outbound._sockets this) ->
  1 <= HL7Outbound.Map_size (HL7Outbound._sockets this) ->
  HL7Outbound._sockets (HL7Outbound._manageConnections this)
  = filter (fun e => negb (is_oldest (HL7Outbound._sockets this)
                             (maxConnections (HL7Outbound._opt this)) e))
      (HL7Outbound._sockets this).
Proof.
  intros exceeded nonempty. unfold HL7Outbound._manageConnections.
  destruct (_ <=? 0) eqn:E; [apply Z.leb_le in E; lia|].
  rewrite sockets_remove_all.
  rewrite sort_length, length_map.
  rewrite Array_slice_first; [reflexivity|].
  rewrite sort_length, length_map.
  unfold HL7Outbound.Map_size in *. lia.
Qed.

(** C7: when the pool holds more sockets than [maxConnections] (and, as
    after an add, at least one), [_manageConnections] removes the excess
    entries, but at most all but one: the removed entries are those of the
    first places in ascending order of [lastUsed], none of them was used
    later than a socket that stays, and [max maxConnections 1] sockets
    stay.  [_listener] calls it after its add exactly when the size
    exceeds [maxConnections].  For A (1), B (2), C (3) and
    [maxConnections = 2] exactly A is removed, and B and C stay. *)
Theorem C7_manageConnections_evicts_oldest :
  (forall this : HL7Outbound.state,
      let pool := HL7Outbound._sockets this in
      let limit := maxConnections (HL7Outbound._opt this) in
      let kept := HL7Outbound._sockets (HL7Outbound._manageConnections this) in
      NoDup (map fst pool) ->
      Forall (fun e => lastUsed (snd e) <> None) pool ->
      limit < HL7Outbound.Map_size pool ->
      1 <= HL7Outbound.Map_size pool ->
      exists evicted,
        Permutation pool (evicted ++ kept) /\
        Permutation (map fst evicted) (map fst (oldest pool limit)) /\
        Z.of_nat (List.length evicted)
        = Z.min (HL7Outbound.Map_size pool - limit)
                (HL7Outbound.Map_size pool - 1) /\
        (forall e k, In e evicted -> In k kept ->
                     stamp (snd e) <= stamp (snd k)) /\
        HL7Outbound.Map_size kept = Z.max limit 1 /\
        1 <= HL7Outbound.Map_size kept) /\
  (forall (this : HL7Outbound.state) (socket : Socket),
      let added :=
        HL7Outbound._addSocket this (HL7Outbound._nodeId this) socket true in
      HL7Outbound._sockets (HL7Outbound._listener this socket)
      = if maxConnections (HL7Outbound._opt added)
           <? HL7Outbound.Map_size (HL7Outbound._sockets added)
        then HL7Outbound._sockets (HL7Outbound._manageConnections added)
        else HL7Outbound._sockets added) /\
  HL7Outbound._sockets (HL7Outbound._manageConnections poolABC)
  = [("B", socketB); ("C", socketC)] /\
  HL7Outbound.effects (HL7Outbound._manageConnections poolABC)
  = [SocketDestroy socketA].
Proof.
  split; [|split; [|split; reflexivity]];
    [|intros this socket added; unfold HL7Outbound._listener; fold added;
      now destruct (_ <? _)].
  intros this pool limit kept N St Ex Ne.
  exists (filter (is_oldest pool limit) pool).
  assert (K : kept = filter (fun e => negb (is_oldest pool limit e)) pool)
    by (apply manageConnections_sockets; assumption).
  pose proof (evicted_length pool limit N Ex Ne) as L.
  repeat split.
  - rewrite K. apply filter_partition.
  - apply evicted_keys; assumption.
  - exact L.
  - rewrite K. apply evicted_oldest; assumption.
  - pose proof (filter_length (is_oldest pool limit) pool) as F.
    rewrite K. unfold excess, HL7Outbound.Map_size in *. lia.
  - pose proof (filter_length (is_oldest pool limit) pool) as F.
    rewrite K. unfold excess, HL7Outbound.Map_size in *. lia.
Qed.

(** C7 at the pool of A, B and C. *)
Lemma C7_manageConnections_evicts_oldest_witness :
  exists evicted,
    Permutation (HL7Outbound._sockets poolABC)
      (evicted
         ++ HL7Outbound._sockets (HL7Outbound._manageConnections poolABC)) /\
    Permutation (map fst evicted)
      (map fst (oldest (HL7Outbound._sockets poolABC) 2)) /\
    Z.of_nat (List.length evicted) = 1.
Proof.
  destruct (proj1 C7_manageConnections_evicts_oldest poolABC)
    as (evicted & P & K & L & _).
  - repeat constructor; simpl; intuition discriminate.
  - repeat constructor; discriminate.
  - reflexivity.
  - discriminate.
  - exists evicted. repeat split; [exact P | exact K | exact L].
Defined.

(* ================================================================== *)
(** * The [data] listener                                               *)
(* ================================================================== *)

Lemma slice_rest_length (s : string) (a : Z) :
  1 <= a -> s <> EmptyString ->
  (String.length (JS.slice s a (JS.length s)) < String.length s)%nat.
Proof.
  intros Ha Hs. unfold JS.slice, JS.range.
  rewrite take_length, drop_length.
  assert (1 <= JS.length s)%Z
    by (destruct s; [congruence | unfold JS.length; simpl; lia]).
  rewrite !relative_nonneg by lia. unfold JS.length in *. lia.
Qed.

(** The loop always ends within its fuel; when it ends without a
    rejection, the buffer is empty. *)
Lemma data_loop_drains (newResponse : string -> Completion string) :
  forall (fuel : nat) (this : HL7Outbound.state),
    (String.length (HL7Outbound._responseBuffer this) <= fuel)%nat ->
    match HL7Outbound.data_loop newResponse fuel this with
    | Some (HL7Outbound.Resolved this') =>
        HL7Outbound._responseBuffer this' = EmptyString
    | Some (HL7Outbound.Rejected _) => True
    | None => False
    end.
Proof.
  induction fuel as [|fuel IH]; intros this Hl.
  - destruct (HL7Outbound._responseBuffer this) eqn:E; [|simpl in Hl; lia].
    unfold HL7Outbound.data_loop. rewrite E. exact E.
  - cbn [HL7Outbound.data_loop].
    destruct (String.eqb_spec (HL7Outbound._responseBuffer this) EmptyString)
      as [E|NE]; [exact E|].
    pose proof (indexOf_lower (HL7Outbound._responseBuffer this)
                  PROTOCOL_MLLP_FOOTER) as Li.
    pose proof (slice_rest_length (HL7Outbound._responseBuffer this)
                  (JS.indexOf (HL7Outbound._responseBuffer this)
                     PROTOCOL_MLLP_FOOTER + 2) ltac:(lia) NE) as Ls.
    destruct (JS.includes _ PROTOCOL_MLLP_FOOTER).
    + destruct (HL7Outbound._handler _) as [handler|] eqn:Eh.
      * destruct (newResponse _) as [response|e]; [|exact I].
        destruct (handler _); [|exact I]. apply IH. cbn. cbn in Ls. lia.
      * apply IH. cbn. lia.
    + apply IH. cbn. lia.
Qed.

(** Without a handler the loop changes the buffer only: the constructor
    of responses is not called. *)
Lemma data_loop_no_handler (newResponse : string -> Completion string) :
  forall (fuel : nat) (this : HL7Outbound.state),
    HL7Outbound._handler this = None ->
    (String.length (HL7Outbound._responseBuffer this) <= fuel)%nat ->
    HL7Outbound.data_loop newResponse fuel this
    = Some (HL7Outbound.Resolved
              (HL7Outbound.set_responseBuffer EmptyString this)).
Proof.
  induction fuel as [|fuel IH]; intros this Hh Hl.
  - destruct this as [a b c d e f g h i j buf l m n o]. cbn in *.
    destruct buf; [reflexivity | simpl in Hl; lia].
  - cbn [HL7Outbound.data_loop].
    destruct (String.eqb_spec (HL7Outbound._responseBuffer this) EmptyString)
      as [E|NE].
    { destruct this as [a b c d e f g h i j buf l m n o]. cbn in *.
      now subst buf. }
    pose proof (indexOf_lower (HL7Outbound._responseBuffer this)
                  PROTOCOL_MLLP_FOOTER) as Li.
    pose proof (slice_rest_length (HL7Outbound._responseBuffer this)
                  (JS.indexOf (HL7Outbound._responseBuffer this)
                     PROTOCOL_MLLP_FOOTER + 2) ltac:(lia) NE) as Ls.
    assert (R : forall b,
               HL7Outbound.data_loop newResponse fuel
                 (HL7Outbound.set_responseBuffer b this)
               = Some (HL7Outbound.Resolved
                         (HL7Outbound.set_responseBuffer EmptyString this))
               \/ (fuel < String.length b)%nat).
    { intros b. destruct (Nat.lt_ge_cases fuel (String.length b)) as [L|L];
        [now right|left].
      rewrite IH; [reflexivity | exact Hh | exact L]. }
    destruct (JS.includes _ PROTOCOL_MLLP_FOOTER).
    + cbn [HL7Outbound._handler HL7Outbound.set_responseBuffer]. rewrite Hh.
      destruct (R (JS.slice (HL7Outbound._responseBuffer this)
                     (JS.indexOf (HL7Outbound._responseBuffer this)
                        PROTOCOL_MLLP_FOOTER + 2)
                     (JS.length (HL7Outbound._responseBuffer this))))
        as [->|L]; [reflexivity | lia].
    + destruct (R (JS.slice (HL7Outbound._responseBuffer this)
                     (JS.indexOf (HL7Outbound._responseBuffer this)
                        PROTOCOL_MLLP_FOOTER + 2)
                     (JS.length (HL7Outbound._responseBuffer this))))
        as [->|L]; [reflexivity | lia].
Qed.

(** Ending the sockets of the pool touches no field but the effects. *)
Lemma close_sockets_fields (sockets : list (string * Socket)) :
  forall this : HL7Outbound.state,
    let this' :=
      fold_left
        (fun this (entry : string * Socket) =>
           match destroyed (snd entry) with
           | Some _ =>
               HL7Outbound.effect (SocketDestroy (snd entry))
                 (HL7Outbound.effect (SocketEnd (snd entry)) this)
           | None => this
           end) sockets this in
    HL7Outbound._responseBuffer this' = HL7Outbound._responseBuffer this /\
    HL7Outbound._readyState this' = HL7Outbound._readyState this.
Proof.
  induction sockets as [|entry sockets IH]; intros this; [now split|].
  cbn [fold_left]. cbv zeta in IH |- *.
  destruct (destroyed (snd entry)); [|apply IH].
  destruct (IH (HL7Outbound.effect (SocketDestroy (snd entry))
                  (HL7Outbound.effect (SocketEnd (snd entry)) this)))
    as [B R].
  rewrite B, R. now split.
Qed.

Lemma close_fields (this : HL7Outbound.state) :
  HL7Outbound._responseBuffer (HL7Outbound._close this)
  = HL7Outbound._responseBuffer this /\
  HL7Outbound._readyState (HL7Outbound._close this) = CLOSING.
Proof.
  unfold HL7Outbound._close.
  destruct (close_sockets_fields (HL7Outbound._sockets this)
              (HL7Outbound.set_readyState CLOSING this)) as [B R].
  cbn [HL7Outbound._responseBuffer HL7Outbound._readyState
       HL7Outbound.effect HL7Outbound.set_sockets].
  split; [exact B | exact R].
Qed.

(** The listener of [data] always settles; when it resolves, nothing is
    left in the buffer and the channel is closing. *)
Lemma on_data_drains (newResponse : string -> Completion string)
    (this : HL7Outbound.state) (buffer : string) :
  match HL7Outbound.on_data newResponse this buffer with
  | Some (HL7Outbound.Resolved this') =>
      HL7Outbound._responseBuffer this' = EmptyString /\
      HL7Outbound._readyState this' = CLOSING
  | Some (HL7Outbound.Rejected _) => True
  | None => False
  end.
Proof.
  unfold HL7Outbound.on_data.
  match goal with
  | |- context [HL7Outbound.data_loop newResponse ?f ?t] =>
      pose proof (data_loop_drains newResponse f t (Nat.le_refl _)) as D;
      destruct (HL7Outbound.data_loop newResponse f t) as [[this'|this']|]
  end; [|exact I|exact D].
  destruct (close_fields this') as [B R]. rewrite B. now split.
Qed.

(** C4 (the code departs from it): the loop of the [data] listener runs
    until the buffer is empty, whether or not it holds both markers, so
    whenever the listener resolves no partial frame is left for the next
    chunk, whatever the constructor of responses does.  For the frame of
    "MSA|AA|1" delivered as two chunks, the first chunk is discarded and
    the channel closed, without a call of the constructor; the text the
    second chunk then yields, and the constructor is called with, is
    "|1": the constructor throws and the listener rejects, or it returns
    a response and that one is counted and handed over. *)
Theorem C4_partial_frame_not_kept :
  (forall (newResponse : string -> Completion string)
          (this : HL7Outbound.state) (buffer : string),
      match HL7Outbound.on_data newResponse this buffer with
      | Some (HL7Outbound.Resolved this') =>
          HL7Outbound._responseBuffer this' = EmptyString /\
          HL7Outbound._readyState this' = CLOSING
      | Some (HL7Outbound.Rejected _) => True
      | None => False
      end) /\
  (forall newResponse : string -> Completion string,
      HL7Outbound.on_data newResponse listening
        (PROTOCOL_MLLP_HEADER ++ "MSA|AA")
      = Some (HL7Outbound.Resolved afterFirstChunk) /\
      option_map settled_effects
        (HL7Outbound.on_data newResponse afterFirstChunk
           ("|1" ++ PROTOCOL_MLLP_FOOTER))
      = Some match newResponse "|1" with
             | Return response =>
                 [Emit "client.close" None;
                  Emit "client.acknowledged" (Some 1);
                  Handler response;
                  Emit "client.close" None]
             | Throw _ => [Emit "client.close" None]
             end) /\
  HL7Outbound._responseBuffer afterFirstChunk = EmptyString /\
  HL7Outbound.effects afterFirstChunk = [Emit "client.close" None].
Proof.
  split; [exact on_data_drains|].
  split; [|split; reflexivity].
  intros newResponse. split; [reflexivity|].
  vm_compute. destruct (newResponse _); reflexivity.
Qed.

Lemma on_data_no_handler (newResponse : string -> Completion string)
    (this : HL7Outbound.state) (buffer : string) :
  HL7Outbound._handler this = None ->
  HL7Outbound.on_data newResponse this buffer
  = Some (HL7Outbound.Resolved
            (HL7Outbound._close
               (HL7Outbound.set_responseBuffer EmptyString
                  (HL7Outbound.set_awaitingResponse false this)))).
Proof.
  intros H. unfold HL7Outbound.on_data.
  rewrite data_loop_no_handler; [reflexivity | exact H | apply Nat.le_refl].
Qed.

(** C5 (the code departs from it): the counter is incremented and
    [client.acknowledged] emitted inside the test for a handler.  A
    channel made without a handler (with any options) leaves the counter
    at 0 and emits nothing but [client.close], whatever frames the chunk
    holds and whatever the constructor of responses would do: it is not
    called.  With a handler the same frame counts once when the
    constructor returns a response, and not at all when it throws. *)
Theorem C5_acknowledged_needs_handler :
  (forall (newResponse : string -> Completion string)
          (main : ClientOptions) (props : ClientListenerOptions)
          (nodeId buffer : string),
      exists this',
        HL7Outbound.on_data newResponse
          (HL7Outbound.construct main props None nodeId) buffer
        = Some (HL7Outbound.Resolved this') /\
        HL7Outbound.stats_acknowledged this' = 0 /\
        HL7Outbound.effects this' = [Emit "client.close" None]) /\
  (forall newResponse : string -> Completion string,
      option_map settled_effects
        (HL7Outbound.on_data newResponse
           (HL7Outbound.construct mainOptions listenerOptions None "node1")
           (PROTOCOL_MLLP_HEADER ++ "MSA|AA|1" ++ PROTOCOL_MLLP_FOOTER))
      = Some [Emit "client.close" None] /\
      option_map settled_effects
        (HL7Outbound.on_data newResponse listening
           (PROTOCOL_MLLP_HEADER ++ "MSA|AA|1" ++ PROTOCOL_MLLP_FOOTER))
      = Some match newResponse "MSA|AA|1" with
             | Return response =>
                 [Emit "client.acknowledged" (Some 1);
                  Handler response;
                  Emit "client.close" None]
             | Throw _ => []
             end).
Proof.
  split.
  - intros newResponse main props nodeId buffer. eexists.
    rewrite on_data_no_handler by reflexivity.
    split; [reflexivity|]. split; reflexivity.
  - intros newResponse. split.
    + now rewrite on_data_no_handler.
    + vm_compute. destruct (newResponse _); reflexivity.
Qed.

(* ================================================================== *)
(** * The [timeout] listener                                            *)
(* ================================================================== *)

(** A channel as the constructor makes it never retries: its first
    timeout closes it. *)
Lemma on_timeout_new
    (expBackoff : option Z -> option Z -> Z -> Z)
    (main : ClientOptions) (props : ClientListenerOptions)
    (handler : option (string -> bool)) (nodeId : string) :
  HL7Outbound.effects
    (HL7Outbound.on_timeout expBackoff
       (HL7Outbound.construct main props handler nodeId))
  = [Emit "client.close" None; Emit "error" None].
Proof.
  unfold HL7Outbound.on_timeout. cbn.
  rewrite andb_false_r, orb_true_r. reflexivity.
Qed.

(* ================================================================== *)
(** * The MSH check of specification 2.7                                *)
(* ================================================================== *)

Lemma checkMSH_cases (msh : MSH) :
  (valid_msh msh = true /\ HL7_2_7.checkMSH msh = Return msh) \/
  (valid_msh msh = false /\
   exists message,
     In message checkMSH_messages /\
     HL7_2_7.checkMSH msh = Throw (Error message)).
Proof.
  unfold valid_msh, HL7_2_7.checkMSH, checkMSH_messages.
  rewrite ?Z.leb_antisym.
  destruct (msh_9_1 (msh_9 msh)) as [m1|], (msh_9_2 (msh_9 msh)) as [m2|],
    (msh_9_3 (msh_9 msh)) as [m3|], (msh_10 msh) as [m10|];
    try rewrite Z.leb_antisym;
    repeat match goal with
           | |- context [JS.length ?m =? ?n] => destruct (JS.length m =? n)
           | |- context [?n <? JS.length ?m] => destruct (n <? JS.length m)
           end;
    cbn [negb andb];
    first [ left; split; reflexivity
          | right; split; [reflexivity|]; eexists; split; [|reflexivity];
            simpl; tauto ].
Qed.

(** C8: [checkMSH] returns its argument as it is, or throws an error with
    one of its six messages; it returns exactly when the three subfields
    of MSH.9 and MSH.10 are present and have the lengths it asks for. *)
Theorem C8_checkMSH_returns_or_throws (msh : MSH) :
  (valid_msh msh = true /\ HL7_2_7.checkMSH msh = Return msh) \/
  (valid_msh msh = false /\
   exists message,
     In message checkMSH_messages /\
     HL7_2_7.checkMSH msh = Throw (Error message)).
Proof. exact (checkMSH_cases msh). Qed.

(** C10: [checkMSH] accepts a message control ID of exactly 199
    characters; the error "MSH.9.10 must less than 199 characters." is
    thrown only when the ID is longer than 199, and with the subfields of
    MSH.9 in order it is thrown exactly then; and a header is returned
    only if [msh_9_3], which the interface [HL7_MSH_MESSAGE_TYPE] does not
    declare, is present with exactly 7 characters. *)
Theorem C10_checkMSH_bounds :
  JS.length controlId199 = 199 /\
  HL7_2_7.checkMSH (header (Some controlId199))
  = Return (header (Some controlId199)) /\
  (forall msh : MSH,
      HL7_2_7.checkMSH msh
      = Throw (Error "MSH.9.10 must less than 199 characters.") ->
      exists m10, msh_10 msh = Some m10 /\ 199 < JS.length m10) /\
  (forall m10 : string,
      HL7_2_7.checkMSH (header (Some m10))
      = if 199 <? JS.length m10
        then Throw (Error "MSH.9.10 must less than 199 characters.")
        else Return (header (Some m10))) /\
  (forall msh : MSH,
      match HL7_2_7.checkMSH msh with
      | Return _ =>
          exists m3, msh_9_3 (msh_9 msh) = Some m3 /\ JS.length m3 = 7
      | Throw _ => True
      end) /\
  ~ In "msh_9_3" HL7_MSH_MESSAGE_TYPE.
Proof.
  split; [vm_compute; reflexivity|].
  split; [vm_compute; reflexivity|].
  split; [|split; [|split]].
  - intros msh. unfold HL7_2_7.checkMSH.
    destruct (msh_9_1 (msh_9 msh)); [|discriminate].
    destruct (msh_9_2 (msh_9 msh)); [|discriminate].
    destruct (msh_9_3 (msh_9 msh)); [|discriminate].
    destruct (JS.length _ =? 3); [|discriminate]. cbn [negb].
    destruct (JS.length _ =? 3); [|discriminate]. cbn [negb].
    destruct (JS.length _ =? 7); [|discriminate]. cbn [negb].
    destruct (msh_10 msh) as [m10|]; [|discriminate].
    destruct (199 <? JS.length m10) eqn:E; [|discriminate].
    intros _. exists m10. split; [reflexivity | now apply Z.ltb_lt].
  - intros m10. unfold HL7_2_7.checkMSH. cbn.
    destruct (199 <? JS.length m10); reflexivity.
  - intros msh. unfold HL7_2_7.checkMSH.
    destruct (msh_9_1 (msh_9 msh)); [|exact I].
    destruct (msh_9_2 (msh_9 msh)); [|exact I].
    destruct (msh_9_3 (msh_9 msh)) as [m3|]; [|exact I].
    destruct (JS.length _ =? 3); [|exact I]. cbn [negb].
    destruct (JS.length _ =? 3); [|exact I]. cbn [negb].
    destruct (JS.length m3 =? 7) eqn:E; [|exact I]. cbn [negb].
    destruct (msh_10 msh); [|exact I].
    destruct (199 <? JS.length _); [exact I|].
    exists m3. split; [reflexivity | now apply Z.eqb_eq].
  - cbv. intuition discriminate.
Qed.

(* ================================================================== *)
(** * Further properties of the delimiter codec                         *)
(* ================================================================== *)

Lemma string_app_assoc (a b c : string) : (a ++ b) ++ c = a ++ (b ++ c).
Proof. induction a as [|x a IH]; simpl; [reflexivity | now rewrite IH]. Qed.

Lemma includes_single_append (x : ascii) (a b : string) :
  JS.includes (a ++ b) (String x EmptyString)
  = (JS.includes a (String x EmptyString)
     || JS.includes b (String x EmptyString))%bool.
Proof.
  induction a as [|c a IH]; [reflexivity|].
  cbn [append]. rewrite !includes_cons_single, IH. now rewrite orb_assoc.
Qed.

(** The escape sequence of a delimiter: the escape character, one code
    letter, the escape character. *)
Lemma escape_callback_code (rb : RootBase.t) (e f r c s x : ascii) :
  constructed rb e f r c s ->
  existsb (Ascii.eqb x) [e; f; r; c; s] = true ->
  exists L : ascii,
    In (String L EmptyString) escapeCodes /\
    RootBase.escape_callback rb (String x EmptyString)
    = Return (String e (String L (String e EmptyString))).
Proof.
  intros C Hx. unfold RootBase.escape_callback.
  rewrite (c_escape _ _ _ _ _ _ C), (c_field _ _ _ _ _ _ C),
    (c_repetition _ _ _ _ _ _ C), (c_component _ _ _ _ _ _ C),
    (c_subcomponent _ _ _ _ _ _ C).
  cbn [JS.strict_eq JS.ToString]. rewrite !eqb_single.
  cbn [existsb] in Hx. rewrite orb_false_r in Hx.
  destruct (Ascii.eqb x e);
    [exists "E"%char; split; [simpl; tauto | reflexivity]|].
  destruct (Ascii.eqb x f);
    [exists "F"%char; split; [simpl; tauto | reflexivity]|].
  destruct (Ascii.eqb x r);
    [exists "R"%char; split; [simpl; tauto | reflexivity]|].
  destruct (Ascii.eqb x c);
    [exists "S"%char; split; [simpl; tauto | reflexivity]|].
  destruct (Ascii.eqb x s); [|discriminate].
  exists "T"%char; split; [simpl; tauto | reflexivity].
Qed.

(** X1: [escape] goes through a concatenation: the escaped text of
    [a ++ b] is the escaped text of [a] followed by that of [b]. *)
Theorem X1_escape_append (rb : RootBase.t) (a b : string) :
  exists x y,
    RootBase.escape rb (str a) = Return x /\
    RootBase.escape rb (str b) = Return y /\
    RootBase.escape rb (str (a ++ b)) = Return (x ++ y).
Proof.
  destruct (escape_returns rb b) as [y Hy].
  induction a as [|c a (x & y' & Hx & Hy' & Hxy)].
  - exists EmptyString, y. repeat split; [exact Hy | exact Hy].
  - rewrite Hy in Hy'. injection Hy' as <-.
    unfold RootBase.escape in *. cbn [append RootBase.replace_matchEscape].
    destruct (existsb _ _).
    + destruct (escape_callback_returns rb (String c EmptyString)) as [q Hq].
      exists (q ++ x), y. rewrite Hq, Hx, Hxy. cbn [bind].
      repeat split; [exact Hy | now rewrite string_app_assoc].
    + exists (String c x), y. rewrite Hx, Hxy. cbn [bind].
      repeat split. exact Hy.
Qed.

(** X2: when none of the four separators is the escape character or a
    code letter, the escaped text holds none of them. *)
Theorem X2_escape_no_separator
    (opt : ClientBuilderOptions) (rb : RootBase.t) :
  RootBase.new opt = Some rb ->
  (forall d, In d (separators rb) ->
             d <> RootBase.delimiter rb Delimiters.Escape /\
             ~ In d (map Some escapeCodes)) ->
  forall text : string, exists escaped,
    RootBase.escape rb (str text) = Return escaped /\
    forall d, In d (separators rb) ->
              JS.includes escaped (JS.ToString d) = false.
Proof.
  intros Hnew Hsep text.
  destruct (new_spec opt rb Hnew) as (e & f & r & c & s & C).
  assert (S : forall x, In x [f; r; c; s] ->
                        Ascii.eqb x e = false /\
                        forall L, In (String L EmptyString) escapeCodes ->
                                  Ascii.eqb x L = false).
  { intros x Ix.
    assert (D : In (Some (String x EmptyString)) (separators rb)).
    { unfold separators.
      rewrite (c_field _ _ _ _ _ _ C), (c_repetition _ _ _ _ _ _ C),
        (c_component _ _ _ _ _ _ C), (c_subcomponent _ _ _ _ _ _ C).
      simpl in Ix |- *. intuition (subst; auto). }
    destruct (Hsep _ D) as [Ne Nc]. split.
    - apply Ascii.eqb_neq. intros ->. apply Ne.
      now rewrite (c_escape _ _ _ _ _ _ C).
    - intros L IL. apply Ascii.eqb_neq. intros ->. apply Nc.
      now apply in_map. }
  assert (G : exists escaped,
             RootBase.escape rb (str text) = Return escaped /\
             forall x, In x [f; r; c; s] ->
                       JS.includes escaped (String x EmptyString) = false).
  { unfold RootBase.escape. rewrite (c_matchEscape _ _ _ _ _ _ C).
    induction text as [|t text (escaped & He & Hi)].
    - exists EmptyString. split; [reflexivity|]. reflexivity.
    - cbn [RootBase.replace_matchEscape RootBase.alternatives].
      destruct (existsb (Ascii.eqb t) [e; f; r; c; s]) eqn:Ht.
      + destruct (escape_callback_code rb e f r c s t C Ht) as (L & IL & HL).
        rewrite HL, He. cbn [bind append]. eexists. split; [reflexivity|].
        intros x Ix. destruct (S x Ix) as [Se Sc].
        rewrite !includes_cons_single, Se, (Sc L IL). cbn [orb].
        now apply Hi.
      + rewrite He. cbn [bind]. eexists. split; [reflexivity|].
        intros x Ix. rewrite includes_cons_single, (Hi x Ix), orb_false_r.
        apply Ascii.eqb_neq. intros ->.
        assert (T : existsb (Ascii.eqb t) [e; f; r; c; s] = true).
        { apply existsb_exists. exists t. split; [|apply Ascii.eqb_refl].
          now right. }
        congruence. }
  destruct G as (escaped & He & Hi). exists escaped. split; [exact He|].
  intros d Id. unfold separators in Id.
  rewrite (c_field _ _ _ _ _ _ C), (c_repetition _ _ _ _ _ _ C),
    (c_component _ _ _ _ _ _ C), (c_subcomponent _ _ _ _ _ _ C) in Id.
  simpl in Id.
  destruct Id as [<-|[<-|[<-|[<-|[]]]]]; cbn [JS.ToString]; apply Hi;
    simpl; tauto.
Qed.

Lemma default_separators :
  forall d, In d (separators defaultRootBase) ->
            d <> RootBase.delimiter defaultRootBase Delimiters.Escape /\
            ~ In d (map Some escapeCodes).
Proof.
  intros d Id. cbv in Id.
  destruct Id as [<-|[<-|[<-|[<-|[]]]]];
    (split; [discriminate | cbv; intuition discriminate]).
Qed.

(** X2 at the default delimiters. *)
Lemma X2_escape_no_separator_witness :
  exists escaped,
    RootBase.escape defaultRootBase (str "a|b^c~d&e\f") = Return escaped /\
    forall d, In d (separators defaultRootBase) ->
              JS.includes escaped (JS.ToString d) = false.
Proof.
  apply (X2_escape_no_separator defaultOptions defaultRootBase).
  - reflexivity.
  - exact default_separators.
Defined.

(** X3: every delimiter costs two more code units: the escaped text is
    longer than the text by twice the number of delimiters in it. *)
Theorem X3_escape_length
    (opt : ClientBuilderOptions) (rb : RootBase.t) :
  RootBase.new opt = Some rb ->
  forall text : string, exists escaped,
    RootBase.escape rb (str text) = Return escaped /\
    String.length escaped
    = (String.length text + 2 * delimiter_count rb text)%nat.
Proof.
  intros Hnew text.
  destruct (new_spec opt rb Hnew) as (e & f & r & c & s & C).
  unfold RootBase.escape.
  induction text as [|t text (escaped & He & Hl)].
  - exists EmptyString. split; reflexivity.
  - cbn [RootBase.replace_matchEscape delimiter_count].
    rewrite (c_matchEscape _ _ _ _ _ _ C) in *. cbn [RootBase.alternatives].
    destruct (existsb (Ascii.eqb t) [e; f; r; c; s]) eqn:Ht.
    + destruct (escape_callback_code rb e f r c s t C Ht) as (L & IL & HL).
      rewrite HL, He. cbn [bind append]. eexists. split; [reflexivity|].
      simpl String.length. rewrite Hl. lia.
    + rewrite He. cbn [bind]. eexists. split; [reflexivity|].
      simpl String.length. rewrite Hl. lia.
Qed.

(** X3 at the default delimiters. *)
Lemma X3_escape_length_witness :
  exists escaped,
    RootBase.escape defaultRootBase (str "A|B^C") = Return escaped /\
    String.length escaped
    = (String.length "A|B^C" + 2 * delimiter_count defaultRootBase "A|B^C")%nat.
Proof.
  apply (X3_escape_length defaultOptions defaultRootBase). reflexivity.
Defined.

(** Text without the bracket passes the scan of [unescape] in front of
    what follows. *)
Lemma scan_plain_prefix (e : ascii) f (pre rest : string) :
  JS.includes pre (String e EmptyString) = false ->
  RootBase.replace_matchUnescape_from {| RootBase.bracket := e |} f None
    (pre ++ rest)
  = (t <- RootBase.replace_matchUnescape_from {| RootBase.bracket := e |} f
            None rest ;;
     Return (pre ++ t)).
Proof.
  induction pre as [|c pre IH]; intros H.
  - cbn [append]. now destruct (RootBase.replace_matchUnescape_from _ _ _ _).
  - rewrite includes_cons_single in H. apply orb_false_iff in H as [Hc Hi].
    cbn [append RootBase.replace_matchUnescape_from RootBase.bracket].
    rewrite Ascii.eqb_sym, Hc, (IH Hi).
    destruct (RootBase.replace_matchUnescape_from _ _ _ rest); reflexivity.
Qed.

(** Inside a candidate match, text without the bracket is gathered up to
    the closing bracket, and the match is replaced. *)
Lemma scan_token (e : ascii) f (body post : string) :
  JS.includes body (String e EmptyString) = false ->
  forall seen : string,
    RootBase.replace_matchUnescape_from {| RootBase.bracket := e |} f
      (Some seen) (body ++ String e post)
    = (r <- f (String e ((seen ++ body) ++ String e EmptyString)) ;;
       t <- RootBase.replace_matchUnescape_from {| RootBase.bracket := e |}
              f None post ;;
       Return (r ++ t)).
Proof.
  induction body as [|c body IH]; intros H seen.
  - cbn [append RootBase.replace_matchUnescape_from RootBase.bracket].
    rewrite Ascii.eqb_refl, append_nil_r. reflexivity.
  - rewrite includes_cons_single in H. apply orb_false_iff in H as [Hc Hi].
    cbn [append RootBase.replace_matchUnescape_from RootBase.bracket].
    rewrite Ascii.eqb_sym, Hc, (IH Hi). rewrite !string_app_assoc.
    reflexivity.
Qed.

Lemma unescape_token
    (decodeHexString : string -> Completion string)
    (opt : ClientBuilderOptions) (rb : RootBase.t) (e : ascii)
    (pre body post : string) :
  RootBase.new opt = Some rb ->
  RootBase.delimiter rb Delimiters.Escape = Some (String e EmptyString) ->
  JS.includes pre (String e EmptyString) = false ->
  JS.includes body (String e EmptyString) = false ->
  RootBase.unescape decodeHexString rb
    (str (pre ++ String e (body ++ String e post)))
  = (r <- RootBase.unescape_callback decodeHexString rb
            (String e (body ++ String e EmptyString)) ;;
     t <- RootBase.unescape decodeHexString rb (str post) ;;
     Return (pre ++ r ++ t)).
Proof.
  intros Hnew He Hpre Hbody.
  destruct (new_spec opt rb Hnew) as (e' & f & r & c & s & C).
  assert (e' = e) as ->.
  { rewrite (c_escape _ _ _ _ _ _ C) in He. now injection He. }
  rewrite !(unescape_scan _ rb e f r c s _ C).
  unfold RootBase.replace_matchUnescape.
  rewrite (c_matchUnescape _ _ _ _ _ _ C).
  rewrite (scan_plain_prefix e _ pre _ Hpre).
  cbn [RootBase.replace_matchUnescape_from RootBase.bracket].
  rewrite Ascii.eqb_refl, (scan_token e _ body post Hbody). cbn [append].
  destruct (RootBase.unescape_callback _ _ _) as [q|x]; [|reflexivity].
  cbn [bind].
  destruct (RootBase.replace_matchUnescape_from _ _ _ post); reflexivity.
Qed.

(** X4: [unescape] works through the text from the left, one escape
    sequence at a time: plain text, then a sequence with a body free of
    the escape character, then the rest, gives the plain text, the
    replacement of the sequence and the unescaped rest. *)
Theorem X4_unescape_token
    (decodeHexString : string -> Completion string)
    (opt : ClientBuilderOptions) (rb : RootBase.t) (e : ascii)
    (pre body post : string) :
  RootBase.new opt = Some rb ->
  RootBase.delimiter rb Delimiters.Escape = Some (String e EmptyString) ->
  JS.includes pre (String e EmptyString) = false ->
  JS.includes body (String e EmptyString) = false ->
  RootBase.unescape decodeHexString rb
    (str (pre ++ String e (body ++ String e post)))
  = (r <- RootBase.unescape_callback decodeHexString rb
            (String e (body ++ String e EmptyString)) ;;
     t <- RootBase.unescape decodeHexString rb (str post) ;;
     Return (pre ++ r ++ t)).
Proof. apply unescape_token. Qed.

(** X4 at the default delimiters: a field separator between two words. *)
Lemma X4_unescape_token_witness :
  RootBase.unescape noHex defaultRootBase (str ("ab" ++ "\F\" ++ "cd"))
  = Return "ab|cd".
Proof.
  apply (X4_unescape_token noHex defaultOptions defaultRootBase "\"%char
           "ab" "F" "cd"); reflexivity.
Defined.

Lemma slice_code (e k : ascii) (rest : string) :
  JS.slice (String e (String k rest)) 1 2 = String k EmptyString.
Proof.
  unfold JS.slice, JS.range, JS.relative, JS.length.
  replace (1 <? 0) with false by reflexivity.
  replace (2 <? 0) with false by reflexivity.
  assert (L : 2 <= Z.of_nat (String.length (String e (String k rest))))
    by (simpl String.length; lia).
  rewrite !Z.min_l by lia. reflexivity.
Qed.

(** What an escape sequence stands for is read off the code unit behind
    the opening escape character. *)
Lemma unescape_callback_codes
    (decodeHexString : string -> Completion string)
    (rb : RootBase.t) (e k : ascii) (rest : string) :
  (In k displayCodes ->
   RootBase.unescape_callback decodeHexString rb (String e (String k rest))
   = Return EmptyString) /\
  (~ In k knownCodes ->
   RootBase.unescape_callback decodeHexString rb (String e (String k rest))
   = Return (String e (String k rest))).
Proof.
  split.
  - intros I. unfold RootBase.unescape_callback. rewrite slice_code.
    cbv in I.
    destruct I as [<-|[<-|[<-|[<-|[<-|[]]]]]]; reflexivity.
  - intros N. unfold RootBase.unescape_callback.
    rewrite slice_code, !eqb_single.
    repeat match goal with
           | |- context [Ascii.eqb k ?l] =>
               destruct (Ascii.eqb_spec k l) as [->|_];
               [exfalso; apply N; cbv; tauto|]
           end.
    reflexivity.
Qed.

(** X5: [unescape] drops an escape sequence whose code is a display code
    (C, H, M, N, Z), whatever its body, and leaves a sequence whose code
    is none of the eleven known ones as it is. *)
Theorem X5_unescape_codes
    (decodeHexString : string -> Completion string)
    (opt : ClientBuilderOptions) (rb : RootBase.t) (e k : ascii)
    (pre body post : string) :
  RootBase.new opt = Some rb ->
  RootBase.delimiter rb Delimiters.Escape = Some (String e EmptyString) ->
  JS.includes pre (String e EmptyString) = false ->
  JS.includes (String k body) (String e EmptyString) = false ->
  (In k displayCodes ->
   RootBase.unescape decodeHexString rb
     (str (pre ++ String e (String k body ++ String e post)))
   = (t <- RootBase.unescape decodeHexString rb (str post) ;;
      Return (pre ++ t))) /\
  (~ In k knownCodes ->
   RootBase.unescape decodeHexString rb
     (str (pre ++ String e (String k body ++ String e post)))
   = (t <- RootBase.unescape decodeHexString rb (str post) ;;
      Return (pre ++ String e (String k body ++ String e EmptyString) ++ t))).
Proof.
  intros Hnew He Hpre Hbody.
  rewrite (unescape_token decodeHexString opt rb e pre (String k body)
             post Hnew He Hpre Hbody).
  cbn [append].
  destruct (unescape_callback_codes decodeHexString rb e k
              (body ++ String e EmptyString)) as [D U].
  split; intros Hk; [rewrite (D Hk) | rewrite (U Hk)]; reflexivity.
Qed.

(** X5 for the codes H and Q at the default delimiters. *)
Lemma X5_unescape_codes_witness :
  RootBase.unescape noHex defaultRootBase (str ("a" ++ "\H\" ++ "b"))
  = Return "ab" /\
  RootBase.unescape noHex defaultRootBase (str ("a" ++ "\Q1\" ++ "b"))
  = Return "a\Q1\b".
Proof.
  split.
  - apply (proj1 (X5_unescape_codes noHex defaultOptions defaultRootBase
                    "\"%char "H"%char "a" EmptyString "b"
                    eq_refl eq_refl eq_refl eq_refl)).
    cbv. tauto.
  - apply (proj2 (X5_unescape_codes noHex defaultOptions defaultRootBase
                    "\"%char "Q"%char "a" "1" "b"
                    eq_refl eq_refl eq_refl eq_refl)).
    cbv. intuition discriminate.
Defined.

Lemma take_app (a b : string) : JS.take (String.length a) (a ++ b) = a.
Proof. induction a as [|c a IH]; simpl; [now destruct b | now rewrite IH]. Qed.

Lemma slice_hex (e k : ascii) (hex : string) :
  JS.slice (String e (String k (hex ++ String e EmptyString))) 2
    (JS.length (String e (String k (hex ++ String e EmptyString))) - 1)
  = hex.
Proof.
  unfold JS.slice, JS.range, JS.length. simpl String.length.
  rewrite length_append. simpl String.length.
  rewrite !relative_nonneg by lia.
  rewrite !Z.min_l by lia.
  replace (Z.to_nat 2) with 2%nat by reflexivity. cbn [JS.drop].
  replace (Z.to_nat _) with (String.length hex) by lia.
  apply take_app.
Qed.

(** X6: a hexadecimal escape sequence is replaced by what
    [decodeHexString] makes of the text between the X and the closing
    escape character, and its failure is the failure of [unescape]. *)
Theorem X6_unescape_hex
    (decodeHexString : string -> Completion string)
    (opt : ClientBuilderOptions) (rb : RootBase.t) (e : ascii)
    (pre hex post : string) :
  RootBase.new opt = Some rb ->
  RootBase.delimiter rb Delimiters.Escape = Some (String e EmptyString) ->
  JS.includes pre (String e EmptyString) = false ->
  JS.includes (String "X" hex) (String e EmptyString) = false ->
  RootBase.unescape decodeHexString rb
    (str (pre ++ String e (String "X" hex ++ String e post)))
  = (r <- decodeHexString hex ;;
     t <- RootBase.unescape decodeHexString rb (str post) ;;
     Return (pre ++ r ++ t)).
Proof.
  intros Hnew He Hpre Hhex.
  rewrite (unescape_token decodeHexString opt rb e pre (String "X" hex)
             post Hnew He Hpre Hhex).
  cbn [append]. unfold RootBase.unescape_callback at 1.
  rewrite slice_code, slice_hex. reflexivity.
Qed.

(** X6 at the default delimiters, with a decoder that fails. *)
Lemma X6_unescape_hex_witness :
  RootBase.unescape (fun _ => Throw (Error "odd")) defaultRootBase
    (str ("a" ++ "\X4\" ++ "b"))
  = Throw (Error "odd").
Proof.
  apply (X6_unescape_hex (fun _ => Throw (Error "odd")) defaultOptions
           defaultRootBase "\"%char "a" "4" "b"); reflexivity.
Defined.

(** X7: under the condition of the round trip (the escape character is
    no code letter) two different texts never have the same escaped
    text. *)
Theorem X7_escape_injective
    (opt : ClientBuilderOptions) (rb : RootBase.t) (a b : string) :
  RootBase.new opt = Some rb ->
  (forall L, In L escapeCodes ->
             RootBase.delimiter rb Delimiters.Escape <> Some L) ->
  a <> b ->
  RootBase.escape rb (str a) <> RootBase.escape rb (str b).
Proof.
  intros Hnew Hne Hab E.
  destruct (new_spec opt rb Hnew) as (e & f & r & c & s & C).
  destruct (roundtrip_scan noHex rb e f r c s C Hne a) as (xa & Ea & Ua).
  destruct (roundtrip_scan noHex rb e f r c s C Hne b) as (xb & Eb & Ub).
  unfold RootBase.escape in E. rewrite Ea, Eb in E. injection E as <-.
  rewrite Ua in Ub. injection Ub as Ub. contradiction.
Qed.

(** X7 at the default delimiters, for a field separator and a component
    separator. *)
Lemma X7_escape_injective_witness :
  RootBase.escape defaultRootBase (str "A|B")
  <> RootBase.escape defaultRootBase (str "A^B").
Proof.
  apply (X7_escape_injective defaultOptions defaultRootBase "A|B" "A^B").
  - reflexivity.
  - exact default_escape_not_code.
  - discriminate.
Defined.

Lemma scan_open_none (e : ascii) f (post : string) :
  JS.includes post (String e EmptyString) = false ->
  forall seen : string,
    RootBase.replace_matchUnescape_from {| RootBase.bracket := e |} f
      (Some seen) post
    = Return (String e (seen ++ post)).
Proof.
  induction post as [|c post IH]; intros H seen.
  - cbn. now rewrite append_nil_r.
  - rewrite includes_cons_single in H. apply orb_false_iff in H as [Hc Hi].
    cbn [RootBase.replace_matchUnescape_from RootBase.bracket].
    rewrite Ascii.eqb_sym, Hc, (IH Hi), string_app_assoc. reflexivity.
Qed.

(** X8: an escape character that meets no second one behind it opens
    no escape sequence: [unescape] returns such a text as it is. *)
Theorem X8_unescape_unpaired
    (decodeHexString : string -> Completion string)
    (opt : ClientBuilderOptions) (rb : RootBase.t) (e : ascii)
    (pre post : string) :
  RootBase.new opt = Some rb ->
  RootBase.delimiter rb Delimiters.Escape = Some (String e EmptyString) ->
  JS.includes pre (String e EmptyString) = false ->
  JS.includes post (String e EmptyString) = false ->
  RootBase.unescape decodeHexString rb (str (pre ++ String e post))
  = Return (pre ++ String e post).
Proof.
  intros Hnew He Hpre Hpost.
  destruct (new_spec opt rb Hnew) as (e' & f & r & c & s & C).
  assert (e' = e) as ->.
  { rewrite (c_escape _ _ _ _ _ _ C) in He. now injection He. }
  rewrite (unescape_scan _ rb e f r c s _ C).
  unfold RootBase.replace_matchUnescape.
  rewrite (c_matchUnescape _ _ _ _ _ _ C).
  rewrite (scan_plain_prefix e _ pre _ Hpre).
  cbn [RootBase.replace_matchUnescape_from RootBase.bracket].
  rewrite Ascii.eqb_refl, (scan_open_none e _ post Hpost). reflexivity.
Qed.

(** X8 at the default delimiters. *)
Lemma X8_unescape_unpaired_witness :
  RootBase.unescape noHex defaultRootBase (str ("C:" ++ "\temp"))
  = Return ("C:" ++ "\temp").
Proof.
  apply (X8_unescape_unpaired noHex defaultOptions defaultRootBase "\"%char
           "C:" "temp"); reflexivity.
Defined.
(* ================================================================== *)
(** * Further properties of the segment splitter                        *)
(* ================================================================== *)

Lemma prefix_nil_r (p : string) :
  String.prefix p EmptyString = true -> p = EmptyString.
Proof. destruct p; [reflexivity | discriminate]. Qed.

Lemma occurrences_cons (name : string) (x : ascii) (s : string) (pos : Z) :
  occurrences name (String x s) pos
  = if String.prefix (name ++ "|") (String x s)
    then pos :: occurrences name s (pos + 1)
    else occurrences name s (pos + 1).
Proof. reflexivity. Qed.

Lemma hit_shape (a b c : ascii) (s : string) :
  String.prefix (String a (String b (String c "|"))) s = true ->
  exists r, s = String a (String b (String c (String "|" r))).
Proof.
  destruct s as [|x0 [|x1 [|x2 [|x3 r]]]]; rewrite ?prefix_cons;
    try (cbn; rewrite ?andb_false_r; discriminate).
  intros H. repeat (apply andb_true_iff in H as [?%Ascii.eqb_eq H]).
  subst. now exists r.
Qed.

Section Occurrences.

Variables a b c : ascii.
Hypothesis ab : a <> b.
Hypothesis ac : a <> c.
Hypothesis abar : a <> "|"%char.
Hypothesis lines : Forall (fun x => x <> LF /\ x <> CR) [a; b; c].

Local Notation "'N'" := (String a (String b (String c EmptyString))).
Local Notation "'B'" := (String a (String b (String c "|"))).

Lemma occurrences_gap (s : string) (pos : Z) :
  String.prefix B s = true ->
  occurrences N s pos = pos :: occurrences N (JS.drop 4 s) (pos + 4).
Proof.
  intros H. destruct (hit_shape a b c s H) as [r ->].
  rewrite !occurrences_cons. cbn [append] in *. rewrite H.
  rewrite !prefix_cons.
  apply Ascii.eqb_neq in ab, ac, abar. rewrite ab, ac, abar. cbn [andb].
  cbn [JS.drop]. do 2 f_equal. lia.
Qed.

Lemma name_offset_plain (p : Z) : name_offset p B = p.
Proof.
  unfold name_offset.
  inversion lines as [|? ? [a1 a2] L1]; subst.
  inversion L1 as [|? ? [b1 b2] L2]; subst.
  inversion L2 as [|? ? [c1 c2] _]; subst.
  apply Ascii.eqb_neq in a1, a2, b1, b2, c1, c2.
  rewrite !includes_cons, !includes_nil, !prefix_cons.
  rewrite (Ascii.eqb_sym CR a), (Ascii.eqb_sym CR b), (Ascii.eqb_sym CR c),
    (Ascii.eqb_sym LF a), (Ascii.eqb_sym LF b), (Ascii.eqb_sym LF c),
    a1, a2, b1, b2, c1, c2.
  reflexivity.
Qed.

Lemma name_offset_line (p : Z) (x : ascii) :
  x = LF \/ x = CR -> name_offset p (String x B) = p + 1.
Proof.
  unfold name_offset.
  inversion lines as [|? ? [a1 a2] L1]; subst.
  inversion L1 as [|? ? [b1 b2] L2]; subst.
  inversion L2 as [|? ? [c1 c2] _]; subst.
  apply Ascii.eqb_neq in a1, a2, b1, b2, c1, c2.
  intros [->| ->];
    rewrite !includes_cons, !includes_nil, !prefix_cons;
    rewrite (Ascii.eqb_sym CR a), (Ascii.eqb_sym CR b), (Ascii.eqb_sym CR c),
      (Ascii.eqb_sym LF a), (Ascii.eqb_sym LF b), (Ascii.eqb_sym LF c),
      a1, a2, b1, b2, c1, c2;
    reflexivity.
Qed.

Lemma match_here_plain (s : string) :
  match RootBase.match_here N s with
  | Some m =>
      (m = B /\ String.prefix B s = true) \/
      (exists x s', (x = LF \/ x = CR) /\ m = String x B /\
                    s = String x s' /\ String.prefix B s' = true)
  | None => String.prefix B s = false
  end.
Proof.
  unfold RootBase.match_here. cbn [append].
  destruct (String.prefix (String LF B) s) eqn:P1.
  { right. destruct s as [|x s']; [discriminate|].
    rewrite prefix_cons in P1. apply andb_true_iff in P1 as [E P].
    apply Ascii.eqb_eq in E. subst x. exists LF, s'. auto. }
  destruct (String.prefix (String CR B) s) eqn:P2.
  { right. destruct s as [|x s']; [discriminate|].
    rewrite prefix_cons in P2. apply andb_true_iff in P2 as [E P].
    apply Ascii.eqb_eq in E. subst x. exists CR, s'. auto. }
  destruct (String.prefix B s) eqn:P3; [left; auto | reflexivity].
Qed.

Lemma line_no_hit (x : ascii) (s : string) :
  x = LF \/ x = CR -> String.prefix B (String x s) = false.
Proof.
  inversion lines as [|? ? [a1 a2] _]; subst.
  intros [-> | ->]; rewrite prefix_cons.
  - apply Ascii.eqb_neq in a1. now rewrite a1.
  - apply Ascii.eqb_neq in a2. now rewrite a2.
Qed.

(** The leftmost match and the occurrences: the match yields the first
    occurrence, and the search goes on behind the match without missing
    one. *)
Lemma search_occurrences (s : string) :
  forall pos : Z,
    match RootBase.search N s pos with
    | None => occurrences N s pos = []
    | Some (p, m) =>
        pos <= p /\
        occurrences N s pos
        = name_offset p m
            :: occurrences N
                 (JS.drop (Z.to_nat (p + JS.length m - pos)) s)
                 (p + JS.length m)
    end.
Proof.
  induction s as [|x s IH]; intros pos; cbn [RootBase.search].
  - pose proof (match_here_plain EmptyString) as M.
    destruct (RootBase.match_here N EmptyString) as [m|]; [|reflexivity].
    destruct M as [[_ P]|(y & s' & _ & _ & E & _)]; discriminate.
  - pose proof (match_here_plain (String x s)) as M.
    destruct (RootBase.match_here N (String x s)) as [m|].
    + split; [lia|].
      destruct M as [[-> P]|(y & s' & Hy & -> & E & P)].
      * rewrite (occurrences_gap _ pos P), name_offset_plain.
        unfold JS.length. cbn [String.length].
        replace (Z.to_nat (pos + Z.of_nat 4 - pos)) with 4%nat by lia.
        reflexivity.
      * injection E as <- <-.
        rewrite (name_offset_line pos x Hy).
        rewrite occurrences_cons. cbn [append]. rewrite (line_no_hit x s Hy).
        rewrite (occurrences_gap _ (pos + 1) P).
        unfold JS.length. cbn [String.length].
        replace (Z.to_nat (pos + Z.of_nat 5 - pos)) with 5%nat by lia.
        cbn [JS.drop]. do 2 f_equal. lia.
    + specialize (IH (pos + 1)).
      destruct (RootBase.search N s (pos + 1)) as [[p m]|] eqn:E.
      * destruct IH as [Hp Ho]. split; [lia|].
        rewrite occurrences_cons. cbn [append]. rewrite M, Ho.
        pose proof (search_bounds _ _ _ _ _ E) as (_ & _ & Lm).
        replace (Z.to_nat (p + JS.length m - pos))
          with (S (Z.to_nat (p + JS.length m - (pos + 1)))) by lia.
        reflexivity.
      * rewrite occurrences_cons. cbn [append]. now rewrite M.
Qed.

Lemma exec_loop_occurrences (data : string) :
  forall (fuel : nat) (lastIndex : Z) (list_ : list string),
    0 <= lastIndex <= JS.length data ->
    JS.length data - lastIndex <= Z.of_nat fuel ->
    RootBase.exec_loop (S fuel) N data lastIndex list_
    = Some (list_
            ++ numerals (occurrences N (JS.drop (Z.to_nat lastIndex) data)
                           lastIndex))%list.
Proof.
  induction fuel as [|fuel IH]; intros lastIndex list_ H0 Hf;
    rewrite exec_loop_S;
    pose proof (search_occurrences (JS.drop (Z.to_nat lastIndex) data)
                  lastIndex) as So;
    destruct (RootBase.exec N data lastIndex) as [[p m]|] eqn:E.
  - apply exec_bounds in E; [|lia]. simpl in Hf. lia.
  - unfold RootBase.exec in E.
    destruct (JS.length data <? lastIndex) eqn:G;
      [apply Z.ltb_lt in G; lia|].
    rewrite E in So. rewrite So. now rewrite app_nil_r.
  - pose proof (exec_bounds _ _ _ _ _ (proj1 H0) E) as (B1 & B2 & B3).
    unfold RootBase.exec in E.
    destruct (JS.length data <? lastIndex) eqn:G; [discriminate|].
    rewrite E in So. destruct So as [_ So].
    rewrite IH by lia. rewrite So, drop_drop, <- app_assoc.
    replace (Z.to_nat lastIndex + Z.to_nat (p + JS.length m - lastIndex))%nat
      with (Z.to_nat (p + JS.length m)) by lia.
    reflexivity.
  - unfold RootBase.exec in E.
    destruct (JS.length data <? lastIndex) eqn:G;
      [apply Z.ltb_lt in G; lia|].
    rewrite E in So. rewrite So. now rewrite app_nil_r.
Qed.

End Occurrences.

Lemma exec_loop_plain (name data : string) (list_ : list string) :
  plain_name name ->
  RootBase.exec_loop (S (String.length data)) name data 0 list_
  = Some (list_ ++ numerals (occurrences name data 0))%list.
Proof.
  intros (a & b & c & -> & ab & ac & W).
  assert (abar : a <> "|"%char).
  { inversion W as [|? ? Wa _]; subst. intros ->. discriminate Wa. }
  assert (lines : Forall (fun x => x <> LF /\ x <> CR) [a; b; c]).
  { eapply Forall_impl; [|exact W]. cbn. intros x Wx.
    split; intros ->; discriminate Wx. }
  apply (exec_loop_occurrences a b c ab ac abar lines data
           (String.length data) 0 list_); unfold JS.length; lia.
Qed.

Lemma plain_name_literal (name : string) :
  plain_name name -> RootBase.literal_name name = true.
Proof.
  intros (a & b & c & -> & _ & _ & W).
  unfold RootBase.literal_name. cbn [list_ascii_of_string].
  apply forallb_forall. rewrite Forall_forall in W. exact W.
Qed.

Lemma getSegIndexes_occurrences (data : string) (names : list string) :
  Forall plain_name names ->
  forall list_ : list string,
    RootBase._getSegIndexes names data list_
    = Some (list_
            ++ numerals (flat_map (fun name => occurrences name data 0)
                           names))%list.
Proof.
  induction 1 as [|name names Pn _ IH]; intros list_;
    cbn [RootBase._getSegIndexes flat_map].
  - cbn. now rewrite app_nil_r.
  - rewrite (plain_name_literal name Pn).
    rewrite (exec_loop_plain name data list_ Pn), IH.
    unfold numerals. now rewrite map_app, app_assoc.
Qed.

Lemma boundaryNames_plain : Forall plain_name RootBase.boundaryNames.
Proof.
  repeat constructor;
    (eexists _, _, _; split; [reflexivity|];
     repeat split; try discriminate; repeat constructor).
Qed.

(** ** The offsets that pass a test *)

Lemma In_positions (test : string -> bool) (s : string) :
  test EmptyString = false ->
  forall (pos z : Z),
    In z (positions test s pos) <->
    exists k : nat, z = pos + Z.of_nat k /\ test (JS.drop k s) = true.
Proof.
  intros T. induction s as [|x s IH]; intros pos z.
  - split; [intros []|]. intros (k & _ & H).
    destruct k; simpl in H; congruence.
  - assert (R : In z (positions test s (pos + 1)) <->
                exists k, z = pos + Z.of_nat (S k) /\
                          test (JS.drop (S k) (String x s)) = true).
    { rewrite IH. split; intros (k & -> & H); exists k; split;
        try exact H; lia. }
    cbn [positions]. split.
    + destruct (test (String x s)) eqn:E.
      * intros [<-|I].
        -- exists O. split; [lia | exact E].
        -- apply R in I as (k & -> & H). now exists (S k).
      * intros I. apply R in I as (k & -> & H). now exists (S k).
    + intros ([|k] & -> & H).
      * cbn [JS.drop] in H. rewrite H. left. lia.
      * assert (I : In (pos + Z.of_nat (S k)) (positions test s (pos + 1)))
          by (apply R; now exists k).
        destruct (test (String x s)); [now right | exact I].
Qed.

Lemma positions_bounds (test : string -> bool) (s : string) :
  forall pos : Z,
    Forall (fun z => pos <= z < pos + JS.length s) (positions test s pos).
Proof.
  induction s as [|x s IH]; intros pos; cbn [positions]; [constructor|].
  assert (F : Forall (fun z => pos <= z < pos + JS.length (String x s))
                (positions test s (pos + 1))).
  { eapply Forall_impl; [|apply IH]. unfold JS.length. cbn [String.length].
    intros z. cbn. lia. }
  destruct (test (String x s)); [constructor|]; try exact F.
  unfold JS.length. cbn [String.length]. lia.
Qed.

Lemma positions_sorted (test : string -> bool) (s : string) :
  forall pos : Z, StronglySorted Z.lt (positions test s pos).
Proof.
  induction s as [|x s IH]; intros pos; cbn [positions]; [constructor|].
  destruct (test (String x s)); [|apply IH].
  constructor; [apply IH|].
  eapply Forall_impl; [|apply positions_bounds]. cbn. intros; lia.
Qed.

Lemma sorted_lt_NoDup (l : list Z) : StronglySorted Z.lt l -> NoDup l.
Proof.
  induction 1 as [|x l S IH F]; constructor; [|exact IH].
  intros I. rewrite Forall_forall in F. specialize (F x I). lia.
Qed.

Lemma sorted_le_NoDup (l : list Z) :
  StronglySorted Z.le l -> NoDup l -> StronglySorted Z.lt l.
Proof.
  induction 1 as [|x l S IH F]; intros D; constructor;
    inversion D as [|? ? Nx Dl]; subst.
  - now apply IH.
  - rewrite Forall_forall in *. intros y Iy. specialize (F y Iy).
    assert (x <> y) by (intros ->; contradiction). lia.
Qed.

(** Two strictly ascending lists with the same elements are the same
    list. *)
Lemma sorted_lt_unique (l1 : list Z) :
  forall l2 : list Z,
    StronglySorted Z.lt l1 -> StronglySorted Z.lt l2 ->
    (forall z, In z l1 <-> In z l2) -> l1 = l2.
Proof.
  induction l1 as [|x l1 IH]; intros [|y l2] S1 S2 E.
  - reflexivity.
  - destruct (proj2 (E y)); now left.
  - destruct (proj1 (E x)); now left.
  - inversion S1 as [|? ? S1' F1]; inversion S2 as [|? ? S2' F2]; subst.
    rewrite Forall_forall in F1, F2.
    assert (x = y).
    { destruct (proj1 (E x) (or_introl eq_refl)) as [->|Ix]; [reflexivity|].
      destruct (proj2 (E y) (or_introl eq_refl)) as [->|Iy]; [reflexivity|].
      specialize (F1 y Iy). specialize (F2 x Ix). lia. }
    subst y. f_equal. apply IH; try assumption.
    intros z. split; intros I.
    + destruct (proj1 (E z) (or_intror I)) as [<-|I']; [|exact I'].
      specialize (F1 x I). lia.
    + destruct (proj2 (E z) (or_intror I)) as [<-|I']; [|exact I'].
      specialize (F2 x I). lia.
Qed.

Lemma NoDup_flat_map {A B : Type} (f : A -> list B) (l : list A) :
  NoDup l ->
  (forall x, In x l -> NoDup (f x)) ->
  (forall x y z, In x l -> In y l -> In z (f x) -> In z (f y) -> x = y) ->
  NoDup (flat_map f l).
Proof.
  induction 1 as [|x l Nx D IH]; intros Nf Dj; cbn [flat_map];
    [constructor|].
  apply NoDup_app.
  - apply Nf. now left.
  - apply IH.
    + intros y Iy. apply Nf. now right.
    + intros y y' z Iy Iy'. apply Dj; now right.
  - intros z Iz Iz'. apply in_flat_map in Iz' as (y & Iy & Izy).
    assert (x = y) by (apply (Dj x y z); auto; [now left | now right]).
    subst y. contradiction.
Qed.

Lemma prefix_same_length (p q t : string) :
  String.prefix p t = true -> String.prefix q t = true ->
  String.length p = String.length q -> p = q.
Proof.
  revert q t. induction p as [|x p IH]; intros [|y q] t Hp Hq L;
    try reflexivity; try discriminate.
  destruct t as [|z t]; [discriminate|].
  rewrite prefix_cons in Hp, Hq.
  apply andb_true_iff in Hp as [->%Ascii.eqb_eq Hp].
  apply andb_true_iff in Hq as [->%Ascii.eqb_eq Hq].
  f_equal. apply (IH q t Hp Hq). simpl in L. lia.
Qed.

Lemma append_inj_l (p q r : string) :
  String.length p = String.length q -> p ++ r = q ++ r -> p = q.
Proof.
  revert q. induction p as [|x p IH]; intros [|y q] L E;
    try reflexivity; try discriminate.
  simpl in *. injection E as -> E. f_equal. apply IH; [lia | exact E].
Qed.

Lemma prefix_name_nil (name : string) :
  String.prefix (name ++ "|") EmptyString = false.
Proof. now destruct name. Qed.

Lemma In_occurrences (name s : string) (pos z : Z) :
  In z (occurrences name s pos) <->
  exists k : nat,
    z = pos + Z.of_nat k /\ String.prefix (name ++ "|") (JS.drop k s) = true.
Proof. apply In_positions, prefix_name_nil. Qed.

Lemma In_boundaries (s : string) (pos z : Z) :
  In z (boundaries s pos) <->
  exists k : nat,
    z = pos + Z.of_nat k /\ starts_with_boundary (JS.drop k s) = true.
Proof. now apply In_positions. Qed.

Lemma In_all_occurrences (data : string) (z : Z) :
  In z (flat_map (fun name => occurrences name data 0)
          RootBase.boundaryNames)
  <-> In z (boundaries data 0).
Proof.
  rewrite in_flat_map, In_boundaries. split.
  - intros (name & I & Io). apply In_occurrences in Io as (k & -> & P).
    exists k. split; [reflexivity|]. unfold starts_with_boundary.
    apply existsb_exists. now exists name.
  - intros (k & -> & P). unfold starts_with_boundary in P.
    apply existsb_exists in P as (name & I & P).
    exists name. split; [exact I|]. apply In_occurrences. now exists k.
Qed.

Lemma all_occurrences_NoDup (data : string) :
  NoDup (flat_map (fun name => occurrences name data 0)
           RootBase.boundaryNames).
Proof.
  apply NoDup_flat_map.
  - repeat constructor; cbv; intuition discriminate.
  - intros name _. apply sorted_lt_NoDup, positions_sorted.
  - intros n1 n2 z I1 I2 O1 O2.
    apply In_occurrences in O1 as (k1 & -> & P1).
    apply In_occurrences in O2 as (k2 & E & P2).
    assert (k2 = k1) by lia. subst k2.
    assert (L : String.length n1 = String.length n2).
    { pose proof boundaryNames_plain as F. rewrite Forall_forall in F.
      destruct (F n1 I1) as (? & ? & ? & -> & _).
      destruct (F n2 I2) as (? & ? & ? & -> & _). reflexivity. }
    apply (append_inj_l n1 n2 "|" L).
    apply (prefix_same_length _ _ _ P1 P2).
    rewrite !length_append. now rewrite L.
Qed.

(** The sorted offsets [split] cuts at are the boundaries of the data. *)
Lemma sorted_found_boundaries (data : string) :
  JS.sort byDifference
    (flat_map (fun name => occurrences name data 0) RootBase.boundaryNames)
  = boundaries data 0.
Proof.
  set (found := flat_map _ _).
  assert (P : Permutation (JS.sort byDifference found) found)
    by apply sort_perm.
  apply sorted_lt_unique.
  - apply sorted_le_NoDup.
    + apply (sort_ascending byDifference (fun z => z) (fun _ => True)
               byDifference_key).
      apply Forall_forall. auto.
    + eapply Permutation_NoDup; [symmetry; exact P|].
      apply all_occurrences_NoDup.
  - apply positions_sorted.
  - intros z. rewrite <- In_all_occurrences. fold found. split; intros I.
    + eapply Permutation_in; [exact P | exact I].
    + eapply Permutation_in; [symmetry; exact P | exact I].
Qed.

Lemma split_at_boundaries (data : string) (segments : list string) :
  RootBase.split data segments
  = Some (segments ++ segments_at data (boundaries data 0))%list.
Proof.
  destruct (split_segments data segments) as (found & Hf & _ & Hs).
  rewrite (getSegIndexes_occurrences data _ boundaryNames_plain) in Hf.
  cbn [app] in Hf. injection Hf as Hf. apply numerals_inj in Hf.
  subst found. rewrite Hs. do 3 f_equal. apply sorted_found_boundaries.
Qed.

Lemma sorted_lt_le (l : list Z) :
  StronglySorted Z.lt l -> StronglySorted Z.le l.
Proof.
  induction 1 as [|x l S IH F]; constructor; [exact IH|].
  eapply Forall_impl; [|exact F]. cbn. intros; lia.
Qed.

Lemma boundaries_at (data : string) (o : Z) :
  In o (boundaries data 0) <->
  0 <= o /\ starts_with_boundary (JS.drop (Z.to_nat o) data) = true.
Proof.
  rewrite In_boundaries. split.
  - intros (k & -> & B). split; [lia|].
    now replace (Z.to_nat (0 + Z.of_nat k)) with k by lia.
  - intros [H B]. exists (Z.to_nat o). split; [lia | exact B].
Qed.

(** C3 (as amended): the offsets [split] cuts at are exactly the offsets
    at which a boundary name followed by [|] stands, in ascending order;
    each segment runs from its offset to the next one and the last to the
    end of the input, so that the segments are contiguous, do not overlap
    and together are the input from the first of these offsets on: the
    whole input when it begins with a boundary name followed by [|], and
    nothing when there is no such offset.  The input
    "MSH|^~\&|X\rMSH|^~\&|Y" yields its two messages, the first with its
    terminator, and their concatenation is the input. *)
Theorem C3_split_contiguous :
  (forall data : string,
      let offsets := boundaries data 0 in
      (forall o : Z,
          In o offsets <->
          0 <= o /\
          starts_with_boundary (JS.drop (Z.to_nat o) data) = true) /\
      StronglySorted Z.lt offsets /\
      Forall (in_data data) offsets /\
      RootBase.split data [] = Some (segments_at data offsets) /\
      String.concat EmptyString (segments_at data offsets)
      = JS.slice data (hd (JS.length data) offsets) (JS.length data) /\
      (if starts_with_boundary data
       then String.concat EmptyString (segments_at data offsets) = data
       else True)) /\
  RootBase.split ("MSH|^~\&|X" ++ String CR "MSH|^~\&|Y") []
  = Some ["MSH|^~\&|X" ++ String CR EmptyString; "MSH|^~\&|Y"] /\
  String.concat EmptyString
    ["MSH|^~\&|X" ++ String CR EmptyString; "MSH|^~\&|Y"]
  = "MSH|^~\&|X" ++ String CR "MSH|^~\&|Y".
Proof.
  split; [|split; vm_compute; reflexivity].
  intros data offsets. subst offsets.
  assert (S : StronglySorted Z.lt (boundaries data 0))
    by apply positions_sorted.
  assert (B : Forall (in_data data) (boundaries data 0)).
  { eapply Forall_impl; [|apply positions_bounds]. unfold in_data. cbn.
    intros; lia. }
  pose proof (concat_segments_at data _ (sorted_lt_le _ S) B) as C.
  split; [apply boundaries_at|].
  split; [exact S|]. split; [exact B|].
  split; [apply (split_at_boundaries data [])|].
  split; [exact C|].
  destruct (starts_with_boundary data) eqn:W; [|exact I].
  rewrite C, (sorted_head_zero data _ (sorted_lt_le _ S) B).
  - apply slice_all.
  - apply boundaries_at. split; [lia | exact W].
Qed.

(** X9: [split] cuts the data exactly at the offsets where one of the
    five boundary names followed by [|] stands, each offset once and in
    ascending order, and appends the segments to the list it was given. *)
Theorem X9_split_boundaries (data : string) (segments : list string) :
  RootBase.split data segments
  = Some (segments ++ segments_at data (boundaries data 0))%list.
Proof. apply split_at_boundaries. Qed.

(** ** The segments *)

Lemma slice_take_drop (s : string) (a b : Z) :
  0 <= a <= b -> b <= JS.length s ->
  JS.slice s a b = JS.take (Z.to_nat (b - a)) (JS.drop (Z.to_nat a) s).
Proof.
  intros Hab Hb. unfold JS.slice, JS.range.
  rewrite !relative_nonneg by lia. now rewrite !Z.min_l by lia.
Qed.

Lemma prefix_take (p : string) :
  forall (n : nat) (t : string),
    String.prefix p (JS.take n t) = true -> String.prefix p t = true.
Proof.
  induction p as [|x p IH]; intros n t H; [now destruct t|].
  destruct n as [|n], t as [|y t]; try discriminate.
  cbn [JS.take] in H. rewrite prefix_cons in *.
  apply andb_true_iff in H as [-> H]. now rewrite (IH n t H).
Qed.

Lemma take_prefix (p : string) :
  forall (n : nat) (t : string),
    String.prefix p t = true -> (String.length p <= n)%nat ->
    String.prefix p (JS.take n t) = true.
Proof.
  induction p as [|x p IH]; intros n t H L.
  - now destruct (JS.take n t).
  - destruct t as [|y t]; [discriminate|].
    destruct n as [|n]; [simpl in L; lia|].
    cbn [JS.take]. rewrite prefix_cons in *.
    apply andb_true_iff in H as [-> H]. cbn [andb].
    apply IH; [exact H | simpl in L; lia].
Qed.

Lemma drop_take (k : nat) :
  forall (n : nat) (t : string),
    JS.drop k (JS.take n t) = JS.take (n - k) (JS.drop k t).
Proof.
  induction k as [|k IH]; intros n t.
  - now rewrite Nat.sub_0_r.
  - destruct n as [|n]; destruct t as [|y t'];
      cbn [JS.take JS.drop Nat.sub]; try reflexivity.
    + now destruct (n - k)%nat.
    + apply IH.
Qed.

Lemma boundary_length (name : string) :
  In name RootBase.boundaryNames -> String.length (name ++ "|") = 4%nat.
Proof.
  intros I. cbv in I.
  repeat (destruct I as [<-|I]; [reflexivity|]). destruct I.
Qed.

Lemma starts_with_boundary_take (n : nat) (t : string) :
  starts_with_boundary (JS.take n t) = true ->
  starts_with_boundary t = true.
Proof.
  unfold starts_with_boundary. rewrite !existsb_exists.
  intros (name & I & P). exists name. split; [exact I|].
  now apply (prefix_take _ n).
Qed.

Lemma take_starts_with_boundary (n : nat) (t : string) :
  starts_with_boundary t = true -> (4 <= n)%nat ->
  starts_with_boundary (JS.take n t) = true.
Proof.
  unfold starts_with_boundary. rewrite !existsb_exists.
  intros (name & I & P) L. exists name. split; [exact I|].
  apply take_prefix; [exact P|]. now rewrite boundary_length.
Qed.

Lemma starts_with_boundary_length (t : string) :
  starts_with_boundary t = true -> (4 <= String.length t)%nat.
Proof.
  unfold starts_with_boundary. rewrite existsb_exists.
  intros (name & I & P). apply prefix_length in P.
  now rewrite boundary_length in P.
Qed.

(** Behind a boundary the next three offsets are no boundary. *)
Lemma boundary_alone (t : string) :
  starts_with_boundary t = true ->
  starts_with_boundary (JS.drop 1 t) = false /\
  starts_with_boundary (JS.drop 2 t) = false /\
  starts_with_boundary (JS.drop 3 t) = false.
Proof.
  unfold starts_with_boundary at 1. rewrite existsb_exists.
  intros (name & I & P). cbv in I.
  repeat (destruct I as [<-|I];
          [apply hit_shape in P as [r ->]; repeat split; reflexivity|]).
  destruct I.
Qed.

Lemma boundaries_apart (s : string) (pos x y : Z) :
  In x (boundaries s pos) -> In y (boundaries s pos) -> x < y ->
  x + 4 <= y.
Proof.
  intros Ix Iy L.
  apply In_boundaries in Ix as (k1 & -> & B1).
  apply In_boundaries in Iy as (k2 & -> & B2).
  destruct (boundary_alone _ B1) as (A1 & A2 & A3).
  rewrite !drop_drop in A1, A2, A3.
  destruct (Z.le_gt_cases (pos + Z.of_nat k1 + 4) (pos + Z.of_nat k2))
    as [G|G]; [exact G|].
  assert (C : k2 = (k1 + 1)%nat \/ k2 = (k1 + 2)%nat \/ k2 = (k1 + 3)%nat)
    by lia.
  destruct C as [->|[->| ->]]; congruence.
Qed.

(** A segment cut from a boundary to the next one, or to the end, holds
    one boundary, at its start. *)
Lemma segment_single (data : string) (o next : Z) :
  In o (boundaries data 0) ->
  o < next ->
  next = JS.length data \/ In next (boundaries data 0) ->
  (forall z, In z (boundaries data 0) -> o < z -> next <= z) ->
  single_boundary (JS.slice data o next).
Proof.
  intros Io Hn Hnext Hz. unfold single_boundary.
  pose proof Io as Io'.
  apply In_boundaries in Io' as (ko & Eo & Bo). cbn in Eo.
  pose proof (starts_with_boundary_length _ Bo) as Lo.
  rewrite drop_length in Lo.
  assert (L : 4 <= next - o /\ next <= JS.length data).
  { destruct Hnext as [->|In'].
    - unfold JS.length. lia.
    - pose proof (boundaries_apart data 0 o next Io In' Hn).
      pose proof (positions_bounds starts_with_boundary data 0) as Bd.
      rewrite Forall_forall in Bd. specialize (Bd next In'). lia. }
  destruct L as [L Ln].
  apply sorted_lt_unique.
  - apply positions_sorted.
  - repeat constructor.
  - intros z. rewrite In_boundaries. cbn [In].
    rewrite slice_take_drop by lia. split.
    + intros (k & -> & Bk). left.
      rewrite drop_take, drop_drop in Bk.
      pose proof Bk as Bk'. apply starts_with_boundary_take in Bk'.
      apply starts_with_boundary_length in Bk.
      rewrite take_length in Bk.
      assert (Iz : In (o + Z.of_nat k) (boundaries data 0)).
      { apply In_boundaries. exists (Z.to_nat o + k)%nat. split; [lia|].
        exact Bk'. }
      destruct k as [|k]; [reflexivity|].
      specialize (Hz _ Iz). lia.
    + intros [<-|[]]. exists O. split; [reflexivity|].
      cbn [JS.drop]. apply take_starts_with_boundary; [|lia].
      now replace (Z.to_nat o) with ko by lia.
Qed.

Lemma segments_single (data : string) (offsets : list Z) :
  StronglySorted Z.lt offsets ->
  (forall z, In z offsets -> In z (boundaries data 0)) ->
  (forall z, In z (boundaries data 0) ->
             hd (JS.length data) offsets <= z -> In z offsets) ->
  Forall single_boundary (segments_at data offsets).
Proof.
  induction 1 as [|o rest S IH F]; intros Sub Sup; cbn [segments_at];
    constructor.
  - rewrite Forall_forall in F.
    assert (Io : In o (boundaries data 0)) by (apply Sub; now left).
    pose proof (positions_bounds starts_with_boundary data 0) as Bd.
    rewrite Forall_forall in Bd.
    apply segment_single; [exact Io| | |].
    + destruct rest as [|o' rest]; [apply (Bd o Io)|].
      apply F. now left.
    + destruct rest as [|o' rest]; [now left|].
      right. apply Sub. right. now left.
    + intros z Iz Lz. cbn [hd] in Sup.
      destruct (Sup z Iz) as [->|Ir]; [lia|lia|].
      destruct rest as [|o' rest]; [destruct Ir|].
      destruct Ir as [->|Ir]; [lia|].
      inversion S as [|? ? _ F']; subst. rewrite Forall_forall in F'.
      specialize (F' z Ir). lia.
  - apply IH.
    + intros z Iz. apply Sub. now right.
    + intros z Iz Lz.
      rewrite Forall_forall in F.
      destruct rest as [|o' rest].
      * cbn [hd] in Lz.
        pose proof (positions_bounds starts_with_boundary data 0) as Bd.
        rewrite Forall_forall in Bd. specialize (Bd z Iz). lia.
      * cbn [hd] in Lz. specialize (F o' (or_introl eq_refl)).
        destruct (Sup z Iz) as [->|Ir]; [cbn [hd]; lia|lia|exact Ir].
Qed.

(** X10: every segment [split] returns holds exactly one boundary name
    followed by [|], and begins with it. *)
Theorem X10_split_single_boundary (data : string) :
  exists segments : list string,
    RootBase.split data [] = Some segments /\
    Forall single_boundary segments /\
    Forall (fun segment => starts_with_boundary segment = true) segments.
Proof.
  exists (segments_at data (boundaries data 0)).
  split; [apply (split_at_boundaries data [])|].
  assert (F : Forall single_boundary
                (segments_at data (boundaries data 0))).
  { apply segments_single; [apply positions_sorted|auto|auto]. }
  split; [exact F|].
  eapply Forall_impl; [|exact F]. intros seg Hs.
  unfold single_boundary in Hs.
  assert (I : In 0 (boundaries seg 0)) by (rewrite Hs; now left).
  apply In_boundaries in I as (k & E & B).
  now replace k with O in B by lia.
Qed.

(** ** Joining segments and splitting them again *)

Lemma prefix_append (p : string) :
  forall t rest : string,
    String.prefix p t = true -> String.prefix p (t ++ rest) = true.
Proof.
  induction p as [|x p IH]; intros t rest H; [now destruct (t ++ rest)|].
  destruct t as [|y t]; [discriminate|]. cbn [append].
  rewrite prefix_cons in *. apply andb_true_iff in H as [-> H].
  now rewrite (IH t rest H).
Qed.

Lemma prefix_append_long (p : string) :
  forall t rest : string,
    (String.length p <= String.length t)%nat ->
    String.prefix p (t ++ rest) = String.prefix p t.
Proof.
  induction p as [|x p IH]; intros t rest L.
  - destruct t; [now destruct rest | reflexivity].
  - destruct t as [|y t]; [simpl in L; lia|]. cbn [append].
    rewrite !prefix_cons. f_equal. apply IH. simpl in L. lia.
Qed.

Lemma starts_with_boundary_append (t rest : string) :
  starts_with_boundary t = true -> starts_with_boundary (t ++ rest) = true.
Proof.
  unfold starts_with_boundary. rewrite !existsb_exists.
  intros (name & I & P). exists name. split; [exact I|].
  now apply prefix_append.
Qed.

(** No boundary name followed by [|] begins in the last three code units
    in front of a boundary. *)
Lemma no_boundary_across (t rest : string) :
  t <> EmptyString -> (String.length t <= 3)%nat ->
  starts_with_boundary rest = true ->
  starts_with_boundary (t ++ rest) = false.
Proof.
  intros Ne L. unfold starts_with_boundary at 1. rewrite existsb_exists.
  intros (name & I & P). cbv in I.
  destruct t as [|x [|y [|z [|w t]]]]; [congruence| | | |simpl in L; lia];
    repeat (destruct I as [<-|I];
            [apply hit_shape in P as [r ->];
             unfold starts_with_boundary;
             cbn [existsb RootBase.boundaryNames append];
             rewrite !prefix_cons; cbn [Ascii.eqb Bool.eqb andb orb];
             rewrite ?andb_false_r; reflexivity|]);
    destruct I.
Qed.

Lemma no_boundary_joint (t rest : string) :
  t <> EmptyString ->
  starts_with_boundary t = false ->
  rest = EmptyString \/ starts_with_boundary rest = true ->
  starts_with_boundary (t ++ rest) = false.
Proof.
  intros Ne Nt [->|Br]; [now rewrite append_nil_r|].
  destruct (le_lt_dec (String.length t) 3) as [L|L];
    [now apply no_boundary_across|].
  destruct (starts_with_boundary (t ++ rest)) eqn:E; [|reflexivity].
  unfold starts_with_boundary in E, Nt.
  apply existsb_exists in E as (name & I & P).
  rewrite prefix_append_long in P by (rewrite boundary_length by exact I; lia).
  assert (T : existsb (fun name => String.prefix (name ++ "|") t)
                RootBase.boundaryNames = true)
    by (apply existsb_exists; now exists name).
  congruence.
Qed.

Lemma positions_nil (test : string -> bool) (s : string) :
  forall pos pos' : Z,
    positions test s pos = [] -> positions test s pos' = [].
Proof.
  induction s as [|x s IH]; intros pos pos'; cbn [positions];
    [reflexivity|].
  destruct (test (String x s)); [discriminate|]. apply IH.
Qed.

Lemma no_boundary_append (rest : string) :
  rest = EmptyString \/ starts_with_boundary rest = true ->
  forall (t : string) (pos : Z),
    boundaries t pos = [] ->
    boundaries (t ++ rest) pos = boundaries rest (pos + JS.length t).
Proof.
  intros Hr. induction t as [|x t IH]; intros pos H.
  - cbn [append]. unfold JS.length. cbn. now rewrite Z.add_0_r.
  - unfold boundaries in *. cbn [positions append] in *.
    destruct (starts_with_boundary (String x t)) eqn:E; [discriminate|].
    change (String x (t ++ rest)) with (String x t ++ rest).
    rewrite (no_boundary_joint (String x t) rest) by (congruence || auto).
    rewrite (IH _ H). unfold JS.length. cbn [String.length]. f_equal. lia.
Qed.

Lemma single_boundary_append (m rest : string) (pos : Z) :
  single_boundary m ->
  rest = EmptyString \/ starts_with_boundary rest = true ->
  boundaries (m ++ rest) pos = pos :: boundaries rest (pos + JS.length m).
Proof.
  unfold single_boundary. intros Hm Hr.
  destruct m as [|x m]; [discriminate|].
  unfold boundaries in Hm |- *. cbn [positions append] in Hm |- *.
  pose proof (positions_bounds starts_with_boundary m (0 + 1)) as Bd.
  destruct (starts_with_boundary (String x m)) eqn:E.
  - injection Hm as Hm.
    change (String x (m ++ rest)) with (String x m ++ rest).
    rewrite (starts_with_boundary_append _ rest E). f_equal.
    fold boundaries in *.
    rewrite (no_boundary_append rest Hr m (pos + 1))
      by (apply (positions_nil _ _ (0 + 1)); exact Hm).
    unfold JS.length. cbn [String.length]. f_equal. lia.
  - rewrite Hm in Bd. inversion Bd; subst. lia.
Qed.

Lemma single_boundary_starts (m : string) :
  single_boundary m -> starts_with_boundary m = true.
Proof.
  unfold single_boundary. intros Hm.
  assert (I : In 0 (boundaries m 0)) by (rewrite Hm; now left).
  apply In_boundaries in I as (k & E & B).
  now replace k with O in B by lia.
Qed.

Lemma concat_single_boundary (msgs : list string) :
  Forall single_boundary msgs ->
  String.concat EmptyString msgs = EmptyString \/
  starts_with_boundary (String.concat EmptyString msgs) = true.
Proof.
  intros [|m ms Hm _]; [now left|]. right. rewrite concat_cons.
  apply starts_with_boundary_append, single_boundary_starts, Hm.
Qed.

Lemma slice_middle (pre m rest : string) :
  JS.slice (pre ++ m ++ rest) (JS.length pre) (JS.length pre + JS.length m)
  = m.
Proof.
  rewrite slice_take_drop;
    [|unfold JS.length; lia
     |unfold JS.length; rewrite !length_append; lia].
  replace (Z.to_nat (JS.length pre + JS.length m - JS.length pre))
    with (String.length m) by (unfold JS.length; lia).
  replace (Z.to_nat (JS.length pre)) with (String.length pre)
    by (unfold JS.length; lia).
  assert (D : forall a b, JS.drop (String.length a) (a ++ b) = b)
    by (induction a; intros; simpl; auto).
  rewrite D. apply take_app.
Qed.

Lemma segments_at_concat (msgs : list string) :
  Forall single_boundary msgs ->
  forall pre : string,
    segments_at (pre ++ String.concat EmptyString msgs)
      (boundaries (String.concat EmptyString msgs) (JS.length pre))
    = msgs.
Proof.
  induction 1 as [|m ms Hm Hms IH]; intros pre; [reflexivity|].
  rewrite concat_cons.
  rewrite (single_boundary_append m _ _ Hm (concat_single_boundary ms Hms)).
  cbn [segments_at]. f_equal.
  - replace (match boundaries (String.concat EmptyString ms)
                     (JS.length pre + JS.length m) with
             | [] => JS.length (pre ++ m ++ String.concat EmptyString ms)
             | o' :: _ => o'
             end) with (JS.length pre + JS.length m);
      [apply slice_middle|].
    destruct Hms as [|m2 ms' Hm2 Hms'].
    + cbn. unfold JS.length. rewrite !length_append. cbn. lia.
    + rewrite concat_cons.
      now rewrite (single_boundary_append m2 _ _ Hm2
                     (concat_single_boundary ms' Hms')).
  - rewrite <- string_app_assoc.
    replace (JS.length pre + JS.length m) with (JS.length (pre ++ m))
      by (unfold JS.length; rewrite length_append; lia).
    apply IH.
Qed.

(** X11: joined segments are split back: when each text of a list holds
    one boundary name followed by [|], at its start, [split] of their
    concatenation returns the list. *)
Theorem X11_split_concat (msgs : list string) :
  Forall single_boundary msgs ->
  RootBase.split (String.concat EmptyString msgs) [] = Some msgs.
Proof.
  intros H. rewrite split_at_boundaries. cbn [app]. f_equal.
  apply (segments_at_concat msgs H EmptyString).
Qed.

(** X11 for a file header, a message and a file trailer. *)
Lemma X11_split_concat_witness :
  RootBase.split
    (String.concat EmptyString
       ["FHS|^~\&|F" ++ String CR EmptyString;
        "MSH|^~\&|X" ++ String CR ("PID|1" ++ String CR EmptyString);
        "FTS|1"]) []
  = Some ["FHS|^~\&|F" ++ String CR EmptyString;
          "MSH|^~\&|X" ++ String CR ("PID|1" ++ String CR EmptyString);
          "FTS|1"].
Proof.
  apply X11_split_concat. repeat constructor.
Defined.

(** X12: for names of three letters or digits, which the pattern takes
    as they are, and whose first code unit does not come back in the name
    (the five boundary names are such), [_getSegIndexes] appends, name
    after name, the numerals of all offsets at which the name followed by
    [|] stands, in ascending order: the offset of the name itself, also
    when the match began with the line terminator in front of it. *)
Theorem X12_getSegIndexes_occurrences
    (names : list string) (data : string) (list_ : list string) :
  Forall plain_name names ->
  RootBase._getSegIndexes names data list_
  = Some (list_
          ++ numerals (flat_map (fun name => occurrences name data 0)
                         names))%list.
Proof. intros H. now apply getSegIndexes_occurrences. Qed.

(** X12 for the boundary names on two messages. *)
Lemma X12_getSegIndexes_occurrences_witness :
  RootBase._getSegIndexes RootBase.boundaryNames
    ("MSH|^~\&|X" ++ String CR "MSH|^~\&|Y") []
  = Some ["0"; "11"].
Proof.
  apply (X12_getSegIndexes_occurrences RootBase.boundaryNames
           ("MSH|^~\&|X" ++ String CR "MSH|^~\&|Y") []).
  exact boundaryNames_plain.
Defined.

(* ================================================================== *)
(** * Further properties of the outbound channel                        *)
(* ================================================================== *)

(** ** Frames *)

Lemma footer_not_across (m tail : string) :
  m <> EmptyString ->
  JS.includes m PROTOCOL_MLLP_FOOTER = false ->
  String.prefix PROTOCOL_MLLP_FOOTER (m ++ PROTOCOL_MLLP_FOOTER ++ tail)
  = false.
Proof.
  intros Ne I. destruct m as [|c m]; [congruence|].
  rewrite includes_cons in I. apply orb_false_iff in I as [P _].
  unfold PROTOCOL_MLLP_FOOTER in *. cbn [append] in *.
  destruct m as [|d m]; cbn [append]; rewrite !prefix_cons in *.
  - replace (Ascii.eqb (ascii_of_nat 13) (ascii_of_nat 28)) with false
      by reflexivity.
    cbn [andb]. now rewrite andb_false_r.
  - assert (N : forall s, String.prefix EmptyString s = true)
      by (now intros []).
    rewrite N in *. exact P.
Qed.

Lemma indexOf_footer (m tail : string) :
  JS.includes m PROTOCOL_MLLP_FOOTER = false ->
  JS.indexOf (m ++ PROTOCOL_MLLP_FOOTER ++ tail) PROTOCOL_MLLP_FOOTER
  = JS.length m.
Proof.
  induction m as [|c m IH]; intros I.
  - cbn [append]. unfold PROTOCOL_MLLP_FOOTER. cbn [append].
    rewrite indexOf_cons, !prefix_cons, !Ascii.eqb_refl. now destruct tail.
  - cbn [append]. rewrite indexOf_cons.
    change (String c (m ++ PROTOCOL_MLLP_FOOTER ++ tail))
      with (String c m ++ PROTOCOL_MLLP_FOOTER ++ tail).
    rewrite footer_not_across by (congruence || exact I).
    rewrite includes_cons in I. apply orb_false_iff in I as [_ I].
    rewrite (IH I). unfold JS.length. cbn [String.length].
    destruct (Z.of_nat (String.length m) <? 0) eqn:E;
      [apply Z.ltb_lt in E; lia | lia].
Qed.

Lemma replace_footer (m tail : string) :
  JS.includes m PROTOCOL_MLLP_FOOTER = false ->
  JS.replace (m ++ PROTOCOL_MLLP_FOOTER ++ tail) PROTOCOL_MLLP_FOOTER
    EmptyString
  = m ++ tail.
Proof.
  induction m as [|c m IH]; intros I.
  - cbn [append]. unfold PROTOCOL_MLLP_FOOTER. cbn [append JS.replace].
    rewrite !prefix_cons, !Ascii.eqb_refl.
    now destruct tail.
  - cbn [append JS.replace].
    change (String c (m ++ PROTOCOL_MLLP_FOOTER ++ tail))
      with (String c m ++ PROTOCOL_MLLP_FOOTER ++ tail).
    rewrite footer_not_across by (congruence || exact I).
    rewrite includes_cons in I. apply orb_false_iff in I as [_ I].
    now rewrite (IH I).
Qed.

Lemma drop_app (a b : string) : JS.drop (String.length a) (a ++ b) = b.
Proof. induction a; simpl; auto. Qed.

Lemma frames_cons (m : string) (ms : list string) :
  frames (m :: ms) = HL7Outbound.messageToSend m ++ frames ms.
Proof. unfold frames. cbn [map]. apply concat_cons. Qed.

Lemma frames_app (l1 l2 : list string) :
  frames (l1 ++ l2) = frames l1 ++ frames l2.
Proof.
  induction l1 as [|m l1 IH]; [reflexivity|].
  cbn [app]. now rewrite !frames_cons, IH, string_app_assoc.
Qed.

Lemma substring_take (s : string) (b : Z) :
  0 <= b <= JS.length s -> JS.substring s 0 b = JS.take (Z.to_nat b) s.
Proof.
  intros H. unfold JS.substring, JS.clamp, JS.range.
  replace (Z.min (Z.max 0 0) (JS.length s)) with 0 by lia.
  replace (Z.min (Z.max b 0) (JS.length s)) with b by lia.
  replace (Z.min 0 b) with 0 by lia. replace (Z.max 0 b) with b by lia.
  now rewrite Z.sub_0_r.
Qed.

(** One round of the loop on a buffer that begins with a frame. *)
Lemma data_loop_frame (newResponse : string -> Completion string)
    (fuel : nat) (this : HL7Outbound.state)
    (handler : string -> bool) (m tail : string) :
  HL7Outbound._handler this = Some handler ->
  HL7Outbound._responseBuffer this = HL7Outbound.messageToSend m ++ tail ->
  JS.includes m PROTOCOL_MLLP_FOOTER = false ->
  HL7Outbound.data_loop newResponse (S fuel) this
  = match newResponse m with
    | Throw _ =>
        Some (HL7Outbound.Rejected
                (HL7Outbound.set_responseBuffer tail this))
    | Return response =>
        if handler response
        then HL7Outbound.data_loop newResponse fuel
               (acknowledge (HL7Outbound.set_responseBuffer tail this)
                  response)
        else Some (HL7Outbound.Rejected
                     (acknowledge
                        (HL7Outbound.set_responseBuffer tail this)
                        response))
    end.
Proof.
  intros Hh Hb Hm.
  assert (Eb : HL7Outbound._responseBuffer this
               = String (ascii_of_nat 11)
                   (m ++ PROTOCOL_MLLP_FOOTER ++ tail)).
  { rewrite Hb. unfold HL7Outbound.messageToSend, PROTOCOL_MLLP_HEADER.
    cbn [append]. now rewrite string_app_assoc. }
  cbn [HL7Outbound.data_loop]. rewrite Eb.
  cbn [String.eqb].
  assert (Iv : JS.indexOf (String (ascii_of_nat 11)
                             (m ++ PROTOCOL_MLLP_FOOTER ++ tail))
                 PROTOCOL_MLLP_HEADER = 0).
  { rewrite indexOf_cons. unfold PROTOCOL_MLLP_HEADER.
    now rewrite prefix_single, Ascii.eqb_refl. }
  assert (If : JS.indexOf (String (ascii_of_nat 11)
                             (m ++ PROTOCOL_MLLP_FOOTER ++ tail))
                 PROTOCOL_MLLP_FOOTER = JS.length m + 1).
  { rewrite indexOf_cons, (indexOf_footer m tail Hm).
    unfold PROTOCOL_MLLP_FOOTER at 1. rewrite prefix_cons.
    replace (Ascii.eqb (ascii_of_nat 28) (ascii_of_nat 11)) with false
      by reflexivity.
    cbn [andb]. unfold JS.length.
    destruct (Z.of_nat (String.length m) <? 0) eqn:E;
      [apply Z.ltb_lt in E; lia | reflexivity]. }
  rewrite Iv, If.
  assert (Es : JS.substring (String (ascii_of_nat 11)
                               (m ++ PROTOCOL_MLLP_FOOTER ++ tail))
                 0 (JS.length m + 1 + 2)
               = String (ascii_of_nat 11) (m ++ PROTOCOL_MLLP_FOOTER)).
  { rewrite substring_take
      by (unfold JS.length; cbn [String.length]; rewrite !length_append;
          unfold PROTOCOL_MLLP_FOOTER; cbn [String.length]; lia).
    replace (Z.to_nat (JS.length m + 1 + 2))
      with (S (String.length (m ++ PROTOCOL_MLLP_FOOTER)))
      by (rewrite length_append; unfold PROTOCOL_MLLP_FOOTER, JS.length;
          cbn [String.length]; lia).
    cbn [JS.take]. f_equal.
    rewrite <- string_app_assoc. apply take_app. }
  assert (El : JS.slice (String (ascii_of_nat 11)
                           (m ++ PROTOCOL_MLLP_FOOTER ++ tail))
                 (JS.length m + 1 + 2)
                 (JS.length (String (ascii_of_nat 11)
                               (m ++ PROTOCOL_MLLP_FOOTER ++ tail)))
               = tail).
  { rewrite slice_take_drop;
      [|unfold JS.length; cbn [String.length]; rewrite !length_append;
        unfold PROTOCOL_MLLP_FOOTER; cbn [String.length]; lia ..].
    replace (Z.to_nat (JS.length m + 1 + 2))
      with (S (String.length (m ++ PROTOCOL_MLLP_FOOTER)))
      by (rewrite length_append; unfold PROTOCOL_MLLP_FOOTER, JS.length;
          cbn [String.length]; lia).
    cbn [JS.drop]. rewrite <- string_app_assoc, drop_app.
    apply take_all. unfold JS.length. cbn [String.length].
    rewrite !length_append. unfold PROTOCOL_MLLP_FOOTER.
    cbn [String.length]. lia. }
  rewrite Es, El.
  assert (Er : JS.replace (String (ascii_of_nat 11)
                             (m ++ PROTOCOL_MLLP_FOOTER))
                 PROTOCOL_MLLP_HEADER EmptyString
               = m ++ PROTOCOL_MLLP_FOOTER).
  { unfold PROTOCOL_MLLP_HEADER. cbn [JS.replace].
    rewrite prefix_single, Ascii.eqb_refl. reflexivity. }
  rewrite Er.
  assert (Ei : JS.includes (m ++ PROTOCOL_MLLP_FOOTER) PROTOCOL_MLLP_FOOTER
               = true).
  { unfold JS.includes.
    rewrite <- (append_nil_r PROTOCOL_MLLP_FOOTER) at 1.
    rewrite (indexOf_footer m EmptyString Hm). unfold JS.length.
    apply Z.leb_le. lia. }
  rewrite Ei.
  assert (Ef : JS.replace (m ++ PROTOCOL_MLLP_FOOTER) PROTOCOL_MLLP_FOOTER
                 EmptyString = m).
  { rewrite <- (append_nil_r PROTOCOL_MLLP_FOOTER) at 1.
    rewrite (replace_footer m EmptyString Hm). apply append_nil_r. }
  rewrite Ef.
  cbn [HL7Outbound._handler HL7Outbound.set_responseBuffer]. rewrite Hh.
  reflexivity.
Qed.

Lemma acknowledge_buffer (l : list string) :
  forall (b x : string) (this : HL7Outbound.state),
    HL7Outbound.set_responseBuffer b
      (fold_left acknowledge l (HL7Outbound.set_responseBuffer x this))
    = HL7Outbound.set_responseBuffer b (fold_left acknowledge l this).
Proof.
  induction l as [|m l IH]; intros b x this; [reflexivity|].
  cbn [fold_left].
  change (acknowledge (HL7Outbound.set_responseBuffer x this) m)
    with (HL7Outbound.set_responseBuffer x (acknowledge this m)).
  apply IH.
Qed.

Lemma set_responseBuffer_same (this : HL7Outbound.state) (b : string) :
  HL7Outbound._responseBuffer this = b ->
  HL7Outbound.set_responseBuffer b this = this.
Proof. destruct this. cbn. now intros <-. Qed.

Lemma acknowledge_handler (l : list string) :
  forall this : HL7Outbound.state,
    HL7Outbound._handler (fold_left acknowledge l this)
    = HL7Outbound._handler this.
Proof.
  induction l as [|m l IH]; intros this; [reflexivity|].
  cbn [fold_left]. now rewrite IH.
Qed.

(** The loop works off the frames at the head of the buffer one by one,
    as long as the constructor returns a response and the handler
    resolves for it. *)
Lemma data_loop_frames (newResponse : string -> Completion string)
    (handler : string -> bool) (tail : string) (fuel : nat)
    (ok responses : list string) :
  forall this : HL7Outbound.state,
    HL7Outbound._handler this = Some handler ->
    HL7Outbound._responseBuffer this = frames ok ++ tail ->
    Forall2 (fun m response =>
               JS.includes m PROTOCOL_MLLP_FOOTER = false /\
               newResponse m = Return response /\
               handler response = true) ok responses ->
    HL7Outbound.data_loop newResponse (List.length ok + fuel) this
    = HL7Outbound.data_loop newResponse fuel
        (HL7Outbound.set_responseBuffer tail
           (fold_left acknowledge responses this)).
Proof.
  intros this Hh Hb Hok. revert this Hh Hb.
  induction Hok as [|m r ok rs (Hm & Hn & Hr) _ IH]; intros this Hh Hb.
  - cbn [fold_left List.length Nat.add].
    now rewrite set_responseBuffer_same.
  - rewrite frames_cons, string_app_assoc in Hb.
    cbn [List.length Nat.add].
    rewrite (data_loop_frame newResponse _ this handler m _ Hh Hb Hm).
    rewrite Hn, Hr.
    rewrite IH; [|exact Hh|reflexivity].
    cbn [fold_left].
    change (acknowledge (HL7Outbound.set_responseBuffer
                           (frames ok ++ tail) this) r)
      with (HL7Outbound.set_responseBuffer (frames ok ++ tail)
              (acknowledge this r)).
    now rewrite acknowledge_buffer.
Qed.

Lemma frames_length (l : list string) :
  (List.length l <= String.length (frames l))%nat.
Proof.
  induction l as [|m l IH]; [simpl; lia|].
  rewrite frames_cons, length_append.
  unfold HL7Outbound.messageToSend, PROTOCOL_MLLP_HEADER.
  cbn [append String.length List.length]. lia.
Qed.

Lemma data_loop_empty (newResponse : string -> Completion string)
    (fuel : nat) (this : HL7Outbound.state) :
  HL7Outbound._responseBuffer this = EmptyString ->
  HL7Outbound.data_loop newResponse fuel this
  = Some (HL7Outbound.Resolved this).
Proof. intros E. destruct fuel; cbn [HL7Outbound.data_loop]; now rewrite E. Qed.

(** The listener on whole frames, with a constructor that returns a
    response for each message and a handler that resolves for it. *)
Lemma on_data_frames (newResponse : string -> Completion string)
    (this : HL7Outbound.state)
    (handler : string -> bool) (pending messages responses : list string) :
  HL7Outbound._handler this = Some handler ->
  HL7Outbound._responseBuffer this = frames pending ->
  Forall2 (fun m response =>
             JS.includes m PROTOCOL_MLLP_FOOTER = false /\
             newResponse m = Return response /\
             handler response = true) (pending ++ messages) responses ->
  HL7Outbound.on_data newResponse this (frames messages)
  = Some (HL7Outbound.Resolved
            (HL7Outbound._close
               (HL7Outbound.set_responseBuffer EmptyString
                  (fold_left acknowledge responses
                     (HL7Outbound.set_awaitingResponse false this))))).
Proof.
  intros Hh Hb Hok. unfold HL7Outbound.on_data.
  set (this0 := HL7Outbound.set_responseBuffer _ _).
  assert (B0 : HL7Outbound._responseBuffer this0
               = frames (pending ++ messages) ++ EmptyString).
  { subst this0. cbn. now rewrite Hb, frames_app, append_nil_r. }
  pose proof (frames_length (pending ++ messages)) as L.
  rewrite append_nil_r in B0. rewrite <- B0 in L.
  replace (String.length (HL7Outbound._responseBuffer this0))
    with (List.length (pending ++ messages)
          + (String.length (HL7Outbound._responseBuffer this0)
             - List.length (pending ++ messages)))%nat by lia.
  rewrite <- (append_nil_r (frames (pending ++ messages))) in B0.
  rewrite (data_loop_frames newResponse handler EmptyString _ _ _ this0
             Hh B0 Hok).
  rewrite data_loop_empty by reflexivity.
  subst this0. now rewrite acknowledge_buffer.
Qed.

(** X13: the frames [sendMessage] writes are what the [data] listener
    reads.  On a buffer of whole frames (left behind by a rejection) and
    a chunk of whole frames, when the constructor of responses returns a
    response for each message and the handler resolves for it, the
    listener counts every response, emits the count and hands the
    response to the handler, in the order of the frames, and closes the
    channel with an empty buffer. *)
Theorem X13_on_data_frames (newResponse : string -> Completion string)
    (this : HL7Outbound.state)
    (handler : string -> bool) (pending messages responses : list string) :
  HL7Outbound._handler this = Some handler ->
  HL7Outbound._responseBuffer this = frames pending ->
  Forall2 (fun m response =>
             JS.includes m PROTOCOL_MLLP_FOOTER = false /\
             newResponse m = Return response /\
             handler response = true) (pending ++ messages) responses ->
  HL7Outbound.on_data newResponse this (frames messages)
  = Some (HL7Outbound.Resolved
            (HL7Outbound._close
               (HL7Outbound.set_responseBuffer EmptyString
                  (fold_left acknowledge responses
                     (HL7Outbound.set_awaitingResponse false this))))).
Proof. apply on_data_frames. Qed.

(** X13 for two acknowledgements in one chunk. *)
Lemma X13_on_data_frames_witness :
  HL7Outbound.on_data headedResponse listening
    (frames [acknowledgement "1"; acknowledgement "2"])
  = Some (HL7Outbound.Resolved
            (HL7Outbound._close
               (HL7Outbound.set_responseBuffer EmptyString
                  (fold_left acknowledge
                     [acknowledgement "1"; acknowledgement "2"]
                     (HL7Outbound.set_awaitingResponse false listening))))).
Proof.
  apply (X13_on_data_frames headedResponse listening (fun _ => true) []
           [acknowledgement "1"; acknowledgement "2"]).
  - reflexivity.
  - reflexivity.
  - repeat constructor.
Defined.

(** X14: the [data] listener stops at the first message the constructor
    of responses throws for or the handler rejects.  The messages in
    front of it were counted, emitted and handed over; a message the
    constructor throws for is not counted, a response the handler rejects
    is; the channel is not closed, and what follows the frame stays in
    the buffer. *)
Theorem X14_on_data_rejected (newResponse : string -> Completion string)
    (this : HL7Outbound.state)
    (handler : string -> bool) (ok responses : list string)
    (m tail data : string) :
  HL7Outbound._handler this = Some handler ->
  HL7Outbound._responseBuffer this ++ data
  = frames ok ++ HL7Outbound.messageToSend m ++ tail ->
  Forall2 (fun m response =>
             JS.includes m PROTOCOL_MLLP_FOOTER = false /\
             newResponse m = Return response /\
             handler response = true) ok responses ->
  JS.includes m PROTOCOL_MLLP_FOOTER = false ->
  match newResponse m with
  | Return response => handler response = false
  | Throw _ => True
  end ->
  let stopped :=
    HL7Outbound.set_responseBuffer tail
      (fold_left acknowledge responses
         (HL7Outbound.set_awaitingResponse false this)) in
  HL7Outbound.on_data newResponse this data
  = Some (HL7Outbound.Rejected
            match newResponse m with
            | Return response => acknowledge stopped response
            | Throw _ => stopped
            end).
Proof.
  intros Hh Hb Hok Hm Hr stopped. subst stopped.
  unfold HL7Outbound.on_data.
  set (this0 := HL7Outbound.set_responseBuffer _ _).
  assert (B0 : HL7Outbound._responseBuffer this0
               = frames ok ++ HL7Outbound.messageToSend m ++ tail)
    by (subst this0; cbn; exact Hb).
  assert (L : (List.length ok + 1
               <= String.length (HL7Outbound._responseBuffer this0))%nat).
  { rewrite B0, !length_append. pose proof (frames_length ok).
    unfold HL7Outbound.messageToSend, PROTOCOL_MLLP_HEADER.
    cbn [append String.length]. lia. }
  replace (String.length (HL7Outbound._responseBuffer this0))
    with (List.length ok
          + S (String.length (HL7Outbound._responseBuffer this0)
               - List.length ok - 1))%nat by lia.
  rewrite (data_loop_frames newResponse handler _ _ _ _ this0 Hh B0 Hok).
  rewrite (data_loop_frame newResponse _ _ handler m tail);
    [|cbn; now rewrite acknowledge_handler|reflexivity|exact Hm].
  subst this0.
  destruct (newResponse m) as [response|e].
  - rewrite Hr.
    change (acknowledge (HL7Outbound.set_responseBuffer tail ?s) response)
      with (HL7Outbound.set_responseBuffer tail (acknowledge s response)).
    rewrite !acknowledge_buffer.
    cbn [HL7Outbound.set_responseBuffer]. reflexivity.
  - rewrite !acknowledge_buffer.
    cbn [HL7Outbound.set_responseBuffer]. reflexivity.
Qed.

(** X14 for three frames: the handler rejects the second response, and
    the constructor throws for a second message without a header. *)
Lemma X14_on_data_rejected_witness :
  HL7Outbound.on_data headedResponse picky
    (frames [acknowledgement "1"; acknowledgement "2"; acknowledgement "3"])
  = Some (HL7Outbound.Rejected
            (acknowledge
               (HL7Outbound.set_responseBuffer
                  (frames [acknowledgement "3"])
                  (fold_left acknowledge [acknowledgement "1"]
                     (HL7Outbound.set_awaitingResponse false picky)))
               (acknowledgement "2"))) /\
  HL7Outbound.on_data headedResponse picky
    (frames [acknowledgement "1"; "MSA|AE|2"; acknowledgement "3"])
  = Some (HL7Outbound.Rejected
            (HL7Outbound.set_responseBuffer
               (frames [acknowledgement "3"])
               (fold_left acknowledge [acknowledgement "1"]
                  (HL7Outbound.set_awaitingResponse false picky)))).
Proof.
  split.
  - apply (X14_on_data_rejected headedResponse picky
             (String.eqb (acknowledgement "1")) [acknowledgement "1"]
             [acknowledgement "1"] (acknowledgement "2")
             (frames [acknowledgement "3"])).
    + reflexivity.
    + reflexivity.
    + repeat constructor.
    + reflexivity.
    + reflexivity.
  - apply (X14_on_data_rejected headedResponse picky
             (String.eqb (acknowledgement "1")) [acknowledgement "1"]
             [acknowledgement "1"] "MSA|AE|2"
             (frames [acknowledgement "3"])).
    + reflexivity.
    + reflexivity.
    + repeat constructor.
    + reflexivity.
    + exact I.
Defined.

(** ** [_close] *)

Lemma close_sockets_eq (sockets : list (string * Socket)) :
  forall this : HL7Outbound.state,
    fold_left
      (fun this (entry : string * Socket) =>
         match destroyed (snd entry) with
         | Some _ =>
             HL7Outbound.effect (SocketDestroy (snd entry))
               (HL7Outbound.effect (SocketEnd (snd entry)) this)
         | None => this
         end) sockets this
    = {| HL7Outbound._awaitingResponse := HL7Outbound._awaitingResponse this;
         HL7Outbound._connectionTimer := HL7Outbound._connectionTimer this;
         HL7Outbound._handler := HL7Outbound._handler this;
         HL7Outbound._nodeId := HL7Outbound._nodeId this;
         HL7Outbound._opt := HL7Outbound._opt this;
         HL7Outbound._main_opt := HL7Outbound._main_opt this;
         HL7Outbound._retryCount := HL7Outbound._retryCount this;
         HL7Outbound._retryTimer := HL7Outbound._retryTimer this;
         HL7Outbound._sockets := HL7Outbound._sockets this;
         HL7Outbound._readyState := HL7Outbound._readyState this;
         HL7Outbound._responseBuffer := HL7Outbound._responseBuffer this;
         HL7Outbound._initialConnection :=
           HL7Outbound._initialConnection this;
         HL7Outbound.stats_acknowledged :=
           HL7Outbound.stats_acknowledged this;
         HL7Outbound.stats_sent := HL7Outbound.stats_sent this;
         HL7Outbound.effects :=
           (HL7Outbound.effects this ++ close_effects sockets)%list |}.
Proof.
  induction sockets as [|entry sockets IH]; intros this.
  - destruct this. cbn. now rewrite app_nil_r.
  - cbn [fold_left]. rewrite IH. unfold close_effects. cbn [flat_map].
    destruct (destroyed (snd entry)); cbn; [|reflexivity].
    now rewrite <- !app_assoc.
Qed.

Lemma close_eq (this : HL7Outbound.state) :
  HL7Outbound._close this
  = {| HL7Outbound._awaitingResponse := HL7Outbound._awaitingResponse this;
       HL7Outbound._connectionTimer := HL7Outbound._connectionTimer this;
       HL7Outbound._handler := HL7Outbound._handler this;
       HL7Outbound._nodeId := HL7Outbound._nodeId this;
       HL7Outbound._opt := HL7Outbound._opt this;
       HL7Outbound._main_opt := HL7Outbound._main_opt this;
       HL7Outbound._retryCount := HL7Outbound._retryCount this;
       HL7Outbound._retryTimer := HL7Outbound._retryTimer this;
       HL7Outbound._sockets := [];
       HL7Outbound._readyState := CLOSING;
       HL7Outbound._responseBuffer := HL7Outbound._responseBuffer this;
       HL7Outbound._initialConnection := HL7Outbound._initialConnection this;
       HL7Outbound.stats_acknowledged := HL7Outbound.stats_acknowledged this;
       HL7Outbound.stats_sent := HL7Outbound.stats_sent this;
       HL7Outbound.effects :=
         (HL7Outbound.effects this
          ++ close_effects (HL7Outbound._sockets this)
          ++ [Emit "client.close" None])%list |}.
Proof.
  unfold HL7Outbound._close. rewrite close_sockets_eq.
  unfold HL7Outbound.effect, HL7Outbound.set_sockets,
    HL7Outbound.set_readyState.
  cbn -[close_effects app]. now rewrite <- app_assoc.
Qed.

(** X15: [_close] ends and then destroys every socket of the pool that
    has a [destroyed] property, in the order of the pool, empties the
    pool, emits [client.close] last and leaves the channel closing; a
    second [_close] only emits [client.close] once more. *)
Theorem X15_close (this : HL7Outbound.state) :
  HL7Outbound.effects (HL7Outbound._close this)
  = (HL7Outbound.effects this
     ++ close_effects (HL7Outbound._sockets this)
     ++ [Emit "client.close" None])%list /\
  HL7Outbound._sockets (HL7Outbound._close this) = [] /\
  HL7Outbound._readyState (HL7Outbound._close this) = CLOSING /\
  HL7Outbound._close (HL7Outbound._close this)
  = HL7Outbound.effect (Emit "client.close" None) (HL7Outbound._close this).
Proof.
  rewrite (close_eq (HL7Outbound._close this)), !close_eq.
  unfold HL7Outbound.effect. cbn -[close_effects app].
  repeat split.
Qed.

(** ** The states a channel can reach *)

Lemma emitted_app (event : string) (l1 l2 : list Effect) :
  emitted event (l1 ++ l2) = (emitted event l1 ++ emitted event l2)%list.
Proof. apply flat_map_app. Qed.

Lemma handled_app (l1 l2 : list Effect) :
  handled (l1 ++ l2) = (handled l1 ++ handled l2)%list.
Proof. apply flat_map_app. Qed.

Lemma quiet_emitted (extra : list Effect) :
  forallb quiet extra = true ->
  emitted "client.sent" extra = [] /\
  emitted "client.acknowledged" extra = [] /\
  handled extra = [].
Proof.
  induction extra as [|e extra IH]; [now repeat split|].
  cbn [forallb]. intros H. apply andb_true_iff in H as [Q H].
  destruct (IH H) as (S & A & Hd).
  unfold emitted, handled in *. cbn [flat_map]. rewrite S, A, Hd.
  destruct e as [event arg| | | |]; try discriminate; try now repeat split.
  cbn [quiet] in Q. apply andb_true_iff in Q as [Q1 Q2].
  apply negb_true_iff in Q1, Q2. rewrite Q1, Q2. now repeat split.
Qed.

Lemma counters_quiet (this this' : HL7Outbound.state)
    (extra : list Effect) :
  counters_agree this ->
  HL7Outbound.stats_sent this' = HL7Outbound.stats_sent this ->
  HL7Outbound.stats_acknowledged this'
  = HL7Outbound.stats_acknowledged this ->
  HL7Outbound.effects this' = (HL7Outbound.effects this ++ extra)%list ->
  forallb quiet extra = true ->
  counters_agree this'.
Proof.
  intros (S0 & A0 & S & A & H) Es Ea Ee Q.
  destruct (quiet_emitted extra Q) as (Qs & Qa & Qh).
  unfold counters_agree.
  rewrite Es, Ea, Ee, !emitted_app, handled_app, Qs, Qa, Qh, !app_nil_r.
  now repeat split.
Qed.

Lemma counted_succ (n : Z) :
  0 <= n -> counted (n + 1) = (counted n ++ [Some (n + 1)])%list.
Proof.
  intros H. unfold counted.
  replace (Z.to_nat (n + 1)) with (S (Z.to_nat n)) by lia.
  rewrite seq_S, map_app. cbn [map]. do 3 f_equal. lia.
Qed.

Lemma close_effects_quiet (sockets : HL7Outbound.Map Socket) :
  forallb quiet (close_effects sockets) = true.
Proof.
  induction sockets as [|e sockets IH]; [reflexivity|].
  unfold close_effects in *. cbn [flat_map].
  rewrite forallb_app, IH. now destruct (destroyed (snd e)).
Qed.

Lemma manageConnections_own (this : HL7Outbound.state) :
  own_socket_only this -> HL7Outbound._manageConnections this = this.
Proof.
  intros [E|[s E]]; unfold HL7Outbound._manageConnections; rewrite E;
    destruct (_ <=? 0) eqn:C; try reflexivity; apply Z.leb_gt in C.
  - unfold HL7Outbound.Array_slice. cbn [map JS.sort fold_left].
    now rewrite skipn_nil, firstn_nil.
  - unfold HL7Outbound.Map_size in *.
    cbn [map JS.sort fold_left JS.insert List.length fst snd] in *.
    replace (Z.min (Z.of_nat 1 - maxConnections (HL7Outbound._opt this))
               (Z.of_nat 1 - 1)) with 0 by lia.
    reflexivity.
Qed.

Lemma invariant_close (this : HL7Outbound.state) :
  invariant this -> invariant (HL7Outbound._close this).
Proof.
  intros (R & O & C). rewrite close_eq. split; [exact R|]. split.
  - now left.
  - apply (counters_quiet this _
             (close_effects (HL7Outbound._sockets this)
              ++ [Emit "client.close" None]) C); try reflexivity.
    now rewrite forallb_app, close_effects_quiet.
Qed.

Lemma invariant_addSocket (this : HL7Outbound.state) (socket : Socket) :
  invariant this ->
  invariant
    (HL7Outbound._addSocket this (HL7Outbound._nodeId this) socket true).
Proof.
  intros (R & O & C). unfold HL7Outbound._addSocket. cbn [negb andb].
  split; [exact R|]. split; [|exact C].
  right. exists socket. cbn.
  destruct O as [-> | [s ->]]; cbn; [reflexivity|].
  now rewrite String.eqb_refl.
Qed.

Lemma removeSocket_eq (this : HL7Outbound.state) (nodeId : string) :
  HL7Outbound._removeSocket this nodeId
  = HL7Outbound.set_sockets
      (HL7Outbound.Map_delete (HL7Outbound._sockets this) nodeId)
      (match HL7Outbound.Map_get (HL7Outbound._sockets this) nodeId with
       | Some s =>
           match destroyed s with
           | Some _ => HL7Outbound.effect (SocketDestroy s) this
           | None => this
           end
       | None => this
       end).
Proof.
  unfold HL7Outbound._removeSocket.
  destruct (HL7Outbound.Map_get _ _) as [s|]; [|reflexivity].
  now destruct (destroyed s).
Qed.

Lemma invariant_removeSocket (this : HL7Outbound.state) (nodeId : string) :
  invariant this -> invariant (HL7Outbound._removeSocket this nodeId).
Proof.
  intros (R & O & C). rewrite removeSocket_eq.
  destruct O as [E|[s E]]; rewrite E; unfold HL7Outbound.Map_get,
    HL7Outbound.Map_delete; cbn [find filter fst snd].
  - split; [exact R|]. split; [now left | exact C].
  - destruct (String.eqb (HL7Outbound._nodeId this) nodeId);
      cbn [negb fst snd].
    + destruct (destroyed s).
      * split; [exact R|]. split; [now left|].
        now apply (counters_quiet this _ [SocketDestroy s] C).
      * split; [exact R|]. split; [now left | exact C].
    + split; [exact R|]. split; [|exact C].
      right. now exists s.
Qed.

Lemma invariant_listener (this : HL7Outbound.state) (socket : Socket) :
  invariant this -> invariant (HL7Outbound._listener this socket).
Proof.
  intros I. unfold HL7Outbound._listener.
  pose proof (invariant_addSocket this socket I) as I1.
  set (this1 := HL7Outbound._addSocket _ _ _ _) in *.
  rewrite (manageConnections_own this1) by apply I1.
  destruct (_ <? _); exact I1.
Qed.

Lemma invariant_acknowledge (this : HL7Outbound.state) (m : string) :
  invariant this -> invariant (acknowledge this m).
Proof.
  intros (R & O & (S0 & A0 & S & A & H)).
  split; [exact R|]. split; [exact O|].
  unfold counters_agree, acknowledge.
  cbn -[emitted handled counted app Z.add Z.of_nat].
  rewrite !emitted_app, !handled_app, !length_app, counted_succ by exact A0.
  rewrite S, A. cbn -[counted Z.add Z.of_nat].
  rewrite !app_nil_r. repeat split; try lia.
Qed.

Lemma invariant_data_loop (newResponse : string -> Completion string)
    (fuel : nat) :
  forall this : HL7Outbound.state,
    invariant this ->
    match HL7Outbound.data_loop newResponse fuel this with
    | Some (HL7Outbound.Resolved this')
    | Some (HL7Outbound.Rejected this') => invariant this'
    | None => True
    end.
Proof.
  induction fuel as [|fuel IH]; intros this I; cbn [HL7Outbound.data_loop];
    destruct (String.eqb _ EmptyString); try exact I; try exact Logic.I.
  destruct (JS.includes _ PROTOCOL_MLLP_FOOTER); [|apply IH; exact I].
  cbn [HL7Outbound._handler HL7Outbound.set_responseBuffer].
  destruct (HL7Outbound._handler this) as [handler|]; [|apply IH; exact I].
  destruct (newResponse _) as [response|e]; [|exact I].
  pose proof (invariant_acknowledge
                (HL7Outbound.set_responseBuffer
                   (JS.slice (HL7Outbound._responseBuffer this)
                      (JS.indexOf (HL7Outbound._responseBuffer this)
                         PROTOCOL_MLLP_FOOTER + 2)
                      (JS.length (HL7Outbound._responseBuffer this)))
                   this) response I) as Ia.
  destruct (handler response).
  - apply IH. exact Ia.
  - exact Ia.
Qed.

Lemma invariant_on_data (newResponse : string -> Completion string)
    (this : HL7Outbound.state) (buffer : string) :
  invariant this ->
  match HL7Outbound.on_data newResponse this buffer with
  | Some (HL7Outbound.Resolved this')
  | Some (HL7Outbound.Rejected this') => invariant this'
  | None => True
  end.
Proof.
  intros I. unfold HL7Outbound.on_data.
  set (this0 := HL7Outbound.set_responseBuffer _ _).
  pose proof (invariant_data_loop newResponse
                (String.length (HL7Outbound._responseBuffer this0))
                this0 I) as L.
  destruct (HL7Outbound.data_loop _ _ this0) as [[this'|this']|];
    [now apply invariant_close | exact L | exact Logic.I].
Qed.

Lemma invariant_on_timeout expBackoff (this : HL7Outbound.state) :
  invariant this ->
  HL7Outbound.on_timeout expBackoff this
  = HL7Outbound.effect (Emit "error" None)
      (HL7Outbound._close (HL7Outbound.set_readyState CLOSING this)).
Proof.
  intros ((E & _) & _). unfold HL7Outbound.on_timeout. rewrite E.
  now rewrite !andb_false_r, !orb_true_r.
Qed.

Lemma invariant_quiet_effect (this : HL7Outbound.state) (e : Effect) :
  quiet e = true -> invariant this -> invariant (HL7Outbound.effect e this).
Proof.
  intros Q (R & O & C). split; [exact R|]. split; [exact O|].
  apply (counters_quiet this _ [e] C); try reflexivity.
  cbn. now rewrite Q.
Qed.

Lemma invariant_step newResponse expBackoff
    (this this' : HL7Outbound.state) :
  invariant this -> step newResponse expBackoff this this' ->
  invariant this'.
Proof.
  intros I S. destruct S.
  - unfold HL7Outbound.sendMessage.
    destruct (0 <? connectionTimeout);
      [apply (invariant_addSocket
                (HL7Outbound.set_connectionTimer (Some connectionTimeout)
                   this)) | apply invariant_addSocket]; exact I.
  - unfold HL7Outbound._connect, HL7Outbound.sendMessage_handler.
    pose proof (invariant_listener this socket I) as Il.
    destruct sendable; cbn [fst]; [|exact Il].
    cbn [HL7Outbound._opt HL7Outbound.set_readyState].
    destruct (waitAck _); exact Il.
  - destruct I as (R & O & (S0 & A0 & S & A & H)).
    split; [exact R|]. split; [exact O|].
    unfold counters_agree, HL7Outbound.on_write.
    cbn -[emitted handled counted app Z.add Z.of_nat].
    rewrite !emitted_app, !handled_app, !length_app, counted_succ by exact S0.
    rewrite S, A. cbn -[counted Z.add Z.of_nat].
    rewrite !app_nil_r. repeat split; try lia.
  - unfold HL7Outbound.on_connectionTimer.
    destruct socket as [s|]; apply invariant_removeSocket; [|exact I].
    now repeat apply invariant_quiet_effect.
  - unfold HL7Outbound.on_ready, HL7Outbound._reset.
    apply invariant_quiet_effect; [reflexivity|].
    destruct (HL7Outbound._connectionTimer this) as [timer|]; [|exact I].
    apply (invariant_quiet_effect this (ClearTimeout timer) eq_refl I).
  - pose proof (invariant_on_data newResponse this buffer I) as D.
    now rewrite H in D.
  - pose proof (invariant_on_data newResponse this buffer I) as D.
    now rewrite H in D.
  - unfold HL7Outbound.on_error. apply invariant_close.
    now apply invariant_quiet_effect.
  - rewrite (invariant_on_timeout expBackoff this I).
    apply invariant_quiet_effect; [reflexivity|].
    now apply invariant_close.
  - now apply invariant_close.
Qed.

Lemma reachable_invariant newResponse expBackoff
    (this : HL7Outbound.state) :
  reachable newResponse expBackoff this -> invariant this.
Proof.
  induction 1 as [main props handler nodeId | this this' _ IH S].
  - repeat split; try reflexivity. now left.
  - exact (invariant_step newResponse expBackoff this this' IH S).
Qed.

(** X16: the retry path of the [timeout] listener is never taken.  In
    every state a channel can reach, whatever [maxAttempts], [retryLow]
    and [retryHigh] are, the listener closes the channel and emits
    [error]; no retry was counted and no retry timer is armed. *)
Theorem X16_timeout_never_retries
    (newResponse : string -> Completion string)
    (expBackoff : option Z -> option Z -> Z -> Z)
    (this : HL7Outbound.state) :
  reachable newResponse expBackoff this ->
  HL7Outbound.on_timeout expBackoff this
  = HL7Outbound.effect (Emit "error" None)
      (HL7Outbound._close (HL7Outbound.set_readyState CLOSING this)) /\
  HL7Outbound._retryCount this = 0 /\
  HL7Outbound._retryTimer this = None.
Proof.
  intros R.
  pose proof (reachable_invariant newResponse expBackoff this R) as I.
  split; [now apply invariant_on_timeout|]. apply I.
Qed.

(** X17: in every state a channel can reach its pool is empty or holds
    one socket, under the channel's own node id; [_manageConnections]
    removes nothing, whatever [maxConnections] is. *)
Theorem X17_pool_own_socket
    (newResponse : string -> Completion string)
    (expBackoff : option Z -> option Z -> Z -> Z)
    (this : HL7Outbound.state) :
  reachable newResponse expBackoff this ->
  own_socket_only this /\
  HL7Outbound._manageConnections this = this.
Proof.
  intros R.
  pose proof (reachable_invariant newResponse expBackoff this R)
    as (_ & O & _).
  split; [exact O | now apply manageConnections_own].
Qed.

(** X18: in every state a channel can reach the counters agree with what
    it did: [client.sent] was emitted [stats.sent] times and
    [client.acknowledged] [stats.acknowledged] times, each time with the
    numbers 1, 2, ... in turn, and the handler was called
    [stats.acknowledged] times. *)
Theorem X18_counters_agree
    (newResponse : string -> Completion string)
    (expBackoff : option Z -> option Z -> Z -> Z)
    (this : HL7Outbound.state) :
  reachable newResponse expBackoff this ->
  emitted "client.sent" (HL7Outbound.effects this)
  = counted (HL7Outbound.stats_sent this) /\
  emitted "client.acknowledged" (HL7Outbound.effects this)
  = counted (HL7Outbound.stats_acknowledged this) /\
  Z.of_nat (List.length (handled (HL7Outbound.effects this)))
  = HL7Outbound.stats_acknowledged this.
Proof.
  intros R.
  pose proof (reachable_invariant newResponse expBackoff this R)
    as (_ & _ & C).
  apply C.
Qed.

(** X16 for a channel that has sent one message. *)
Lemma X16_timeout_never_retries_witness :
  HL7Outbound.on_timeout doublingBackoff sentOne
  = HL7Outbound.effect (Emit "error" None)
      (HL7Outbound._close (HL7Outbound.set_readyState CLOSING sentOne)) /\
  HL7Outbound._retryCount sentOne = 0 /\
  HL7Outbound._retryTimer sentOne = None.
Proof.
  apply (X16_timeout_never_retries headedResponse).
  eapply reachable_step; [|apply step_write].
  eapply reachable_step; [|apply step_connect].
  eapply reachable_step; [|apply step_sendMessage].
  apply reachable_construct.
Defined.

(** X17 for a channel after the connect callback. *)
Lemma X17_pool_own_socket_witness :
  own_socket_only connected /\
  HL7Outbound._manageConnections connected = connected.
Proof.
  apply (X17_pool_own_socket headedResponse doublingBackoff).
  eapply reachable_step; [|apply step_connect].
  eapply reachable_step; [|apply step_sendMessage].
  apply reachable_construct.
Defined.

(** X18 for a channel that has sent one message. *)
Lemma X18_counters_agree_witness :
  emitted "client.sent" (HL7Outbound.effects sentOne)
  = counted (HL7Outbound.stats_sent sentOne) /\
  emitted "client.acknowledged" (HL7Outbound.effects sentOne)
  = counted (HL7Outbound.stats_acknowledged sentOne) /\
  Z.of_nat (List.length (handled (HL7Outbound.effects sentOne)))
  = HL7Outbound.stats_acknowledged sentOne.
Proof.
  apply (X18_counters_agree headedResponse doublingBackoff).
  eapply reachable_step; [|apply step_write].
  eapply reachable_step; [|apply step_connect].
  eapply reachable_step; [|apply step_sendMessage].
  apply reachable_construct.
Defined.



(** ** One exchange *)



(** ** The pool *)

Lemma Map_set_get {V} (m : HL7Outbound.Map V) (k : string) (v : V) :
  HL7Outbound.Map_get (HL7Outbound.Map_set m k v) k = Some v.
Proof.
  unfold HL7Outbound.Map_get.
  induction m as [|e m IH]; cbn [HL7Outbound.Map_set find fst].
  - now rewrite String.eqb_refl.
  - destruct (String.eqb (fst e) k) eqn:E; cbn [find fst].
    + now rewrite String.eqb_refl.
    + now rewrite E.
Qed.

Lemma Map_set_get_other {V} (m : HL7Outbound.Map V) (k k' : string)
    (v : V) :
  k' <> k ->
  HL7Outbound.Map_get (HL7Outbound.Map_set m k v) k'
  = HL7Outbound.Map_get m k'.
Proof.
  intros N. unfold HL7Outbound.Map_get.
  assert (Nk : String.eqb k k' = false)
    by (apply String.eqb_neq; congruence).
  induction m as [|e m IH]; cbn [HL7Outbound.Map_set find fst].
  - now rewrite Nk.
  - destruct (String.eqb (fst e) k) eqn:E; cbn [find fst].
    + apply String.eqb_eq in E. rewrite E, Nk. reflexivity.
    + destruct (String.eqb (fst e) k'); [reflexivity | exact IH].
Qed.

Lemma Map_delete_set_fresh {V} (m : HL7Outbound.Map V) (k : string)
    (v : V) :
  ~ In k (map fst m) ->
  HL7Outbound.Map_delete (HL7Outbound.Map_set m k v) k = m.
Proof.
  unfold HL7Outbound.Map_delete.
  induction m as [|e m IH]; intros N;
    cbn [HL7Outbound.Map_set filter fst].
  - now rewrite String.eqb_refl.
  - cbn [map In] in N.
    destruct (String.eqb (fst e) k) eqn:E.
    + apply String.eqb_eq in E. tauto.
    + cbn [filter]. rewrite E. cbn [negb]. f_equal. apply IH. tauto.
Qed.

(** X20: a socket added under a node id is what the pool then holds
    under it, the sockets under other ids stay as they are, and removing
    the id again, when it was new, gives back the pool as it was; the
    removal destroys the socket exactly when it has a [destroyed]
    property. *)
Theorem X20_add_remove_socket (this : HL7Outbound.state) (nodeId : string)
    (socket : Socket) :
  let added := HL7Outbound._addSocket this nodeId socket true in
  HL7Outbound.Map_get (HL7Outbound._sockets added) nodeId = Some socket /\
  (forall other, other <> nodeId ->
     HL7Outbound.Map_get (HL7Outbound._sockets added) other
     = HL7Outbound.Map_get (HL7Outbound._sockets this) other) /\
  (~ In nodeId (map fst (HL7Outbound._sockets this)) ->
   HL7Outbound._sockets (HL7Outbound._removeSocket added nodeId)
   = HL7Outbound._sockets this) /\
  HL7Outbound.effects (HL7Outbound._removeSocket added nodeId)
  = (HL7Outbound.effects this
     ++ match destroyed socket with
        | Some _ => [SocketDestroy socket]
        | None => []
        end)%list.
Proof.
  intros added. subst added. unfold HL7Outbound._addSocket.
  cbn [negb andb HL7Outbound._sockets HL7Outbound.set_sockets].
  split; [apply Map_set_get|].
  split; [intros other N; now apply Map_set_get_other|].
  rewrite removeSocket_eq.
  cbn [HL7Outbound._sockets HL7Outbound.set_sockets].
  rewrite Map_set_get.
  split.
  - intros N. rewrite (Map_delete_set_fresh _ _ _ N).
    destruct (destroyed socket); reflexivity.
  - destruct (destroyed socket); cbn; [reflexivity|].
    now rewrite app_nil_r.
Qed.

(** ** Eviction without time stamps *)

Lemma insert_last {A} (cmp : A -> A -> option Z) (x : A) (l : list A) :
  Forall (fun y => JS.positive (cmp y x) = false) l ->
  JS.insert cmp x l = (l ++ [x])%list.
Proof.
  induction 1 as [|y l Hy _ IH]; [reflexivity|].
  cbn [JS.insert app]. now rewrite Hy, IH.
Qed.

Lemma sort_unordered {A} (cmp : A -> A -> option Z) (l : list A) :
  (forall a b, JS.positive (cmp a b) = false) -> JS.sort cmp l = l.
Proof.
  intros H. unfold JS.sort.
  assert (G : forall acc, fold_left (fun acc x => JS.insert cmp x acc) l acc
                          = (acc ++ l)%list).
  { induction l as [|x l IH]; intros acc; cbn [fold_left].
    - now rewrite app_nil_r.
    - rewrite insert_last by (apply Forall_forall; auto).
      now rewrite IH, <- app_assoc. }
  apply G.
Qed.

Lemma sorted_entries_plain (pool : HL7Outbound.Map Socket) :
  Forall (fun e => lastUsed (snd e) = None) pool ->
  sorted_entries pool = map pool_entry pool.
Proof.
  intros F. unfold sorted_entries, JS.sort.
  assert (G : forall acc,
             Forall (fun p : string * option Z => snd p = None) acc ->
             fold_left (fun acc x => JS.insert HL7Outbound.byLastUsed x acc)
               (map pool_entry pool) acc
             = (acc ++ map pool_entry pool)%list).
  { induction F as [|e pool He _ IH]; intros acc Ha; cbn [map fold_left].
    - now rewrite app_nil_r.
    - rewrite insert_last.
      + rewrite IH, <- app_assoc; [reflexivity|].
        apply Forall_app. split; [exact Ha|]. now repeat constructor.
      + eapply Forall_impl; [|exact Ha]. intros p Hp.
        unfold HL7Outbound.byLastUsed. now rewrite Hp. }
  apply (G []). constructor.
Qed.

Lemma filter_not_first (l1 : list (string * Socket)) :
  forall l2 : list (string * Socket),
    NoDup (map fst (l1 ++ l2)) ->
    filter (fun e => negb (existsb (String.eqb (fst e)) (map fst l1)))
      (l1 ++ l2)
    = l2.
Proof.
  intros l2 N. rewrite filter_app.
  assert (F1 : forall keys l,
             (forall e : string * Socket, In e l -> In (fst e) keys) ->
             filter (fun e => negb (existsb (String.eqb (fst e)) keys)) l
             = []).
  { intros keys l. induction l as [|e l IH]; intros H; [reflexivity|].
    cbn [filter].
    rewrite (proj2 (existsb_eqb_In (fst e) keys)) by (apply H; now left).
    cbn [negb]. apply IH. intros x Ix. apply H. now right. }
  assert (F2 : forall keys l,
             (forall e : string * Socket, In e l -> ~ In (fst e) keys) ->
             filter (fun e => negb (existsb (String.eqb (fst e)) keys)) l
             = l).
  { intros keys l. induction l as [|e l IH]; intros H; [reflexivity|].
    cbn [filter].
    destruct (existsb (String.eqb (fst e)) keys) eqn:X.
    - apply existsb_eqb_In in X. elim (H e (or_introl eq_refl) X).
    - cbn [negb]. f_equal. apply IH. intros x Ix. apply H. now right. }
  rewrite F1 by (intros e Ie; now apply in_map).
  rewrite F2; [reflexivity|].
  intros e Ie X. rewrite map_app in N.
  assert (D : forall (a b : list string) (x : string),
             NoDup (a ++ b) -> In x a -> In x b -> False).
  { intros a b x. induction a as [|y a IH]; intros Nab Ia Ib; [destruct Ia|].
    cbn [app] in Nab. inversion Nab as [|? ? Ny Na]; subst.
    destruct Ia as [->|Ia]; [|now apply IH].
    apply Ny. apply in_or_app. now right. }
  apply (D _ _ (fst e) N X). now apply in_map.
Qed.

(** X21: when no socket of the pool has a [lastUsed] property, the
    comparator of [_manageConnections] yields NaN and the sort keeps the
    order of the pool: the sockets removed are the first that were put
    in, and the others stay in their order. *)
Theorem X21_manageConnections_insertion_order
    (this : HL7Outbound.state) :
  let pool := HL7Outbound._sockets this in
  let limit := maxConnections (HL7Outbound._opt this) in
  NoDup (map fst pool) ->
  Forall (fun e => lastUsed (snd e) = None) pool ->
  limit < HL7Outbound.Map_size pool ->
  1 <= HL7Outbound.Map_size pool ->
  HL7Outbound._sockets (HL7Outbound._manageConnections this)
  = skipn (Z.to_nat (excess pool limit)) pool.
Proof.
  intros pool limit N F Ex Ne.
  rewrite (manageConnections_sockets this Ex Ne). fold pool limit.
  unfold is_oldest, oldest. rewrite (sorted_entries_plain pool F).
  rewrite firstn_map, map_map. cbn [pool_entry fst].
  set (n := Z.to_nat (excess pool limit)).
  pose proof (filter_not_first (firstn n pool) (skipn n pool)) as K.
  rewrite firstn_skipn in K. exact (K N).
Qed.

(** X21 for three sockets and [maxConnections = 2]: the first goes. *)
Lemma X21_manageConnections_insertion_order_witness :
  HL7Outbound._sockets (HL7Outbound._manageConnections poolPlain)
  = [("B", plainSocket); ("C", plainSocket)].
Proof.
  apply (X21_manageConnections_insertion_order poolPlain).
  - repeat constructor; simpl; intuition discriminate.
  - repeat constructor.
  - reflexivity.
  - discriminate.
Defined.

(** ** [readFile] *)

Lemma replace_newlines_no_LF (text : string) :
  JS.includes (HL7Outbound.replace_newlines text) (String LF EmptyString)
  = false.
Proof.
  induction text as [|c text IH]; [reflexivity|].
  cbn [HL7Outbound.replace_newlines].
  destruct (Ascii.eqb c LF) eqn:E.
  - cbn [append]. rewrite !includes_cons_single, IH. reflexivity.
  - rewrite includes_cons_single, IH, Ascii.eqb_sym, E. reflexivity.
Qed.

Lemma replace_newlines_length (text : string) :
  String.length (HL7Outbound.replace_newlines text)
  = (String.length text + count_LF text)%nat.
Proof.
  induction text as [|c text IH]; [reflexivity|].
  cbn [HL7Outbound.replace_newlines count_LF].
  destruct (Ascii.eqb c LF); cbn [append String.length]; rewrite IH; lia.
Qed.

Lemma replace_newlines_same (text : string) :
  count_LF text = O -> HL7Outbound.replace_newlines text = text.
Proof.
  induction text as [|c text IH]; [reflexivity|].
  cbn [HL7Outbound.replace_newlines count_LF].
  destruct (Ascii.eqb c LF); [discriminate|].
  intros H. now rewrite IH.
Qed.

(** X22: [readFile] hands the text of the file to [FileBatch] with every
    line feed replaced by the two characters backslash and r, so that
    the text holds no line feed and is longer by one code unit for each;
    a text without line feeds is handed over as it is.  Whatever is
    thrown while reading the file or building the batch comes out as the
    one fatal error with code 500 that names the path. *)
Theorem X22_readFile (FileBatch : Type)
    (readFileSync : string -> Completion string)
    (new_FileBatch : string -> Completion FileBatch)
    (fullFilePath : string) :
  (forall batch,
     HL7Outbound.readFile FileBatch readFileSync new_FileBatch fullFilePath
     = Return batch <->
     exists fileBuffer,
       readFileSync fullFilePath = Return fileBuffer /\
       new_FileBatch (HL7Outbound.replace_newlines fileBuffer)
       = Return batch) /\
  (forall e,
     HL7Outbound.readFile FileBatch readFileSync new_FileBatch fullFilePath
     = Throw e ->
     e = HL7FatalError 500 ("Unable to read file: " ++ fullFilePath)) /\
  (forall fileBuffer,
     JS.includes (HL7Outbound.replace_newlines fileBuffer)
       (String LF EmptyString) = false /\
     String.length (HL7Outbound.replace_newlines fileBuffer)
     = (String.length fileBuffer + count_LF fileBuffer)%nat /\
     (count_LF fileBuffer = O ->
      HL7Outbound.replace_newlines fileBuffer = fileBuffer)).
Proof.
  unfold HL7Outbound.readFile. split; [|split].
  - intros batch.
    destruct (readFileSync fullFilePath) as [buf|x]; cbn [bind].
    + destruct (new_FileBatch _) as [b|x] eqn:E.
      * split.
        -- intros [= <-]. now exists buf.
        -- intros (buf' & [= <-] & E'). congruence.
      * split; [discriminate|].
        intros (buf' & [= <-] & E'). congruence.
    + split; [discriminate|]. intros (buf' & D & _). discriminate.
  - intros e.
    destruct (readFileSync fullFilePath) as [buf|x]; cbn [bind].
    + destruct (new_FileBatch _); [discriminate | now intros [= <-]].
    + now intros [= <-].
  - intros buf. split; [apply replace_newlines_no_LF|].
    split; [apply replace_newlines_length | apply replace_newlines_same].
Qed.

(** X22 for a file of two lines and for a path that does not exist. *)
Lemma X22_readFile_witness :
  HL7Outbound.readFile string oneFile (fun text => Return text)
    "/tmp/adt.hl7"
  = Return "MSH|^~\&|X\rPID|1" /\
  HL7Outbound.readFile string oneFile (fun text => Return text)
    "/tmp/none.hl7"
  = Throw (HL7FatalError 500 "Unable to read file: /tmp/none.hl7").
Proof.
  split.
  - apply (proj1 (X22_readFile string oneFile (fun text => Return text)
                    "/tmp/adt.hl7")).
    exists ("MSH|^~\&|X" ++ String LF "PID|1"). split; reflexivity.
  - assert (E : exists e,
               HL7Outbound.readFile string oneFile (fun text => Return text)
                 "/tmp/none.hl7" = Throw e) by (eexists; reflexivity).
    destruct E as [e E]. rewrite E. f_equal.
    apply (proj1 (proj2 (X22_readFile string oneFile
                           (fun text => Return text) "/tmp/none.hl7"))).
    exact E.
Defined.

(* ================================================================== *)
(** * Worked examples                                                   *)
(* ================================================================== *)

Example escape_field :
  option_map (fun rb => RootBase.escape rb (str "A|B"))
             (RootBase.new defaultOptions)
  = Some (Return "A\F\B").
Proof. reflexivity. Qed.

Example unescape_field :
  option_map (fun rb => RootBase.unescape noHex rb (str "A\F\B"))
             (RootBase.new defaultOptions)
  = Some (Return "A|B").
Proof. reflexivity. Qed.

Example split_two :
  RootBase.split
    ("MSH|^~\&|X" ++ String CR "MSH|^~\&|Y") []
  = Some ["MSH|^~\&|X" ++ String CR ""; "MSH|^~\&|Y"].
Proof. vm_compute. reflexivity. Qed.
